(** * LitheServer syntax fixtures: [example.c] and [example.cpp]

    A shallow embedding of the two sample programs of the repository and
    the properties their description states about them.

    - [ExampleC] embeds the toy HTTP server of [syntax_test/example.c]:
      the request parser, the response builder and its sender, the
      connection handler, the set-up of the listening socket, the accept
      loop of [main] and the signal handler.
    - [ExampleCpp] embeds the [SmartArray] template with its moves and
      its iterator, the variadic [sum], the [AsyncUserService] class and
      [FileResource] of [syntax_test/example.cpp].

    The first half of the file holds the definitions, the second half the
    lemmas and theorems. *)

From stdpp Require Import base option list.
From Stdlib Require Import ZArith String Ascii Lia DecimalString.

Local Open Scope string_scope.
Local Open Scope Z_scope.

(** ** Faults and results

    A C or C++ operation that leaves defined behaviour (a write or a read
    past the end of an array, a read through NULL) is a [Fault]; a loop of the model
    that is cut by its fuel is a [Fault] of its own, so that it is never
    mistaken for a result. [Throw] is a C++ exception leaving the
    operation. *)

Inductive fault : Set :=
| BufferOverflow
| NullDereference
| OutOfFuel.

Inductive exception : Set :=
| out_of_range (what : string)
| bad_alloc.

Inductive result (A : Type) : Type :=
| Ok (a : A)
| Fault (f : fault)
| Throw (e : exception).
Arguments Ok {A} a.
Arguments Fault {A} f.
Arguments Throw {A} e.

#[export] Instance result_ret : MRet result := fun A a => Ok a.
#[export] Instance result_bind : MBind result := fun A B f r =>
  match r with
  | Ok a => f a
  | Fault e => Fault e
  | Throw e => Throw e
  end.

(** ** The C library, as far as [example.c] uses it *)

Module libc.

Definition NUL : ascii := "000"%char.
Definition CR : ascii := "013"%char.
Definition LF : ascii := "010"%char.

(** The string literal ["\r\n"]. *)
Definition CRLF : string := String CR (String LF "").

Definition EOF : Z := -1.
Definition EINTR : Z := 4.
Definition EXIT_SUCCESS : Z := 0.
Definition EXIT_FAILURE : Z := 1.

Definition strlen (s : string) : Z := Z.of_nat (String.length s).

(** [isspace] in the C locale: space, [\t], [\n], [\v], [\f], [\r]. *)
Definition isspace (c : ascii) : bool :=
  let n := nat_of_ascii c in
  (n =? 32)%nat || ((9 <=? n)%nat && (n <=? 13)%nat).

(** Does character [c] occur in [s]? ([strchr(s, c) != NULL], [c] not NUL.) *)
Fixpoint strchr (s : string) (c : ascii) : bool :=
  match s with
  | "" => false
  | String d s' => if Ascii.eqb c d then true else strchr s' c
  end.

(** The part of [s] after its leading characters from [delim]
    ([s + strspn(s, delim)]). *)
Fixpoint skip_delim (delim s : string) : string :=
  match s with
  | "" => ""
  | String c s' => if strchr delim c then skip_delim delim s' else s
  end.

(** Splits [s] at its first character from [delim]: the token before it
    and the text after it. [strtok_r] overwrites that delimiter with NUL
    and leaves the save pointer just behind it; when the token runs to the
    end of the string, the save pointer is left at the terminator. *)
Fixpoint split_token (delim s : string) : string * string :=
  match s with
  | "" => ("", "")
  | String c s' =>
      if strchr delim c then ("", s')
      else let '(tok, rest) := split_token delim s' in (String c tok, rest)
  end.

(** [strtok_r(str, delim, &saveptr)]: the token, or [None] for NULL, and
    the new save pointer. With [str = None] (NULL) scanning resumes at
    [saveptr]. *)
Definition strtok_r (str : option string) (delim saveptr : string)
  : option string * string :=
  let s := match str with Some s => s | None => saveptr end in
  match skip_delim delim s with
  | "" => (None, "")
  | s' => let '(tok, rest) := split_token delim s' in (Some tok, rest)
  end.

(** The part of [s] after its leading white space. *)
Fixpoint skip_space (s : string) : string :=
  match s with
  | "" => ""
  | String c s' => if isspace c then skip_space s' else s
  end.

(** Reads at most [width] characters that are not white space: the field
    and the unread input. *)
Fixpoint read_nonspace (width : nat) (s : string) : string * string :=
  match width, s with
  | S w, String c s' =>
      if isspace c then ("", s)
      else let '(field, rest) := read_nonspace w s' in (String c field, rest)
  | _, _ => ("", s)
  end.

(** The directives of a [scanf] format that [example.c] uses: [%<width>s]
    and white space. *)
Inductive directive : Set :=
| conv_s (width : nat)
| white_space.

(** The fields a format assigns, in order; scanning stops at the first
    conversion that meets the end of the input. *)
Fixpoint scan_fields (fmt : list directive) (input : string) : list string :=
  match fmt with
  | [] => []
  | white_space :: fmt' => scan_fields fmt' (skip_space input)
  | conv_s width :: fmt' =>
      match skip_space input with
      | "" => []
      | s =>
          let '(field, rest) := read_nonspace width s in
          field :: scan_fields fmt' rest
      end
  end.

Definition is_conversion (d : directive) : bool :=
  match d with conv_s _ => true | white_space => false end.

(** [sscanf(input, fmt, ...)]: the number of fields assigned, or [EOF]
    when the input ends before the first conversion, with the fields. *)
Definition sscanf (input : string) (fmt : list directive) : Z * list string :=
  let fields := scan_fields fmt input in
  match fields with
  | [] => (if existsb is_conversion fmt then EOF else 0, [])
  | _ => (Z.of_nat (List.length fields), fields)
  end.

(** [strncmp(s1, s2, n)]: zero when the first [n] characters agree (up to
    the end of both strings), else the difference of the first pair of
    characters that differ, the end of a string counting as NUL. *)
Fixpoint strncmp (s1 s2 : string) (n : nat) : Z :=
  match n with
  | O => 0
  | S n' =>
      match s1, s2 with
      | "", "" => 0
      | "", String c2 _ => - Z.of_nat (nat_of_ascii c2)
      | String c1 _, "" => Z.of_nat (nat_of_ascii c1)
      | String c1 s1', String c2 s2' =>
          if Ascii.eqb c1 c2 then strncmp s1' s2' n'
          else Z.of_nat (nat_of_ascii c1) - Z.of_nat (nat_of_ascii c2)
      end
  end.

(** A string stored into a [char] array of [capacity] bytes, terminator
    included: past the capacity the store overflows the array. *)
Definition store_string (capacity : Z) (s : string) : result string :=
  if strlen s <? capacity then Ok s else Fault BufferOverflow.

(** [strcpy(dest, src)] for [char dest[capacity]]: the new content. *)
Definition strcpy (capacity : Z) (src : string) : result string :=
  store_string capacity src.

(** [strcat(dest, src)] for [char dest[capacity]]: the new content. *)
Definition strcat (capacity : Z) (dest src : string) : result string :=
  store_string capacity (dest ++ src).

(** [%d] and [%zu]. *)
Definition decimal (z : Z) : string := NilZero.string_of_int (Z.to_int z).

(** The first [n] characters of [s]. *)
Fixpoint truncate (n : nat) (s : string) : string :=
  match n, s with
  | S n', String c s' => String c (truncate n' s')
  | _, _ => ""
  end.

(** [snprintf(dest, size, ...)] whose formatted text is [text]: at most
    [size - 1] characters are stored, then the terminator. *)
Definition snprintf (size : Z) (text : string) : string :=
  truncate (Z.to_nat (size - 1)) text.

(** [memset(buffer, 0, n)] on a buffer of [n] bytes. *)
Definition zeroed (n : Z) : list ascii := replicate (Z.to_nat n) NUL.

(** [buffer[index] = c], inside the array or a fault. *)
Definition array_set (buffer : list ascii) (index : Z) (c : ascii)
  : result (list ascii) :=
  if (0 <=? index) && (index <? Z.of_nat (List.length buffer))
  then Ok (<[Z.to_nat index := c]> buffer)
  else Fault BufferOverflow.

(** The C string held in a byte array: the bytes before the first NUL.
    Without a NUL the read leaves the array. *)
Fixpoint c_str (buffer : list ascii) : result string :=
  match buffer with
  | [] => Fault BufferOverflow
  | c :: buffer' =>
      if Ascii.eqb c NUL then Ok ""
      else s ← c_str buffer'; Ok (String c s)
  end.

(** [struct sockaddr_in]: the four address bytes in memory order and the
    port in network byte order. *)
Record sockaddr_in : Set := {
  sin_addr : Z * Z * Z * Z;
  sin_port : Z
}.

(** [inet_ntop(AF_INET, ...)]: dotted decimal. *)
Definition inet_ntop (a : Z * Z * Z * Z) : string :=
  let '(b1, b2, b3, b4) := a in
  decimal b1 ++ "." ++ decimal b2 ++ "." ++ decimal b3 ++ "." ++ decimal b4.

(** [ntohs] on a little-endian host: the two bytes swapped. *)
Definition ntohs (p : Z) : Z := (p mod 256) * 256 + (p / 256) mod 256.

End libc.

(** ** [example.c]: the toy HTTP server *)

Module ExampleC.
Import libc.

Definition MAX_BUFFER_SIZE : Z := 1024.
Definition DEFAULT_PORT : Z := 8080.
Definition BACKLOG : Z := 10.
Definition MAX_CLIENTS : Z := 100.

Definition HTTP_200_OK : string := "HTTP/1.1 200 OK" ++ CRLF.
Definition HTTP_404_NOT_FOUND : string := "HTTP/1.1 404 Not Found" ++ CRLF.
Definition CONTENT_TYPE_HTML : string := "Content-Type: text/html" ++ CRLF.
Definition CONTENT_TYPE_JSON : string := "Content-Type: application/json" ++ CRLF.

Record client_info_t : Set := {
  socket_fd : Z;
  client_ip : string;
  port : Z;
  connect_time : Z
}.

(** The [char] arrays hold NUL-terminated text; a field of the record is
    the text before the terminator. *)
Record http_request_t : Set := {
  method : string;     (* char method[16] *)
  path : string;       (* char path[256] *)
  version : string;    (* char version[16] *)
  headers : string;    (* char headers[MAX_BUFFER_SIZE] *)
  body : string        (* char body[MAX_BUFFER_SIZE] *)
}.

Record http_response_t : Set := {
  status_code : Z;
  status_message : string;     (* char status_message[64] *)
  response_headers : string;   (* char headers[MAX_BUFFER_SIZE] *)
  response_body : string;      (* char body[MAX_BUFFER_SIZE] *)
  content_length : Z
}.

(** *** Calls that leave the translation unit

    Every function [example.c] calls and does not define: the system calls,
    the allocator, the output functions of the C library, and the three
    functions the file declares without a body ([log_message],
    [serve_static_file], [handle_api_request]). The index of [call] is the
    type of what the call gives back to the program. *)

(** An argument of a variadic call. *)
Inductive vararg : Set :=
| VStr (s : string)
| VInt (z : Z).

Inductive call : Type -> Type :=
(* system calls *)
| c_socket : call Z
| c_setsockopt (sockfd : Z) : call Z
| c_bind (sockfd port : Z) : call Z
| c_listen (sockfd backlog : Z) : call Z
| c_accept (sockfd : Z) : call (Z * Z * sockaddr_in)  (* descriptor, errno, peer *)
| c_recv (sockfd len : Z) : call (option (list ascii)) (* the bytes on offer; None: -1 *)
| c_close (fd : Z) : call unit
| c_signal (signum : Z) : call unit                    (* signal(signum, cleanup_and_exit) *)
(* the allocator *)
| c_malloc (size : Z) : call bool                      (* false: NULL *)
| c_free : call unit
(* output *)
| c_perror (s : string) : call unit
| c_printf (format : string) (args : list vararg) : call unit
| c_fprintf_stderr (format : string) (args : list vararg) : call unit
(* declared in example.c, defined elsewhere *)
| c_log_message (level format : string) (args : list vararg) : call unit
| c_serve_static_file (client_socket : Z) (file_path : string) : call unit
| c_handle_api_request (client_socket : Z) (request : http_request_t) : call unit.

(** The variables at file scope. They are [static]: only the functions
    defined in [example.c] can name them. *)
Record globals : Set := {
  server_socket : Z;
  server_running : Z;
  clients : list client_info_t;
  client_count : Z
}.

Definition zero_client : client_info_t :=
  {| socket_fd := 0; client_ip := ""; port := 0; connect_time := 0 |}.

(** The state at program start: the initialisers of the file, and zeros
    for the array, which has none. *)
Definition initial_globals : globals :=
  {| server_socket := -1;
     server_running := 1;
     clients := replicate (Z.to_nat MAX_CLIENTS) zero_client;
     client_count := 0 |}.

Definition set_server_socket (v : Z) (g : globals) : globals :=
  {| server_socket := v; server_running := server_running g;
     clients := clients g; client_count := client_count g |}.

Definition set_server_running (v : Z) (g : globals) : globals :=
  {| server_socket := server_socket g; server_running := v;
     clients := clients g; client_count := client_count g |}.

(** A function body: it returns, faults, ends the process, makes a call
    and goes on with what the call gave back, reads the variables at file
    scope, or assigns to them. *)
Inductive prog (A : Type) : Type :=
| Ret (a : A)
| Crash (f : fault)
| Exit (status : Z)
| Call (X : Type) (c : call X) (k : X -> prog A)
| ReadVars (k : globals -> prog A)
| WriteVars (f : globals -> globals) (k : prog A).
Arguments Ret {A} a.
Arguments Crash {A} f.
Arguments Exit {A} status.
Arguments Call {A X} c k.
Arguments ReadVars {A} k.
Arguments WriteVars {A} f k.

Fixpoint bind {A B : Type} (p : prog A) (f : A -> prog B) : prog B :=
  match p with
  | Ret a => f a
  | Crash e => Crash e
  | Exit status => Exit status
  | Call c k => Call c (fun x => bind (k x) f)
  | ReadVars k => ReadVars (fun g => bind (k g) f)
  | WriteVars w k => WriteVars w (bind k f)
  end.

#[export] Instance prog_ret : MRet prog := fun A a => Ret a.
#[export] Instance prog_bind : MBind prog := fun A B f p => bind p f.

Definition perform {X : Type} (c : call X) : prog X := Call c Ret.
Definition read : prog globals := ReadVars Ret.
Definition write (f : globals -> globals) : prog unit := WriteVars f (Ret tt).

(** A pure computation inside a function body. No C function throws. *)
Definition lift {A : Type} (r : result A) : prog A :=
  match r with
  | Ok a => Ret a
  | Fault f => Crash f
  | Throw _ => Crash BufferOverflow
  end.

(** One call as the outside world saw it: the call and its answer. *)
Inductive event : Type :=
| Event (X : Type) (c : call X) (x : X).
Arguments Event {X} c x.

(** The outside world: the answer to the [n]-th call of a run. *)
Definition oracle : Type := nat -> forall X : Type, call X -> X.

(** How a function body ends. *)
Inductive outcome (A : Type) : Type :=
| Returned (a : A)
| Faulted (f : fault)
| Exited (status : Z).
Arguments Returned {A} a.
Arguments Faulted {A} f.
Arguments Exited {A} status.

(** Runs a function body against the outside world, from its [n]-th call
    on and from the variables [g]: the calls made, the variables afterwards
    and the outcome. *)
Fixpoint exec {A : Type} (o : oracle) (n : nat) (g : globals) (p : prog A)
  : list event * globals * outcome A :=
  match p with
  | Ret a => ([], g, Returned a)
  | Crash f => ([], g, Faulted f)
  | Exit status => ([], g, Exited status)
  | Call c k =>
      let x := o n _ c in
      let '(tr, g', r) := exec o (S n) g (k x) in
      (Event c x :: tr, g', r)
  | ReadVars k => exec o n g (k g)
  | WriteVars f k => exec o n (f g) k
  end.

Definition calls_of {A : Type} (r : list event * globals * outcome A) : list event :=
  r.1.1.
Definition globals_of {A : Type} (r : list event * globals * outcome A) : globals :=
  r.1.2.
Definition outcome_of {A : Type} (r : list event * globals * outcome A) : outcome A :=
  r.2.

(** *** C library functions that reach the outside world *)

(** [strdup(s)]: a copy on the heap, or NULL. *)
Definition strdup (s : string) : prog (option string) :=
  ok ← perform (c_malloc (strlen s + 1));
  mret (if ok : bool then Some s else None).

Definition free : prog unit := perform c_free.

(** What [recv(sockfd, buffer, len, 0)] makes of the bytes on offer: the
    count it returns and the buffer afterwards. It stores [len] bytes at
    most; with nothing on offer (the peer has closed) it returns 0. *)
Definition recv_result (offered : option (list ascii)) (buffer : list ascii)
    (len : Z) : Z * list ascii :=
  match offered with
  | None => (-1, buffer)
  | Some bytes =>
      let got := take (Z.to_nat len) bytes in
      (Z.of_nat (List.length got), (got ++ drop (List.length got) buffer)%list)
  end.

Definition recv (sockfd : Z) (buffer : list ascii) (len : Z)
  : prog (Z * list ascii) :=
  offered ← perform (c_recv sockfd len);
  mret (recv_result offered buffer len).

Definition close (fd : Z) : prog unit := perform (c_close fd).

Definition log_message (level format : string) (args : list vararg)
  : prog unit :=
  perform (c_log_message level format args).

Definition serve_static_file (client_socket : Z) (file_path : string)
  : prog unit :=
  perform (c_serve_static_file client_socket file_path).

Definition handle_api_request (client_socket : Z) (request : http_request_t)
  : prog unit :=
  perform (c_handle_api_request client_socket request).

(** *** [parse_http_request] *)

(** ["%15s %255s %15s"] *)
Definition request_line_format : list directive :=
  [conv_s 15; white_space; conv_s 255; white_space; conv_s 15].

(** The fields [sscanf] assigned, stored through the pointers
    [request->method], [request->path] and [request->version]; a field that
    was not assigned keeps its old content. *)
Definition store_request_line (fields : list string) (request : http_request_t)
  : result http_request_t :=
  m ← from_option (store_string 16) (Ok (method request)) (fields !! 0%nat);
  p ← from_option (store_string 256) (Ok (path request)) (fields !! 1%nat);
  v ← from_option (store_string 16) (Ok (version request)) (fields !! 2%nat);
  Ok {| method := m; path := p; version := v;
        headers := headers request; body := body request |}.

Definition set_headers (h : string) (request : http_request_t) : http_request_t :=
  {| method := method request; path := path request; version := version request;
     headers := h; body := body request |}.

Definition set_body (b : string) (request : http_request_t) : http_request_t :=
  {| method := method request; path := path request; version := version request;
     headers := headers request; body := b |}.

(** The [while] loop over the remaining lines. One unit of fuel is one
    call of [strtok_r]. *)
Fixpoint parse_lines (fuel : nat) (saveptr : string) (in_headers : bool)
    (request : http_request_t) : result http_request_t :=
  match fuel with
  | O => Fault OutOfFuel
  | S fuel' =>
      match strtok_r None CRLF saveptr with
      | (None, _) => Ok request
      | (Some line, saveptr') =>
          if strlen line =? 0 then
            parse_lines fuel' saveptr' false request
          else if in_headers then
            if strlen (headers request) + strlen line + 2 <? MAX_BUFFER_SIZE then
              h ← strcat MAX_BUFFER_SIZE (headers request) line;
              h ← strcat MAX_BUFFER_SIZE h (String LF "");
              parse_lines fuel' saveptr' in_headers (set_headers h request)
            else
              parse_lines fuel' saveptr' in_headers request
          else
            if strlen (body request) + strlen line + 1 <? MAX_BUFFER_SIZE then
              b ← strcat MAX_BUFFER_SIZE (body request) line;
              parse_lines fuel' saveptr' in_headers (set_body b request)
            else
              parse_lines fuel' saveptr' in_headers request
      end
  end.

(** [raw_request] and [request] are pointers: [None] is NULL, and
    [Some r] for [request] is a pointer to a struct that holds [r]. The
    result is the value returned and the struct afterwards. *)
Definition parse_http_request (raw_request : option string)
    (request : option http_request_t) : prog (Z * option http_request_t) :=
  match raw_request, request with
  | Some raw, Some req =>
      request_copy ← strdup raw;
      match request_copy with
      | None => mret (-1, Some req)
      | Some request_copy =>
          match strtok_r (Some request_copy) CRLF "" with
          | (None, _) => free;; mret (-1, Some req)
          | (Some line, saveptr) =>
              let '(assigned, fields) := sscanf line request_line_format in
              req ← lift (store_request_line fields req);
              if negb (assigned =? 3) then free;; mret (-1, Some req)
              else
                h ← lift (strcpy MAX_BUFFER_SIZE "");
                b ← lift (strcpy MAX_BUFFER_SIZE "");
                req ← lift (parse_lines (S (String.length saveptr)) saveptr true
                              (set_body b (set_headers h req)));
                free;;
                mret (0, Some req)
          end
      end
  | _, _ => mret (-1, request)
  end.

(** *** [build_http_response] *)

Definition status_message_of (status_code : Z) : string :=
  match status_code with
  | 200 => "OK"
  | 404 => "Not Found"
  | 500 => "Internal Server Error"
  | _ => "Unknown"
  end.

(** The text the format of the [snprintf] call produces, before it is cut
    to the size of the array. *)
Definition response_header_text (status_code : Z) (status_message : string)
    (content_type : string) (body_length : Z) : string :=
  "HTTP/1.1 " ++ decimal status_code ++ " " ++ status_message ++ CRLF ++
  content_type ++ CRLF ++
  "Content-Length: " ++ decimal body_length ++ CRLF ++
  "Connection: close" ++ CRLF ++
  "Server: QuickServer/1.0" ++ CRLF ++
  CRLF.

(** [response], [content_type] and [body] are pointers, [None] is NULL;
    the result is the struct behind [response] afterwards. The function
    tests [content_type] only. *)
Definition build_http_response (response : option http_response_t)
    (status_code : Z) (content_type body : option string)
  : result http_response_t :=
  let status_message := status_message_of status_code in
  _ ← from_option Ok (Fault NullDereference) response;
  sm ← strcpy 64 status_message;
  body ← from_option Ok (Fault NullDereference) body;
  let h := snprintf MAX_BUFFER_SIZE
             (response_header_text status_code status_message
                (default "" content_type) (strlen body)) in
  b ← strcpy MAX_BUFFER_SIZE body;
  Ok {| status_code := status_code;
        status_message := sm;
        response_headers := h;
        response_body := b;
        content_length := strlen body |}.

(** *** [send_http_response]

    No function of [example.c] calls [send_http_response], and [send] is
    called by it alone, so its calls are noted in a type of their own:
    [send(sockfd, buf, len, 0)] with the text [buf] points to, the length
    it was called with and the value it returned, and [log_message] with
    its arguments. *)
Inductive transmission : Type :=
| Sent (sockfd : Z) (buf : string) (len : Z) (bytes_sent : Z)
| Logged (level format : string) (args : list vararg).

(** [response] is a pointer, [None] is NULL; [send n] is the value the
    [n]-th call of [send] returns. The body is read from an array of
    [MAX_BUFFER_SIZE] bytes: a longer read leaves it. *)
Definition send_http_response (send : nat -> Z) (client_socket : Z)
    (response : option http_response_t) : result (list transmission) :=
  response ← from_option Ok (Fault NullDereference) response;
  let bytes_sent := send 0%nat in
  let sent_headers :=
    Sent client_socket (response_headers response)
      (strlen (response_headers response)) bytes_sent in
  if bytes_sent <? 0 then
    Ok [sent_headers; Logged "ERROR" "Failed to send response headers" []]%list
  else
    let done :=
      Logged "INFO" "Response sent: %d %s (%zu bytes)"
        [VInt (status_code response); VStr (status_message response);
         VInt (content_length response)] in
    if 0 <? content_length response then
      if content_length response <=? MAX_BUFFER_SIZE then
        let bytes_sent := send 1%nat in
        let sent_body :=
          Sent client_socket (response_body response)
            (content_length response) bytes_sent in
        if bytes_sent <? 0 then
          Ok [sent_headers; sent_body;
              Logged "ERROR" "Failed to send response body" []]%list
        else Ok [sent_headers; sent_body; done]%list
      else Fault BufferOverflow
    else Ok [sent_headers; done]%list.

(** *** [create_server_socket] *)

Definition perror (s : string) : prog unit := perform (c_perror s).

Definition create_server_socket (port : Z) : prog Z :=
  sockfd ← perform c_socket;
  if sockfd <? 0 then
    perror "socket creation failed";; mret (-1)
  else
    r ← perform (c_setsockopt sockfd);
    if r <? 0 then
      perror "setsockopt failed";; close sockfd;; mret (-1)
    else
      r ← perform (c_bind sockfd port);
      if r <? 0 then
        perror "bind failed";; close sockfd;; mret (-1)
      else
        r ← perform (c_listen sockfd BACKLOG);
        if r <? 0 then
          perror "listen failed";; close sockfd;; mret (-1)
        else
          log_message "INFO" "Server listening on port %d" [VInt port];;
          mret sockfd.

(** *** [handle_client_connection]

    [request] is the content of the local variable of that name when the
    function is entered: it has no initialiser. *)
Definition handle_client_connection (client_socket : Z)
    (client_addr : sockaddr_in) (request : http_request_t) : prog unit :=
  let client_ip := inet_ntop (sin_addr client_addr) in
  log_message "INFO" "New connection from %s:%d"
    [VStr client_ip; VInt (ntohs (sin_port client_addr))];;
  let buffer := zeroed MAX_BUFFER_SIZE in
  '(bytes_received, buffer) ← recv client_socket buffer (MAX_BUFFER_SIZE - 1);
  if bytes_received <=? 0 then
    log_message "ERROR" "Failed to receive data from client" [];;
    close client_socket
  else
    buffer ← lift (array_set buffer bytes_received NUL);
    raw_request ← lift (c_str buffer);
    log_message "DEBUG" "Received request:\n%s" [VStr raw_request];;
    '(rc, parsed) ← parse_http_request (Some raw_request) (Some request);
    let request := default request parsed in
    if negb (rc =? 0) then
      log_message "ERROR" "Failed to parse HTTP request" [];;
      close client_socket
    else
      (if strncmp (path request) "/api/" 5 =? 0
       then handle_api_request client_socket request
       else serve_static_file client_socket (path request));;
      close client_socket.

(** *** [cleanup_and_exit] and [main] *)

Definition cleanup_and_exit (signal : Z) : prog unit :=
  write (set_server_running 0);;
  g ← read;
  (if 0 <=? server_socket g then
     close (server_socket g);;
     write (set_server_socket (-1))
   else mret tt);;
  perform (c_printf "QuickServer stopped gracefully." []);;
  if negb (signal =? 0) then Exit EXIT_SUCCESS else mret tt.

Definition SIGINT : Z := 2.
Definition SIGTERM : Z := 15.

(** [main] up to its loop. [port_arg] is [atoi(argv[1])] when there is an
    argument. The result is the status [main] returns with, or [None] when
    it goes on into the loop. *)
Definition main_setup (port_arg : option Z) : prog (option Z) :=
  let port := default DEFAULT_PORT port_arg in
  if match port_arg with
     | Some _ => (port <=? 0) || (65535 <? port)
     | None => false
     end
  then
    perform (c_fprintf_stderr "Invalid port number: %s" []);;
    mret (Some EXIT_FAILURE)
  else
    perform (c_signal SIGINT);;
    perform (c_signal SIGTERM);;
    sockfd ← create_server_socket port;
    write (set_server_socket sockfd);;
    g ← read;
    if server_socket g <? 0 then
      perform (c_fprintf_stderr "Failed to create server socket" []);;
      mret (Some EXIT_FAILURE)
    else
      perform (c_printf "QuickServer started successfully!" []);;
      perform (c_printf "Serving files from current directory" []);;
      perform (c_printf "Server listening on http://localhost:%d" [VInt port]);;
      perform (c_printf "Press Ctrl+C to stop the server" []);;
      mret None.

(** How one pass through the body of the [while] loop ends. *)
Inductive loop_flow : Set :=
| next_iteration     (* the end of the body, or [continue] *)
| leave_loop.        (* the loop test failed, or [break] *)

(** The loop test and one pass through the loop body. [request] is what
    the handler finds in its local variable. *)
Definition loop_iteration (request : http_request_t) : prog loop_flow :=
  g ← read;
  if server_running g =? 0 then mret leave_loop
  else
    '(client_socket, errno, client_addr) ← perform (c_accept (server_socket g));
    if client_socket <? 0 then
      if errno =? EINTR then mret next_iteration
      else perror "accept failed";; mret leave_loop
    else
      handle_client_connection client_socket client_addr request;;
      mret next_iteration.

(** [main] after its loop. *)
Definition main_exit : prog Z :=
  cleanup_and_exit 0;;
  mret EXIT_SUCCESS.

(** *** The process as a transition system *)

(** One step of a function body: the calls it makes (none or one) and the
    variables and the rest of the body afterwards. *)
Inductive pstep {A : Type}
  : globals -> prog A -> list event -> globals -> prog A -> Prop :=
| pstep_call (X : Type) (c : call X) (k : X -> prog A) (x : X) (g : globals) :
    pstep g (Call c k) [Event c x] g (k x)
| pstep_read (k : globals -> prog A) (g : globals) :
    pstep g (ReadVars k) [] g (k g)
| pstep_write (f : globals -> globals) (k : prog A) (g : globals) :
    pstep g (WriteVars f k) [] (f g) k.

(** Where the process is. *)
Inductive control : Type :=
| in_setup (p : prog (option Z))
| in_loop (p : prog loop_flow)
| in_exit (p : prog Z)
| in_signal_handler (p : prog unit) (interrupted : control)
| halted (status : Z)
| crashed (f : fault).

Record config : Type := {
  vars : globals;
  ctl : control;
  trace : list event     (* the calls made so far, oldest first *)
}.

Definition initial_config (port_arg : option Z) : config :=
  {| vars := initial_globals; ctl := in_setup (main_setup port_arg); trace := [] |}.

Definition is_running (c : control) : bool :=
  match c with
  | halted _ | crashed _ => false
  | _ => true
  end.

(** What a control state does when its function body has nothing left to
    step: a return value moves on in [main], [exit] ends the process. *)
Inductive finish : control -> control -> Prop :=
| finish_setup_return (status : Z) :
    finish (in_setup (Ret (Some status))) (halted status)
| finish_setup_loop (request : http_request_t) :
    finish (in_setup (Ret None)) (in_loop (loop_iteration request))
| finish_loop_next (request : http_request_t) :
    finish (in_loop (Ret next_iteration)) (in_loop (loop_iteration request))
| finish_loop_leave :
    finish (in_loop (Ret leave_loop)) (in_exit main_exit)
| finish_exit_return (status : Z) :
    finish (in_exit (Ret status)) (halted status)
| finish_handler_return (interrupted : control) :
    finish (in_signal_handler (Ret tt) interrupted) interrupted
| finish_setup_exit (status : Z) :
    finish (in_setup (Exit status)) (halted status)
| finish_loop_exit (status : Z) :
    finish (in_loop (Exit status)) (halted status)
| finish_exit_exit (status : Z) :
    finish (in_exit (Exit status)) (halted status)
| finish_handler_exit (status : Z) (interrupted : control) :
    finish (in_signal_handler (Exit status) interrupted) (halted status)
| finish_setup_fail (f : fault) :
    finish (in_setup (Crash f)) (crashed f)
| finish_loop_fail (f : fault) :
    finish (in_loop (Crash f)) (crashed f)
| finish_exit_fail (f : fault) :
    finish (in_exit (Crash f)) (crashed f)
| finish_handler_fail (f : fault) (interrupted : control) :
    finish (in_signal_handler (Crash f) interrupted) (crashed f).

Inductive step : config -> config -> Prop :=
| step_setup p evs g' p' g tr :
    pstep g p evs g' p' ->
    step {| vars := g; ctl := in_setup p; trace := tr |}
         {| vars := g'; ctl := in_setup p'; trace := tr ++ evs |}
| step_loop p evs g' p' g tr :
    pstep g p evs g' p' ->
    step {| vars := g; ctl := in_loop p; trace := tr |}
         {| vars := g'; ctl := in_loop p'; trace := tr ++ evs |}
| step_exit p evs g' p' g tr :
    pstep g p evs g' p' ->
    step {| vars := g; ctl := in_exit p; trace := tr |}
         {| vars := g'; ctl := in_exit p'; trace := tr ++ evs |}
| step_signal_handler p evs g' p' interrupted g tr :
    pstep g p evs g' p' ->
    step {| vars := g; ctl := in_signal_handler p interrupted; trace := tr |}
         {| vars := g'; ctl := in_signal_handler p' interrupted; trace := tr ++ evs |}
| step_finish c c' g tr :
    finish c c' ->
    step {| vars := g; ctl := c; trace := tr |}
         {| vars := g; ctl := c'; trace := tr |}
(* SIGINT or SIGTERM is delivered: [cleanup_and_exit] runs as the handler *)
| step_signal signal c g tr :
    is_running c = true ->
    signal = SIGINT \/ signal = SIGTERM ->
    step {| vars := g; ctl := c; trace := tr |}
         {| vars := g; ctl := in_signal_handler (cleanup_and_exit signal) c;
            trace := tr |}.

Inductive reachable (start : config) : config -> Prop :=
| reachable_start : reachable start start
| reachable_step (c c' : config) :
    reachable start c -> step c c' -> reachable start c'.

(** The client connections that are open after a call: [accept] opens the
    descriptor it returns, [close] closes its argument. *)
Definition active_after (e : event) (active : list Z) : list Z :=
  match e with
  | Event c x =>
      match c in call X return X -> list Z with
      | c_accept _ => fun '(client_socket, _, _) =>
          if 0 <=? client_socket then client_socket :: active else active
      | c_close fd => fun _ => List.remove Z.eq_dec fd active
      | _ => fun _ => active
      end x
  end.

(** The client connections that are open after a trace. *)
Definition active_connections (tr : list event) : list Z :=
  fold_left (fun active e => active_after e active) tr [].

(** *** A program logic for function bodies

    [wp I Q E tr g p]: from the trace [tr] and the variables [g], every run
    of [p] keeps [I] at each point it passes, never faults, returns only
    with [Q] and ends the process only with [E]. *)
Fixpoint wp {A : Type} (I : list event -> globals -> Prop)
    (Q : A -> list event -> globals -> Prop)
    (E : Z -> list event -> globals -> Prop)
    (tr : list event) (g : globals) (p : prog A) : Prop :=
  I tr g /\
  match p with
  | Ret a => Q a tr g
  | Crash _ => False
  | Exit status => E status tr g
  | Call c k => forall x, wp I Q E (tr ++ [Event c x]) g (k x)
  | ReadVars k => wp I Q E tr g (k g)
  | WriteVars f k => wp I Q E tr (f g) k
  end.

(** Calls that neither open nor close a connection. *)
Definition quiet (e : event) : bool :=
  match e with
  | Event (c_accept _) _ | Event (c_close _) _ => false
  | _ => true
  end.

(** Calls to the allocator. *)
Definition heap_call (e : event) : bool :=
  match e with
  | Event (c_malloc _) _ | Event c_free _ => true
  | _ => false
  end.

(** The first line of a request, as [strtok_r] finds it. *)
Definition first_line (raw : string) : option string :=
  (strtok_r (Some raw) CRLF "").1.

(** The C string [handle_client_connection] hands to the parser when
    [recv] was offered [offered]: none when [recv] returned 0 or less. *)
Definition received_request (offered : option (list ascii)) : option string :=
  let '(bytes_received, buffer) :=
    recv_result offered (zeroed MAX_BUFFER_SIZE) (MAX_BUFFER_SIZE - 1) in
  if bytes_received <=? 0 then None
  else
    match array_set buffer bytes_received NUL ≫= c_str with
    | Ok raw => Some raw
    | _ => None
    end.

(** *** Descriptions of runs, invariants and an executable process

    What follows is not code of [example.c]: it names the runs of the
    functions above, the invariants of the server and a function that
    steps the process through a schedule. *)

Local Open Scope list_scope.

(** The headers and the body fit their arrays, terminator included. *)
Definition within_capacity (request : http_request_t) : Prop :=
  strlen (headers request) < MAX_BUFFER_SIZE /\
  strlen (body request) < MAX_BUFFER_SIZE.

(** The widths of the conversions of a format, in order. *)
Definition widths (fmt : list directive) : list nat :=
  omap (fun d => match d with conv_s w => Some w | white_space => None end) fmt.

(** The runs of [parse_http_request] on two valid pointers: the calls made,
    the value returned and the struct afterwards. *)
Inductive parse_run (raw : string) (request : http_request_t)
  : list event -> Z -> http_request_t -> Prop :=
| parse_no_memory :
    parse_run raw request [Event (c_malloc (strlen raw + 1)) false] (-1) request
| parse_no_line :
    first_line raw = None ->
    parse_run raw request
      [Event (c_malloc (strlen raw + 1)) true; Event c_free tt] (-1) request
| parse_bad_line (line : string) (request' : http_request_t) :
    first_line raw = Some line ->
    (sscanf line request_line_format).1 <> 3 ->
    parse_run raw request
      [Event (c_malloc (strlen raw + 1)) true; Event c_free tt] (-1) request'
| parse_ok (line : string) (request' : http_request_t) :
    first_line raw = Some line ->
    (sscanf line request_line_format).1 = 3 ->
    [method request'; path request'; version request']
      = (sscanf line request_line_format).2 ->
    strlen (method request') <= 15 ->
    strlen (path request') <= 255 ->
    strlen (version request') <= 15 ->
    strlen (headers request') < MAX_BUFFER_SIZE ->
    strlen (body request') < MAX_BUFFER_SIZE ->
    parse_run raw request
      [Event (c_malloc (strlen raw + 1)) true; Event c_free tt] 0 request'.

(** The runs of [handle_client_connection]: the calls it makes, in order. *)
Inductive handler_run (client_socket : Z) (client_addr : sockaddr_in)
    (request : http_request_t) : list event -> Prop :=
| handled_no_data (offered : option (list ascii)) :
    received_request offered = None ->
    handler_run client_socket client_addr request
      [Event (c_log_message "INFO" "New connection from %s:%d"
                [VStr (inet_ntop (sin_addr client_addr));
                 VInt (ntohs (sin_port client_addr))]) tt;
       Event (c_recv client_socket (MAX_BUFFER_SIZE - 1)) offered;
       Event (c_log_message "ERROR" "Failed to receive data from client" []) tt;
       Event (c_close client_socket) tt]
| handled_bad_request (offered : option (list ascii)) (raw : string)
    (heap : list event) (rc : Z) (request' : http_request_t) :
    received_request offered = Some raw ->
    parse_run raw request heap rc request' ->
    rc <> 0 ->
    handler_run client_socket client_addr request
      ([Event (c_log_message "INFO" "New connection from %s:%d"
                 [VStr (inet_ntop (sin_addr client_addr));
                  VInt (ntohs (sin_port client_addr))]) tt;
        Event (c_recv client_socket (MAX_BUFFER_SIZE - 1)) offered;
        Event (c_log_message "DEBUG" "Received request:\n%s" [VStr raw]) tt]
       ++ heap ++
       [Event (c_log_message "ERROR" "Failed to parse HTTP request" []) tt;
        Event (c_close client_socket) tt])
| handled_request (offered : option (list ascii)) (raw : string)
    (heap : list event) (request' : http_request_t) :
    received_request offered = Some raw ->
    parse_run raw request heap 0 request' ->
    handler_run client_socket client_addr request
      ([Event (c_log_message "INFO" "New connection from %s:%d"
                 [VStr (inet_ntop (sin_addr client_addr));
                  VInt (ntohs (sin_port client_addr))]) tt;
        Event (c_recv client_socket (MAX_BUFFER_SIZE - 1)) offered;
        Event (c_log_message "DEBUG" "Received request:\n%s" [VStr raw]) tt]
       ++ heap ++
       [(if String.prefix "/api/" (path request')
         then Event (c_handle_api_request client_socket request') tt
         else Event (c_serve_static_file client_socket (path request')) tt);
        Event (c_close client_socket) tt]).

(** The runs of one pass through the loop of [main], from the variables
    [g]: the calls it makes and how it ends. *)
Inductive iteration_run (g : globals) (request : http_request_t)
  : list event -> loop_flow -> Prop :=
| iteration_stopped :
    server_running g = 0 ->
    iteration_run g request [] leave_loop
| iteration_interrupted (client_socket errno : Z) (client_addr : sockaddr_in) :
    server_running g <> 0 ->
    client_socket < 0 ->
    errno = EINTR ->
    iteration_run g request
      [Event (c_accept (server_socket g)) (client_socket, errno, client_addr)]
      next_iteration
| iteration_accept_failed (client_socket errno : Z) (client_addr : sockaddr_in) :
    server_running g <> 0 ->
    client_socket < 0 ->
    errno <> EINTR ->
    iteration_run g request
      [Event (c_accept (server_socket g)) (client_socket, errno, client_addr);
       Event (c_perror "accept failed") tt]
      leave_loop
| iteration_served (client_socket errno : Z) (client_addr : sockaddr_in)
    (evs : list event) :
    server_running g <> 0 ->
    0 <= client_socket ->
    handler_run client_socket client_addr request evs ->
    iteration_run g request
      (Event (c_accept (server_socket g)) (client_socket, errno, client_addr)
         :: evs)
      next_iteration.

(** No condition on how the process ends. *)
Definition any_exit : Z -> list event -> globals -> Prop := fun _ _ _ => True.

(** The function body does not end the process. *)
Definition no_exit : Z -> list event -> globals -> Prop := fun _ _ _ => False.

Definition is_accept (e : event) : bool :=
  match e with
  | Event (c_accept _) _ => true
  | _ => false
  end.

(** What holds at every point of a run of the server. *)
Definition server_inv (tr : list event) (g : globals) : Prop :=
  (List.length (active_connections tr) <= 1)%nat /\
  clients g = clients initial_globals /\
  client_count g = 0.

(** What holds between two passes through the loop. *)
Definition idle (tr : list event) (g : globals) : Prop :=
  active_connections tr = [] /\
  clients g = clients initial_globals /\
  client_count g = 0.

(** What holds of a state of the process, by where it is. *)
Definition control_inv (tr : list event) (g : globals) (c : control) : Prop :=
  match c with
  | in_setup p => wp server_inv (fun _ => idle) any_exit tr g p
  | in_loop p => wp server_inv (fun _ => idle) any_exit tr g p
  | in_exit p => wp server_inv (fun _ _ _ => True) any_exit tr g p
  | in_signal_handler p _ =>
      wp server_inv (fun _ _ _ => False) any_exit tr g p
  | halted _ => server_inv tr g
  | crashed _ => False
  end.

Definition config_inv (c : config) : Prop :=
  control_inv (trace c) (vars c) (ctl c).

(** One step of a function body, with the answer of the outside world to
    the call it makes taken from [o]. *)
Definition pstep_fn {A : Type} (o : oracle) (tr : list event) (g : globals)
    (p : prog A) : option (list event * globals * prog A) :=
  match p with
  | Call c k =>
      let x := o (List.length tr) _ c in
      Some ([Event c x], g, k x)
  | ReadVars k => Some ([], g, k g)
  | WriteVars f k => Some ([], f g, k)
  | _ => None
  end.

(** Where a control state whose function body is done goes on.
    [garbage] is what the handler will find in its local variable. *)
Definition finish_fn (garbage : http_request_t) (c : control) : control :=
  match c with
  | in_setup (Ret (Some status)) => halted status
  | in_setup (Ret None) => in_loop (loop_iteration garbage)
  | in_loop (Ret next_iteration) => in_loop (loop_iteration garbage)
  | in_loop (Ret leave_loop) => in_exit main_exit
  | in_exit (Ret status) => halted status
  | in_signal_handler (Ret _) interrupted => interrupted
  | in_setup (Exit status) | in_loop (Exit status) | in_exit (Exit status)
  | in_signal_handler (Exit status) _ => halted status
  | in_setup (Crash f) | in_loop (Crash f) | in_exit (Crash f)
  | in_signal_handler (Crash f) _ => crashed f
  | _ => c
  end.

Definition advance {A : Type} (o : oracle) (garbage : http_request_t)
    (wrap : prog A -> control) (p : prog A) (c : config) : config :=
  match pstep_fn o (trace c) (vars c) p with
  | Some (evs, g', p') =>
      {| vars := g'; ctl := wrap p'; trace := trace c ++ evs |}
  | None =>
      {| vars := vars c; ctl := finish_fn garbage (ctl c); trace := trace c |}
  end.

(** One step of the process: the delivery of [signal] if there is one,
    else the next step of the function body that is running. *)
Definition step_fn (o : oracle) (garbage : http_request_t)
    (signal : option Z) (c : config) : config :=
  match signal with
  | Some s =>
      if is_running (ctl c) && ((s =? SIGINT) || (s =? SIGTERM))
      then {| vars := vars c;
              ctl := in_signal_handler (cleanup_and_exit s) (ctl c);
              trace := trace c |}
      else c
  | None =>
      match ctl c with
      | in_setup p => advance o garbage in_setup p c
      | in_loop p => advance o garbage in_loop p c
      | in_exit p => advance o garbage in_exit p c
      | in_signal_handler p interrupted =>
          advance o garbage (fun p' => in_signal_handler p' interrupted) p c
      | halted _ | crashed _ => c
      end
  end.

(** The process after the steps of a schedule: for each step, the signal
    that arrives then, or none. *)
Definition run (o : oracle) (garbage : http_request_t)
    (schedule : list (option Z)) (c : config) : config :=
  fold_left (fun c signal => step_fn o garbage signal c) schedule c.

(** What [malloc] answered, for a call of it. *)
Definition malloc_answer (e : event) : option bool :=
  match e with
  | Event (c_malloc _) ok => Some ok
  | _ => None
  end.

(** Is the call a [close] of [fd]? *)
Definition closes (fd : Z) (e : event) : bool :=
  match e with
  | Event (c_close fd') _ => fd' =? fd
  | _ => false
  end.

(** The requests handed to [handle_api_request] and the paths handed to
    [serve_static_file], with the socket they were handed with. *)
Definition api_request_of (e : event) : option (Z * http_request_t) :=
  match e with
  | Event (c_handle_api_request fd r) _ => Some (fd, r)
  | _ => None
  end.

Definition static_path_of (e : event) : option (Z * string) :=
  match e with
  | Event (c_serve_static_file fd p) _ => Some (fd, p)
  | _ => None
  end.

(** *** White-space separated fields *)

Definition cons_nonempty (f : string) (fs : list string) : list string :=
  match f with
  | ""%string => fs
  | _ => f :: fs
  end.

(** The field that starts at the head of [s], empty when [s] starts with
    white space or is empty, and the fields after it. *)
Fixpoint split_fields (s : string) : string * list string :=
  match s with
  | ""%string => (""%string, [])
  | String c s' =>
      let '(f, fs) := split_fields s' in
      if isspace c then (""%string, cons_nonempty f fs) else (String c f, fs)
  end.

(** The maximal runs of characters of [s] that are not white space. *)
Definition fields (s : string) : list string :=
  let '(f, fs) := split_fields s in cons_nonempty f fs.

(** *** Sample inputs *)

Definition sample_request : string :=
  ("GET /api/users HTTP/1.1" ++ CRLF ++ "Host: a" ++ CRLF ++ CRLF)%string.

Definition localhost : sockaddr_in :=
  {| sin_addr := (127, 0, 0, 1); sin_port := 80 |}.

(** A world in which every call succeeds and every client sends
    [sample_request] on descriptor 4. *)
Definition sample_world : oracle := fun n X c =>
  match c in call X return X with
  | c_socket => 3
  | c_setsockopt _ => 0
  | c_bind _ _ => 0
  | c_listen _ _ => 0
  | c_accept _ => (4, 0, localhost)
  | c_recv _ _ => Some (list_ascii_of_string sample_request)
  | c_malloc _ => true
  | c_close _ | c_free | c_signal _ | c_perror _ | c_printf _ _
  | c_fprintf_stderr _ _ | c_log_message _ _ _ | c_serve_static_file _ _
  | c_handle_api_request _ _ => tt
  end.

(** The same world with a heap that is used up. *)
Definition out_of_memory_world : oracle := fun n X c =>
  match c in call X return X with
  | c_malloc _ => false
  | c => sample_world n _ c
  end.

Definition blank_request : http_request_t :=
  {| method := ""; path := ""; version := ""; headers := ""; body := "" |}.

(** The states of a run of the sample world without signals. *)
Definition sample_run (steps : nat) : config :=
  run sample_world blank_request (replicate steps None) (initial_config None).

(** The value [parse_http_request] returns, as the specification words
    it: failure exactly for a NULL argument, a request without a first
    line, or a first line with fewer than three white-space separated
    fields. *)
Definition parse_result_as_stated : Prop :=
  forall (o : oracle) (n : nat) (g : globals)
         (raw_request : option string) (request : option http_request_t),
  exists evs rc request',
    exec o n g (parse_http_request raw_request request)
      = (evs, g, Returned (rc, request')) /\
    (rc = -1 <->
     raw_request = None \/ request = None \/
     exists raw, raw_request = Some raw /\
       (first_line raw = None \/
        exists line, first_line raw = Some line /\
                     (List.length (fields line) < 3)%nat)).

Definition long_method_request : string := "ABCDEFGHIJKLMNOPQRSTUVWXYZ 1".

Definition blank_response : http_response_t :=
  {| status_code := 0; status_message := ""; response_headers := "";
     response_body := ""; content_length := 0 |}.

(** A content type of a thousand characters. *)
Definition long_content_type : string :=
  string_of_list_ascii (replicate 1000 "a"%char).

(** A body of [MAX_BUFFER_SIZE] characters. *)
Definition long_body : string :=
  string_of_list_ascii (replicate 1024 "b"%char).

(** The headers [build_http_response] stores, as the specification words
    them: the whole text of the format, whatever the arguments. *)
Definition response_headers_as_stated : Prop :=
  forall (response : http_response_t) (status_code : Z)
         (content_type : option string) (body : string),
  exists r,
    build_http_response (Some response) status_code content_type (Some body)
      = Ok r /\
    response_headers r =
      response_header_text status_code (status_message_of status_code)
        (default ""%string content_type) (strlen body).

(** *** Descriptions of calls, tokens and request lines *)

(** The descriptor a call closes, for a call of [close]. *)
Definition closed_descriptor (e : event) : option Z :=
  match e with
  | Event (c_close fd) _ => Some fd
  | _ => None
  end.

(** The message of a call of [perror]. *)
Definition perror_message (e : event) : option string :=
  match e with
  | Event (c_perror s) _ => Some s
  | _ => None
  end.


(** The buffers handed to [send], with the lengths, and the log lines
    written, in order. *)
Definition sent_texts (out : list transmission) : list (string * Z) :=
  omap (fun t => match t with
                 | Sent _ buf len _ => Some (buf, len)
                 | Logged _ _ _ => None
                 end) out.

Definition logged_lines (out : list transmission) : list (string * string) :=
  omap (fun t => match t with
                 | Sent _ _ _ _ => None
                 | Logged level format _ => Some (level, format)
                 end) out.

(** The maximal runs of characters of [s] that are not in [delim], in
    order: the token that starts at the head of [s], empty when [s] starts
    with a delimiter or is empty, and the tokens after it. *)
Fixpoint split_tokens (delim s : string) : string * list string :=
  match s with
  | ""%string => (""%string, [])
  | String c s' =>
      let '(t, ts) := split_tokens delim s' in
      if strchr delim c then (""%string, cons_nonempty t ts)
      else (String c t, ts)
  end.

Definition tokens (delim s : string) : list string :=
  let '(t, ts) := split_tokens delim s in cons_nonempty t ts.

(** The lines, each followed by a line feed. *)
Fixpoint join_lines (lines : list string) : string :=
  match lines with
  | [] => ""%string
  | l :: lines' => (l ++ String LF (join_lines lines'))%string
  end.

(** What one pass of the loop of the parser makes of the headers [h] with
    the line [line]. *)
Definition append_header (h line : string) : string :=
  if strlen h + strlen line + 2 <? MAX_BUFFER_SIZE
  then ((h ++ line) ++ String LF "")%string
  else h.

(** The struct after [sscanf] has stored the fields [fs] it assigned. *)
Definition with_request_line (fs : list string) (request : http_request_t)
  : http_request_t :=
  {| method := default (method request) (fs !! 0%nat);
     path := default (path request) (fs !! 1%nat);
     version := default (version request) (fs !! 2%nat);
     headers := headers request;
     body := body request |}.

(** Every character of [s] satisfies [P]. *)
Fixpoint string_forall (P : ascii -> bool) (s : string) : bool :=
  match s with
  | ""%string => true
  | String c s' => P c && string_forall P s'
  end.

(** No character of [s] is white space. *)
Definition no_space (s : string) : bool :=
  string_forall (fun c => negb (isspace c)) s.

(** A text that a conversion [%<width>s] reads back whole: not empty, at
    most [width] characters, no white space. *)
Definition is_field (width : nat) (s : string) : bool :=
  (0 <? String.length s)%nat && (String.length s <=? width)%nat && no_space s.

(** A request line: the three fields with one space between them. *)
Definition request_line (method path version : string) : string :=
  (method ++ " " ++ path ++ " " ++ version)%string.

(** What follows a line: nothing, or text that starts with CR or LF. *)
Definition ends_line (tail : string) : bool :=
  match tail with
  | ""%string => true
  | String d _ => strchr CRLF d
  end.

(** *** The exit status of the process *)





(** *** What the handler receives *)

(** The text before the first NUL byte of [bytes]. *)
Fixpoint up_to_nul (bytes : list ascii) : string :=
  match bytes with
  | [] => ""%string
  | c :: bytes' => if Ascii.eqb c NUL then ""%string else String c (up_to_nul bytes')
  end.

(** Calls of [recv]. *)
Definition is_recv (e : event) : bool :=
  match e with
  | Event (c_recv _ _) _ => true
  | _ => false
  end.

(** *** The socket [accept] is called on *)

(** What [socket] returned, for a call of it, and the descriptor [accept]
    was called on, for a call of it. *)
Definition socket_answer (e : event) : option Z :=
  match e with
  | Event c_socket fd => Some fd
  | _ => None
  end.

Definition accept_descriptor (e : event) : option Z :=
  match e with
  | Event (c_accept fd) _ => Some fd
  | _ => None
  end.

(** The descriptor the first call of [socket] of a trace returned. *)
Definition socket_of (tr : list event) : option Z :=
  head (omap socket_answer tr).

(** Every [accept] of the trace was called on the descriptor that the
    first [socket] returned, and that descriptor is not negative. *)
Definition accepts_on_socket (tr : list event) (g : globals) : Prop :=
  Forall (fun fd => socket_of tr = Some fd /\ 0 <= fd)
    (omap accept_descriptor tr).

(** [server_socket] holds that descriptor. *)
Definition listening (tr : list event) (g : globals) : Prop :=
  accepts_on_socket tr g /\
  socket_of tr = Some (server_socket g) /\ 0 <= server_socket g.

(** What holds of a state of the process, by where it is. *)
Definition accept_inv (tr : list event) (g : globals) (c : control) : Prop :=
  match c with
  | in_setup p =>
      wp accepts_on_socket (fun r tr' g' => r = None -> listening tr' g')
        any_exit tr g p
  | in_loop p => wp listening (fun _ => listening) any_exit tr g p
  | in_exit p => wp accepts_on_socket (fun _ _ _ => True) any_exit tr g p
  | in_signal_handler p _ =>
      wp accepts_on_socket (fun _ _ _ => False) any_exit tr g p
  | halted _ => accepts_on_socket tr g
  | crashed _ => False
  end.

(** *** More sample inputs *)

(** A request with a body, and a request line that is too short. *)
Definition sample_post : string :=
  ("POST /api/users HTTP/1.1" ++ CRLF ++ "Host: a" ++ CRLF ++ CRLF ++ "name=b")%string.

Definition sample_post_parsed : http_request_t :=
  {| method := "POST"; path := "/api/users"; version := "HTTP/1.1";
     headers := join_lines ["Host: a"; "name=b"]%string; body := "" |}.

Definition short_request : string := "GET /".

(** What [sample_request] is parsed to. *)
Definition sample_parsed : http_request_t :=
  {| method := "GET"; path := "/api/users"; version := "HTTP/1.1";
     headers := join_lines ["Host: a"%string]; body := "" |}.

(** A response as [build_http_response] fills it. *)
Definition sample_response : http_response_t :=
  {| status_code := 200;
     status_message := "OK";
     response_headers :=
       response_header_text 200 "OK" CONTENT_TYPE_JSON 2;
     response_body := "{}";
     content_length := 2 |}.

End ExampleC.

(** ** [example.cpp]: [SmartArray] and [AsyncUserService] *)

Module ExampleCpp.

(** [size_t] is 64 bits wide; its arithmetic wraps. *)
Definition SIZE_MAX : Z := 2 ^ 64 - 1.
Definition wrap (z : Z) : Z := z mod 2 ^ 64.

(** The largest object the implementation supports. *)
Definition PTRDIFF_MAX : Z := 2 ^ 63 - 1.

Section SmartArray.
Context {T : Type}.

(** [T{}], the value of a value-initialised element. *)
Variable T_default : T.

(** The length of the longest array the allocator provides: a longer
    request makes [std::make_unique<T[]>] throw [std::bad_alloc]. *)
Variable max_alloc : Z.

(** [data_] is the array behind the [unique_ptr], at its allocated
    length. *)
Record SmartArray : Type := {
  data_ : list T;
  size_ : Z;
  capacity_ : Z
}.

Definition make_unique (n : Z) : result (list T) :=
  if n <=? max_alloc then Ok (replicate (Z.to_nat n) T_default)
  else Throw bad_alloc.

(** [array[index]] read, inside the array or a fault. *)
Definition array_get (array : list T) (index : Z) : result T :=
  if (0 <=? index) && (index <? Z.of_nat (List.length array))
  then from_option Ok (Fault BufferOverflow) (array !! Z.to_nat index)
  else Fault BufferOverflow.

(** [array[index] = v], inside the array or a fault. *)
Definition array_put (array : list T) (index : Z) (v : T) : result (list T) :=
  if (0 <=? index) && (index <? Z.of_nat (List.length array))
  then Ok (<[Z.to_nat index := v]> array)
  else Fault BufferOverflow.

(** [explicit SmartArray(size_t initial_capacity = 10)] *)
Definition new (initial_capacity : Z) : result SmartArray :=
  d ← make_unique initial_capacity;
  Ok {| data_ := d; size_ := 0; capacity_ := initial_capacity |}.

(** The [for] loop of [resize], with [remaining] passes to go:
    [new_data[i] = std::move(data_[i])]. *)
Fixpoint move_elements (remaining : nat) (i : Z) (data new_data : list T)
  : result (list T) :=
  match remaining with
  | O => Ok new_data
  | S remaining' =>
      v ← array_get data i;
      new_data ← array_put new_data i v;
      move_elements remaining' (wrap (i + 1)) data new_data
  end.

Definition resize (new_capacity : Z) (a : SmartArray) : result SmartArray :=
  new_data ← make_unique new_capacity;
  new_data ← move_elements (Z.to_nat (size_ a)) 0 (data_ a) new_data;
  Ok {| data_ := new_data; size_ := size_ a; capacity_ := new_capacity |}.

Definition push_back (item : T) (a : SmartArray) : result SmartArray :=
  a ← (if size_ a >=? capacity_ a
       then resize (wrap (capacity_ a * 2)) a
       else Ok a);
  d ← array_put (data_ a) (size_ a) item;
  Ok {| data_ := d; size_ := wrap (size_ a + 1); capacity_ := capacity_ a |}.

(** [T& operator[](size_t index)]: the element the reference denotes and
    the array after the call. *)
Definition subscript (index : Z) (a : SmartArray) : result (T * SmartArray) :=
  if index >=? size_ a then Throw (out_of_range "Index out of range")
  else
    v ← array_get (data_ a) index;
    Ok (v, a).

(** [const T& operator[](size_t index) const] *)
Definition subscript_const (index : Z) (a : SmartArray) : result T :=
  if index >=? size_ a then Throw (out_of_range "Index out of range")
  else array_get (data_ a) index.

Definition size (a : SmartArray) : Z := size_ a.

Definition empty (a : SmartArray) : bool := size a =? 0.

(** [push_back] for each value in turn. *)
Fixpoint push_back_all (items : list T) (a : SmartArray) : result SmartArray :=
  match items with
  | [] => Ok a
  | item :: items' => a ← push_back item a; push_back_all items' a
  end.

(** The class invariant: [size_] elements are stored in an array of
    [capacity_] cells, which the allocator provided. *)
Definition well_formed (a : SmartArray) : Prop :=
  0 <= size_ a <= capacity_ a /\
  Z.of_nat (List.length (data_ a)) = capacity_ a /\
  capacity_ a <= max_alloc.

(** The stored elements, in order. *)
Definition elements (a : SmartArray) : list T :=
  take (Z.to_nat (size_ a)) (data_ a).

(** The arrays that grow from a fresh one of capacity [c]. *)
Definition grown_from (c : Z) (a : SmartArray) : Prop :=
well_formed a /\ 1 <= capacity_ a /\
capacity_ a <= Z.max c (2 * size_ a).

End SmartArray.

Arguments SmartArray T : clear implicits.

(** *** [StrongType], [User] and [AsyncUserService] *)

Record StrongType (T Tag : Type) : Type := { value_ : T }.
Arguments value_ {T Tag} s.

Definition get {T Tag : Type} (s : StrongType T Tag) : T := value_ s.

Inductive UserIdTag : Set := .
Inductive UserNameTag : Set := .

(** [uint64_t] as [N]; only its equality is used. *)
Definition UserId : Type := StrongType N UserIdTag.
Definition UserName : Type := StrongType string UserNameTag.

Record User : Type := {
  id_ : UserId;
  name_ : UserName;
  email_ : string;
  is_active_ : bool;
  created_at_ : Z
}.

Definition id (u : User) : UserId := id_ u.
Definition name (u : User) : UserName := name_ u.
Definition email (u : User) : string := email_ u.
Definition is_active (u : User) : bool := is_active_ u.

(** [std::find_if]: the position of the first element that satisfies
    [pred], or the length of the list for the end iterator. *)
Fixpoint find_if {A : Type} (pred : A -> bool) (l : list A) : nat :=
  match l with
  | [] => O
  | x :: l' => if pred x then O else S (find_if pred l')
  end.

(** [std::any_of] *)
Fixpoint any_of {A : Type} (pred : A -> bool) (l : list A) : bool :=
  match l with
  | [] => false
  | x :: l' => if pred x then true else any_of pred l'
  end.

Record AsyncUserService : Type := { users_ : list User }.

(** The value of the future and the service afterwards. The lambda runs
    under the lock of [users_mutex_], as one step. *)
Definition find_user_async (id0 : UserId) (s : AsyncUserService)
  : option User * AsyncUserService :=
  let it := find_if (fun user => N.eqb (get (id user)) (get id0)) (users_ s) in
  if negb (Nat.eqb it (List.length (users_ s)))
  then (users_ s !! it, s)
  else (None, s).

Definition add_user_async (user : User) (s : AsyncUserService)
  : bool * AsyncUserService :=
  let exists_ :=
    any_of (fun existing => N.eqb (get (id existing)) (get (id user))) (users_ s) in
  if negb exists_
  then (true, {| users_ := (users_ s ++ [user])%list |})
  else (false, s).

(** The user has the id [id0]. *)
Definition has_id (id0 : UserId) (user : User) : Prop :=
  get (id user) = get id0.

Local Open Scope list_scope.

(** *** [SmartArray]: moves and iteration *)

Section SmartArrayMoves.
Context {T : Type}.

(** What a move leaves behind: [data_] is null, the size and the
    capacity are zero. A null [data_] has no cell. *)
Definition moved_from : SmartArray T :=
  {| data_ := []; size_ := 0; capacity_ := 0 |}.

(** [SmartArray(SmartArray&& other) noexcept]: the array constructed and
    [other] afterwards. *)
Definition move_construct (other : SmartArray T) : SmartArray T * SmartArray T :=
  ({| data_ := data_ other; size_ := size_ other; capacity_ := capacity_ other |},
   moved_from).

(** [SmartArray& operator=(SmartArray&& other) noexcept]. The two
    references are addresses in a store of arrays, and they may be the
    same address: the body tests [this != &other]. A reference denotes an
    object; with no object at [other] the store is left as it is. *)
Definition move_assign (this other : nat) (store : list (SmartArray T))
  : list (SmartArray T) :=
  if negb (Nat.eqb this other) then
    match store !! other with
    | Some o =>
        <[other := moved_from]>
          (<[this := {| data_ := data_ o; size_ := size_ o;
                        capacity_ := capacity_ o |}]> store)
    | None => store
    end
  else store.

(** [iterator]: a pointer into the array of [data_], held as the index of
    the cell it points to. *)
Record iterator : Type := { ptr_ : Z }.

Definition begin (a : SmartArray T) : iterator := {| ptr_ := 0 |}.
Definition end_ (a : SmartArray T) : iterator := {| ptr_ := size_ a |}.

(** [operator*], on an iterator into [a]. *)
Definition deref (it : iterator) (a : SmartArray T) : result T :=
  array_get (data_ a) (ptr_ it).

(** [operator++()] and [operator++(int)]: the iterator afterwards and the
    value of the expression. *)
Definition pre_increment (it : iterator) : iterator * iterator :=
  ({| ptr_ := ptr_ it + 1 |}, {| ptr_ := ptr_ it + 1 |}).

Definition post_increment (it : iterator) : iterator * iterator :=
  ({| ptr_ := ptr_ it + 1 |}, it).

Definition iterator_eq (it other : iterator) : bool := ptr_ it =? ptr_ other.

Definition iterator_ne (it other : iterator) : bool :=
  negb (ptr_ it =? ptr_ other).

(** The range-based [for] over [a], collecting what it visits, from the
    iterator [it] on: the loop over [it != last], [*it] and [++it]. One
    unit of fuel is one test of the loop. *)
Fixpoint range_for (fuel : nat) (it last : iterator) (a : SmartArray T)
    (visited : list T) : result (list T) :=
  match fuel with
  | O => Fault OutOfFuel
  | S fuel' =>
      if iterator_ne it last then
        x ← deref it a;
        range_for fuel' (pre_increment it).1 last a (visited ++ [x])
      else Ok visited
  end.

End SmartArrayMoves.

Arguments iterator : clear implicits.

(** *** [sum] *)

Section Sum.
Context {T : Type}.

(** [operator+] of [T]. *)
Variable plus : T -> T -> T.

(** The two overloads of [sum], for arguments that are all of type [T]:
    [sum(t)] is [t], and [sum(t, args...)] is [t + sum(args...)]. *)
Fixpoint sum (t : T) (args : list T) : T :=
  match args with
  | [] => t
  | t' :: args' => plus t (sum t' args')
  end.

End Sum.

(** *** [AsyncUserService]: sequences of calls *)

(** [for_each_user]: [func] is called on each stored user in turn, under
    the shared lock; [St] is the state the callable works on. *)
Definition for_each_user {St : Type} (func : User -> St -> St)
    (s : AsyncUserService) (st : St) : St :=
  fold_left (fun st user => func user st) (users_ s) st.

(** [add_user_async] for each user in turn, each future waited for: the
    values of the futures and the service afterwards. *)
Fixpoint add_users (users : list User) (s : AsyncUserService)
  : list bool * AsyncUserService :=
  match users with
  | [] => ([], s)
  | user :: users' =>
      let '(added, s) := add_user_async user s in
      let '(results, s) := add_users users' s in
      (added :: results, s)
  end.

(** The ids of the stored users, in the order of [users_]. *)
Definition ids (s : AsyncUserService) : list N :=
  map (fun user => get (id user)) (users_ s).

(** Whether [user] has the id [id0], as the two lambdas test it. *)
Definition same_id (id0 : UserId) (user : User) : bool :=
  N.eqb (get (id user)) (get id0).

(** The users of a list whose id is not in [seen] and occurs in no user
    before them in the list. *)
Fixpoint first_by_id (seen : list N) (users : list User) : list User :=
  match users with
  | [] => []
  | user :: users' =>
      if existsb (N.eqb (get (id user))) seen
      then first_by_id seen users'
      else user :: first_by_id (seen ++ [get (id user)]) users'
  end.

(** *** [FileResource] *)

Section FileResource.

(** A [std::string] that has been moved from is left in a valid state
    that the language does not name. *)
Variable moved_string : string -> string.









End FileResource.

(** *** Sample input *)

Definition squares : list Z := [1; 4; 9; 16; 25].

(** The array [SmartArray<int>(4)] is after [push_back] of [squares]. *)
Definition squares_array : SmartArray Z :=
  {| data_ := [1; 4; 9; 16; 25; 0; 0; 0]; size_ := 5; capacity_ := 8 |}.

Definition zhangsan : User :=
  {| id_ := {| value_ := 1001%N |};
     name_ := {| value_ := "zhangsan" |};
     email_ := "zhangsan@example.com";
     is_active_ := true;
     created_at_ := 0 |}.

Definition lisi : User :=
  {| id_ := {| value_ := 1002%N |};
     name_ := {| value_ := "lisi" |};
     email_ := "lisi@example.com";
     is_active_ := true;
     created_at_ := 0 |}.

End ExampleCpp.

(** * Properties of [example.c] *)

Import libc ExampleC.

(** ** Strings and tokens *)

Lemma strlen_nonneg (s : string) : 0 <= strlen s.
Proof. unfold strlen. lia. Qed.

Lemma string_length_app (a b : string) :
  String.length (a ++ b) = (String.length a + String.length b)%nat.
Proof. induction a as [|c a IH]; simpl; [reflexivity | now rewrite IH]. Qed.

Lemma strlen_app (a b : string) : strlen (a ++ b) = strlen a + strlen b.
Proof. unfold strlen. rewrite string_length_app. lia. Qed.

Lemma skip_delim_length (delim s : string) :
  (String.length (skip_delim delim s) <= String.length s)%nat.
Proof.
  induction s as [|c s IH]; simpl; [lia|].
  destruct (strchr delim c); simpl; lia.
Qed.

Lemma split_token_length (delim s tok rest : string) :
  split_token delim s = (tok, rest) ->
  (String.length tok + String.length rest <= String.length s)%nat.
Proof.
  revert tok rest. induction s as [|c s IH]; simpl; intros tok rest H.
  - injection H as <- <-. simpl. lia.
  - destruct (strchr delim c).
    + injection H as <- <-. simpl. lia.
    + destruct (split_token delim s) as [t r] eqn:E.
      injection H as <- <-. specialize (IH _ _ eq_refl). simpl. lia.
Qed.

Lemma skip_delim_head (delim s : string) (c : ascii) (s' : string) :
  skip_delim delim s = String c s' -> strchr delim c = false.
Proof.
  induction s as [|d s IH]; simpl; [discriminate|].
  destruct (strchr delim d) eqn:E; [exact IH|].
  intros H. injection H as <- <-. exact E.
Qed.

Lemma strtok_r_token (str : option string) (delim saveptr tok rest : string) :
  strtok_r str delim saveptr = (Some tok, rest) ->
  0 < strlen tok /\
  (String.length tok + String.length rest <=
     String.length (match str with Some s => s | None => saveptr end))%nat.
Proof.
  unfold strtok_r.
  set (s := match str with Some s => s | None => saveptr end).
  pose proof (skip_delim_length delim s) as Hlen.
  destruct (skip_delim delim s) as [|c s'] eqn:E; [discriminate|].
  apply skip_delim_head in E.
  simpl. rewrite E.
  destruct (split_token delim s') as [t r] eqn:Es.
  intros H. injection H as <- <-.
  apply split_token_length in Es. simpl in Hlen.
  unfold strlen. simpl. lia.
Qed.

(** ** The loop of the parser *)

Lemma store_string_ok (capacity : Z) (s : string) :
  strlen s < capacity -> store_string capacity s = Ok s.
Proof.
  intros H. unfold store_string.
  destruct (Z.ltb_spec (strlen s) capacity); [reflexivity | lia].
Qed.

Lemma parse_lines_within_capacity (fuel : nat) :
  forall (saveptr : string) (in_headers : bool) (request : http_request_t),
    (String.length saveptr < fuel)%nat ->
    within_capacity request ->
    exists request',
      parse_lines fuel saveptr in_headers request = Ok request' /\
      within_capacity request' /\
      method request' = method request /\
      path request' = path request /\
      version request' = version request.
Proof.
  induction fuel as [|fuel IH]; intros saveptr in_headers request Hfuel [Hh Hb];
    [lia|].
  simpl.
  destruct (strtok_r None CRLF saveptr) as [[line|] saveptr'] eqn:Etok.
  2: { exists request. repeat split; assumption. }
  apply strtok_r_token in Etok as [Hline Hlen].
  assert (Hfuel' : (String.length saveptr' < fuel)%nat) by (unfold strlen in Hline; lia).
  destruct (Z.eqb_spec (strlen line) 0) as [Hz|_]; [lia|].
  destruct in_headers.
  - destruct (Z.ltb_spec (strlen (headers request) + strlen line + 2) MAX_BUFFER_SIZE)
      as [Hfit|_].
    + unfold strcat.
      rewrite store_string_ok by (rewrite strlen_app; lia).
      simpl.
      rewrite store_string_ok
        by (rewrite !strlen_app; unfold strlen at 3; simpl; lia).
      simpl.
      destruct (IH saveptr' true (set_headers ((headers request ++ line) ++ String LF "") request))
        as (r' & Hr' & Hcap & Hm & Hp & Hv); [exact Hfuel'| |].
      * split; simpl; [|exact Hb].
        rewrite !strlen_app. unfold strlen at 3. simpl. lia.
      * exists r'. repeat split; try assumption; apply Hcap.
    + apply IH; [exact Hfuel' | split; assumption].
  - destruct (Z.ltb_spec (strlen (body request) + strlen line + 1) MAX_BUFFER_SIZE)
      as [Hfit|_].
    + unfold strcat.
      rewrite store_string_ok by (rewrite strlen_app; lia).
      simpl.
      destruct (IH saveptr' false (set_body (body request ++ line) request))
        as (r' & Hr' & Hcap & Hm & Hp & Hv); [exact Hfuel'| |].
      * split; simpl; [exact Hh|].
        rewrite strlen_app. lia.
      * exists r'. repeat split; try assumption; apply Hcap.
    + apply IH; [exact Hfuel' | split; assumption].
Qed.

(** ** [sscanf] on the request line *)

Lemma read_nonspace_length (width : nat) :
  forall s field rest,
    read_nonspace width s = (field, rest) ->
    (String.length field <= width)%nat.
Proof.
  induction width as [|w IH]; intros s field rest H; simpl in H.
  - injection H as <- <-. simpl. lia.
  - destruct s as [|c s]; [injection H as <- <-; simpl; lia|].
    destruct (isspace c); [injection H as <- <-; simpl; lia|].
    destruct (read_nonspace w s) as [f r] eqn:E.
    injection H as <- <-. apply IH in E. simpl. lia.
Qed.

Lemma scan_fields_widths (fmt : list directive) :
  forall (input : string) (i : nat) (field : string),
    scan_fields fmt input !! i = Some field ->
    exists w, widths fmt !! i = Some w /\ (String.length field <= w)%nat.
Proof.
  induction fmt as [|d fmt IH]; intros input i field H; simpl in H.
  - discriminate.
  - destruct d as [width|]; simpl.
    + destruct (skip_space input) as [|c s] eqn:Es; [discriminate|].
      destruct (read_nonspace width (String c s)) as [f r] eqn:E.
      destruct i as [|i]; simpl in H.
      * injection H as <-. exists width. split; [reflexivity|].
        eapply read_nonspace_length, E.
      * apply IH in H. exact H.
    + apply IH in H. exact H.
Qed.

Lemma scan_fields_length (fmt : list directive) (input : string) :
  (List.length (scan_fields fmt input) <= List.length (widths fmt))%nat.
Proof.
  revert input. induction fmt as [|d fmt IH]; intros input; simpl; [lia|].
  destruct d as [width|]; simpl; [|apply IH].
  destruct (skip_space input) as [|c s]; [simpl; lia|].
  destruct (read_nonspace width (String c s)) as [f r].
  simpl. specialize (IH r). lia.
Qed.

Lemma sscanf_assigned (input : string) (fmt : list directive) (k : nat) :
  (0 < k)%nat ->
  (sscanf input fmt).1 = Z.of_nat k <->
  List.length (scan_fields fmt input) = k.
Proof.
  intros Hk. unfold sscanf.
  destruct (scan_fields fmt input) as [|f fs] eqn:E; simpl.
  - destruct (existsb is_conversion fmt); unfold EOF; split; lia.
  - split; lia.
Qed.

Lemma sscanf_fields (input : string) (fmt : list directive) :
  (sscanf input fmt).2 = scan_fields fmt input.
Proof.
  unfold sscanf. destruct (scan_fields fmt input); reflexivity.
Qed.

Lemma store_request_line_scanned (line : string) (request : http_request_t) :
  let fields := scan_fields request_line_format line in
  exists request',
    store_request_line fields request = Ok request' /\
    method request' = default (method request) (fields !! 0%nat) /\
    path request' = default (path request) (fields !! 1%nat) /\
    version request' = default (version request) (fields !! 2%nat) /\
    headers request' = headers request /\
    body request' = body request /\
    (List.length fields = 3%nat ->
     strlen (method request') <= 15 /\
     strlen (path request') <= 255 /\
     strlen (version request') <= 15).
Proof.
  intros fields. unfold store_request_line.
  assert (H0 : forall f, fields !! 0%nat = Some f -> strlen f <= 15).
  { intros f H. apply scan_fields_widths in H as (w & Hw & Hle).
    injection Hw as <-. unfold strlen. lia. }
  assert (H1 : forall f, fields !! 1%nat = Some f -> strlen f <= 255).
  { intros f H. apply scan_fields_widths in H as (w & Hw & Hle).
    injection Hw as <-. unfold strlen. lia. }
  assert (H2 : forall f, fields !! 2%nat = Some f -> strlen f <= 15).
  { intros f H. apply scan_fields_widths in H as (w & Hw & Hle).
    injection Hw as <-. unfold strlen. lia. }
  assert (S0 : from_option (store_string 16) (Ok (method request)) (fields !! 0%nat)
               = Ok (default (method request) (fields !! 0%nat))).
  { destruct (fields !! 0%nat) as [f|]; simpl; [|reflexivity].
    apply store_string_ok. specialize (H0 f eq_refl). lia. }
  assert (S1 : from_option (store_string 256) (Ok (path request)) (fields !! 1%nat)
               = Ok (default (path request) (fields !! 1%nat))).
  { destruct (fields !! 1%nat) as [f|]; simpl; [|reflexivity].
    apply store_string_ok. specialize (H1 f eq_refl). lia. }
  assert (S2 : from_option (store_string 16) (Ok (version request)) (fields !! 2%nat)
               = Ok (default (version request) (fields !! 2%nat))).
  { destruct (fields !! 2%nat) as [f|]; simpl; [|reflexivity].
    apply store_string_ok. specialize (H2 f eq_refl). lia. }
  rewrite S0. simpl. rewrite S1. simpl. rewrite S2. simpl.
  eexists. split; [reflexivity|]. simpl.
  repeat split; try reflexivity.
  - destruct fields as [|f0 fs]; [discriminate|]. simpl. apply H0. reflexivity.
  - destruct fields as [|f0 [|f1 fs]]; try discriminate. simpl. apply H1. reflexivity.
  - destruct fields as [|f0 [|f1 [|f2 fs]]]; try discriminate. simpl. apply H2. reflexivity.
Qed.

Local Open Scope list_scope.

(** ** The program logic *)

Section ProgramLogic.
Context {A : Type}.
Implicit Types (I : list event -> globals -> Prop) (p : prog A).

Lemma wp_invariant I Q E tr g p : wp I Q E tr g p -> I tr g.
Proof. destruct p; simpl; tauto. Qed.

Lemma wp_mono I (Q Q' : A -> list event -> globals -> Prop) E p :
  forall tr g,
    (forall a tr' g', Q a tr' g' -> Q' a tr' g') ->
    wp I Q E tr g p -> wp I Q' E tr g p.
Proof.
  induction p as [a|f|status|X c k IH|k IH|f k IH]; intros tr g HQ; simpl.
  - intros [HI Ha]. auto.
  - tauto.
  - tauto.
  - intros [HI Hk]. split; [exact HI|]. intros x. apply IH; auto.
  - intros [HI Hk]. split; [exact HI|]. apply IH; auto.
  - intros [HI Hk]. split; [exact HI|]. apply IH; auto.
Qed.

Lemma wp_ret I Q E tr g (a : A) :
  I tr g -> Q a tr g -> wp I Q E tr g (mret a).
Proof. simpl. tauto. Qed.

Lemma wp_lift I Q E tr g (a : A) :
  I tr g -> Q a tr g -> wp I Q E tr g (lift (Ok a)).
Proof. simpl. tauto. Qed.

Lemma wp_perform I (Q : A -> list event -> globals -> Prop) E tr g
    (c : call A) :
  I tr g ->
  (forall x, I (tr ++ [Event c x]) g /\ Q x (tr ++ [Event c x]) g) ->
  wp I Q E tr g (perform c).
Proof. simpl. intros HI H. split; [exact HI|]. exact H. Qed.

(** Running a body that satisfies [wp]. *)
Lemma wp_exec I Q E p :
  forall tr g (o : oracle) (n : nat),
    wp I Q E tr g p ->
    match exec o n g p with
    | (evs, g', Returned a) => I (tr ++ evs) g' /\ Q a (tr ++ evs) g'
    | (evs, g', Faulted _) => False
    | (evs, g', Exited status) =>
        I (tr ++ evs) g' /\ E status (tr ++ evs) g'
    end.
Proof.
  induction p as [a|f|status|X c k IH|k IH|f k IH]; intros tr g o n; simpl.
  - rewrite app_nil_r. tauto.
  - tauto.
  - rewrite app_nil_r. tauto.
  - intros [HI Hk]. specialize (Hk (o n X c)).
    specialize (IH (o n X c) _ g o (S n) Hk).
    destruct (exec o (S n) g (k (o n X c))) as [[evs g'] r].
    rewrite <- app_assoc in IH. exact IH.
  - intros [HI Hk]. apply IH, Hk.
  - intros [HI Hk]. apply IH, Hk.
Qed.

(** One step of a body that satisfies [wp]. *)
Lemma wp_pstep I Q E p evs g g' p' tr :
  pstep g p evs g' p' -> wp I Q E tr g p -> wp I Q E (tr ++ evs) g' p'.
Proof.
  intros Hstep. destruct Hstep; simpl; intros [HI Hk].
  - apply Hk.
  - rewrite app_nil_r. exact Hk.
  - rewrite app_nil_r. exact Hk.
Qed.

End ProgramLogic.

Lemma wp_bind {A B : Type} (I : list event -> globals -> Prop)
    (Q : B -> list event -> globals -> Prop)
    (E : Z -> list event -> globals -> Prop)
    (p : prog A) (f : A -> prog B) :
  forall tr g,
    wp I (fun a tr' g' => wp I Q E tr' g' (f a)) E tr g p ->
    wp I Q E tr g (p ≫= f).
Proof.
  unfold mbind, prog_bind.
  induction p as [a|e|status|X c k IH|k IH|w k IH]; intros tr g; simpl.
  - tauto.
  - tauto.
  - tauto.
  - intros [HI Hk]. split; [exact HI|]. intros x. apply IH, Hk.
  - intros [HI Hk]. split; [exact HI|]. apply IH, Hk.
  - intros [HI Hk]. split; [exact HI|]. apply IH, Hk.
Qed.

(** ** The program logic at work on the server *)

Section ServerLogic.

#[local] Arguments sscanf : simpl never.
#[local] Arguments scan_fields : simpl never.
#[local] Arguments strtok_r : simpl never.
#[local] Arguments store_request_line : simpl never.
#[local] Arguments parse_lines : simpl never.

Lemma parse_run_heap raw request evs rc request' :
  parse_run raw request evs rc request' -> forallb heap_call evs = true.
Proof. destruct 1; reflexivity. Qed.

Lemma parse_http_request_wp I (Q : Z * option http_request_t -> _) E tr g
    (raw : string) (request : http_request_t) :
  (forall evs, forallb heap_call evs = true -> I (tr ++ evs) g) ->
  (forall evs rc request',
      parse_run raw request evs rc request' ->
      Q (rc, Some request') (tr ++ evs) g) ->
  wp I Q E tr g (parse_http_request (Some raw) (Some request)).
Proof.
  intros HI HQ.
  assert (HI0 : I tr g) by (rewrite <- (app_nil_r tr); apply HI; reflexivity).
  assert (HI1 : forall b, I (tr ++ [Event (c_malloc (strlen raw + 1)) b]) g)
    by (intros b; apply HI; reflexivity).
  assert (HI2 : forall u,
             I ((tr ++ [Event (c_malloc (strlen raw + 1)) true]) ++ [Event c_free u]) g)
    by (intros u; rewrite <- app_assoc; apply HI; reflexivity).
  assert (HQ2 : forall rc request' (u : unit),
             parse_run raw request
               [Event (c_malloc (strlen raw + 1)) true; Event c_free tt] rc request' ->
             Q (rc, Some request')
               ((tr ++ [Event (c_malloc (strlen raw + 1)) true]) ++ [Event c_free u]) g).
  { intros rc request' [] H. rewrite <- app_assoc. apply HQ, H. }
  unfold parse_http_request, strdup. simpl.
  split; [exact HI0|]. intros [|]; simpl.
  2: { split; [apply HI1|]. apply HQ. constructor. }
  pose proof (eq_refl : first_line raw = (strtok_r (Some raw) CRLF "").1) as Hfirst.
  destruct (strtok_r (Some raw) CRLF "") as [[line|] saveptr] eqn:Etok; simpl in *.
  2: { split; [apply HI1|]. intros u. split; [apply HI2|].
       apply HQ2. constructor. exact Hfirst. }
  pose proof (sscanf_fields line request_line_format) as Hfields.
  pose proof (sscanf_assigned line request_line_format 3 ltac:(lia)) as Hassigned.
  destruct (sscanf line request_line_format) as [assigned fields] eqn:Escan.
  cbn [fst snd] in Hfields, Hassigned. subst fields.
  destruct (store_request_line_scanned line request)
    as (r1 & Hstore & Hm & Hp & Hv & Hh & Hb & Hlen).
  rewrite Hstore. simpl.
  destruct (Z.eqb_spec assigned 3) as [H3|H3]; simpl.
  2: { split; [apply HI1|]. intros u. split; [apply HI2|].
       apply HQ2. apply parse_bad_line with (line := line); [exact Hfirst|].
       rewrite Escan. exact H3. }
  destruct (parse_lines_within_capacity (S (String.length saveptr)) saveptr true
              (set_body "" (set_headers "" r1)))
    as (r2 & Hloop & [Hcap_h Hcap_b] & Hm2 & Hp2 & Hv2);
    [lia | split; simpl; unfold strlen, MAX_BUFFER_SIZE; simpl; lia |].
  rewrite Hloop. simpl.
  split; [apply HI1|]. intros u. split; [apply HI2|].
  apply HQ2.
  simpl in Hm2, Hp2, Hv2.
  apply Hassigned in H3 as Hlen3. specialize (Hlen Hlen3).
  apply parse_ok with (line := line); rewrite ?Escan; cbn [fst snd];
    rewrite ?Hm2, ?Hp2, ?Hv2; try tauto.
  rewrite Hm, Hp, Hv.
  destruct (scan_fields request_line_format line) as [|f0 [|f1 [|f2 [|f3 fs]]]];
    try discriminate. reflexivity.
Qed.

(** ** The receive buffer *)

Lemma zeroed_length (n : Z) : List.length (zeroed n) = Z.to_nat n.
Proof. unfold zeroed. apply length_replicate. Qed.

Lemma c_str_terminated (buffer : list ascii) :
  forall i : nat,
    buffer !! i = Some NUL ->
    exists s, c_str buffer = Ok s /\ (String.length s <= i)%nat.
Proof.
  induction buffer as [|c buffer IH]; intros i Hi; [discriminate|].
  simpl. destruct (Ascii.eqb_spec c NUL) as [->|Hc].
  - exists ""%string. split; [reflexivity | simpl; lia].
  - destruct i as [|i]; simpl in Hi; [congruence|].
    destruct (IH i Hi) as (s & Hs & Hlen).
    rewrite Hs. simpl. exists (String c s). split; [reflexivity | simpl; lia].
Qed.

Lemma recv_result_count (offered : option (list ascii)) (buffer : list ascii)
    (len : Z) :
  0 <= len ->
  Z.of_nat (List.length buffer) >= len ->
  (recv_result offered buffer len).1 <= len /\
  List.length (recv_result offered buffer len).2 = List.length buffer.
Proof.
  intros Hlen Hbuf. destruct offered as [bytes|]; simpl; [|lia].
  rewrite length_app, length_drop, length_take. lia.
Qed.

(** The two ways the receive step of the handler goes on. *)
Lemma received_request_cases (offered : option (list ascii)) :
  let r := recv_result offered (zeroed MAX_BUFFER_SIZE) (MAX_BUFFER_SIZE - 1) in
  (r.1 <= 0 /\ received_request offered = None) \/
  (0 < r.1 < MAX_BUFFER_SIZE /\
   exists buffer' raw,
     array_set r.2 r.1 NUL = Ok buffer' /\
     c_str buffer' = Ok raw /\
     strlen raw <= r.1 /\
     received_request offered = Some raw).
Proof.
  intros r.
  assert (Hz : List.length (zeroed MAX_BUFFER_SIZE) = 1024%nat)
    by (rewrite zeroed_length; reflexivity).
  destruct (recv_result_count offered (zeroed MAX_BUFFER_SIZE) (MAX_BUFFER_SIZE - 1))
    as [Hcount Hlength]; [unfold MAX_BUFFER_SIZE; lia | rewrite Hz; unfold MAX_BUFFER_SIZE; lia |].
  fold r in Hcount, Hlength. rewrite Hz in Hlength.
  unfold received_request. fold r.
  destruct r as [n buffer] eqn:Er. cbn [fst snd] in *.
  destruct (Z.leb_spec n 0) as [Hn|Hn]; [left; split; [lia | reflexivity]|].
  right. unfold MAX_BUFFER_SIZE in *. split; [lia|].
  unfold array_set. rewrite Hlength.
  destruct (Z.leb_spec 0 n); [|lia].
  destruct (Z.ltb_spec n (Z.of_nat 1024)); [|lia].
  cbn [andb].
  destruct (c_str_terminated (<[Z.to_nat n := NUL]> buffer) (Z.to_nat n))
    as (raw & Hraw & Hlen).
  { apply list_lookup_insert_eq. lia. }
  exists (<[Z.to_nat n := NUL]> buffer), raw.
  split; [reflexivity|]. split; [exact Hraw|].
  split; [unfold strlen; lia|].
  cbn [mbind result_bind]. rewrite Hraw. reflexivity.
Qed.

(** ** Routing by prefix *)

Lemma nat_of_ascii_inj (a b : ascii) :
  nat_of_ascii a = nat_of_ascii b -> a = b.
Proof.
  intros H. rewrite <- (ascii_nat_embedding a), <- (ascii_nat_embedding b).
  now rewrite H.
Qed.

(** [strncmp(s, p, strlen(p)) == 0] says that [p] is a prefix of [s],
    for a [p] without NUL characters. *)
Lemma strncmp_prefix (p : string) :
  forall s : string,
    (forall c, strchr p c = true -> c <> NUL) ->
    (strncmp s p (String.length p) =? 0) = String.prefix p s.
Proof.
  induction p as [|c p IH]; intros s Hp; [destruct s; reflexivity|].
  assert (Hc : c <> NUL) by (apply Hp; simpl; now rewrite Ascii.eqb_refl).
  assert (Hp' : forall d, strchr p d = true -> d <> NUL).
  { intros d Hd. apply Hp. simpl. rewrite Hd. now destruct (Ascii.eqb d c). }
  destruct s as [|d s]; simpl.
  - apply Z.eqb_neq. intros H.
    apply Hc, nat_of_ascii_inj. change (nat_of_ascii NUL) with 0%nat. lia.
  - destruct (Ascii.eqb_spec d c) as [->|Hdc].
    + destruct (ascii_dec c c); [apply IH, Hp' | congruence].
    + destruct (ascii_dec c d); [congruence|].
      apply Z.eqb_neq. intros H. apply Hdc, nat_of_ascii_inj. lia.
Qed.

Lemma strncmp_api (s : string) :
  (strncmp s "/api/" 5 =? 0) = String.prefix "/api/" s.
Proof.
  apply (strncmp_prefix "/api/").
  intros c Hc -> . vm_compute in Hc. discriminate.
Qed.

#[local] Arguments zeroed : simpl never.
#[local] Arguments recv_result : simpl never.
#[local] Arguments inet_ntop : simpl never.
#[local] Arguments ntohs : simpl never.
#[local] Arguments strncmp : simpl never.
#[local] Opaque parse_http_request.
#[local] Arguments Z.sub : simpl never.

Section HandlerLogic.
Variables (I : list event -> globals -> Prop)
          (Q : unit -> list event -> globals -> Prop)
          (E : Z -> list event -> globals -> Prop).
Variables (tr : list event) (g : globals).
Variables (client_socket : Z) (client_addr : sockaddr_in)
          (request : http_request_t).

Lemma forallb_quiet_heap (evs : list event) :
  forallb heap_call evs = true -> forallb quiet evs = true.
Proof.
  induction evs as [|e evs IH]; [reflexivity|]. simpl.
  intros [He Hevs]%andb_prop. rewrite IH by exact Hevs.
  destruct e as [X c x]. destruct c; simpl in *; congruence.
Qed.

Lemma handle_client_connection_wp :
  (forall evs, forallb quiet evs = true -> I (tr ++ evs) g) ->
  (forall evs, handler_run client_socket client_addr request evs ->
               I (tr ++ evs) g /\ Q tt (tr ++ evs) g) ->
  wp I Q E tr g (handle_client_connection client_socket client_addr request).
Proof.
  intros HI HQ.
  unfold handle_client_connection, log_message, recv, close,
    handle_api_request, serve_static_file.
  simpl.
  split; [rewrite <- (app_nil_r tr); apply HI; reflexivity|]. intros [].
  split; [apply HI; reflexivity|]. intros offered.
  pose proof (received_request_cases offered) as Hcases. cbv zeta in Hcases.
  destruct (recv_result offered (zeroed MAX_BUFFER_SIZE) (MAX_BUFFER_SIZE - 1))
    as [bytes_received buffer] eqn:Erecv.
  cbn [fst snd] in Hcases.
  destruct Hcases as [[Hn Hnone] | [Hn (buffer' & raw & Hset & Hstr & Hlen & Hsome)]].
  - destruct (Z.leb_spec bytes_received 0); [|lia]. simpl.
    split; [rewrite <- app_assoc; apply HI; reflexivity|]. intros [].
    split; [rewrite <- !app_assoc; apply HI; reflexivity|]. intros [].
    rewrite <- !app_assoc. apply HQ. simpl.
    apply handled_no_data. exact Hnone.
  - destruct (Z.leb_spec bytes_received 0); [lia|].
    rewrite Hset. simpl. rewrite Hstr. simpl.
    split; [rewrite <- app_assoc; apply HI; reflexivity|]. intros [].
    apply wp_bind. apply parse_http_request_wp.
    + intros evs Hevs. rewrite <- !app_assoc. apply HI. simpl.
      apply forallb_quiet_heap, Hevs.
    + intros heap rc request' Hrun. simpl.
      pose proof (parse_run_heap _ _ _ _ _ Hrun) as Hheap%forallb_quiet_heap.
      assert (Hpre : I (((tr ++ [Event (c_log_message "INFO" "New connection from %s:%d"
               [VStr (inet_ntop (sin_addr client_addr));
                VInt (ntohs (sin_port client_addr))]) tt]) ++
                [Event (c_recv client_socket (MAX_BUFFER_SIZE - 1)) offered]) ++
                [Event (c_log_message "DEBUG" "Received request:\n%s" [VStr raw]) tt]
                ++ heap) g).
      { rewrite <- !app_assoc. apply HI. simpl. exact Hheap. }
      destruct (Z.eqb_spec rc 0) as [->|Hrc]; simpl.
      * destruct (strncmp (path request') "/api/" 5 =? 0) eqn:Eroute; simpl.
        -- split; [rewrite <- app_assoc; exact Hpre|]. intros [].
           split; [rewrite <- !app_assoc; apply HI; simpl;
                   rewrite forallb_app, Hheap; reflexivity|]. intros [].
           rewrite <- !app_assoc. apply HQ. simpl.
           pose proof (handled_request client_socket client_addr request
                         offered raw heap request' Hsome Hrun) as Hr.
           rewrite <- strncmp_api, Eroute in Hr. simpl in Hr. exact Hr.
        -- split; [rewrite <- app_assoc; exact Hpre|]. intros [].
           split; [rewrite <- !app_assoc; apply HI; simpl;
                   rewrite forallb_app, Hheap; reflexivity|]. intros [].
           rewrite <- !app_assoc. apply HQ. simpl.
           pose proof (handled_request client_socket client_addr request
                         offered raw heap request' Hsome Hrun) as Hr.
           rewrite <- strncmp_api, Eroute in Hr. simpl in Hr. exact Hr.
      * split; [rewrite <- app_assoc; exact Hpre|]. intros [].
        split; [rewrite <- !app_assoc; apply HI; simpl;
                rewrite forallb_app, Hheap; reflexivity|]. intros [].
        rewrite <- !app_assoc. apply HQ. simpl.
        pose proof (handled_bad_request client_socket client_addr request
                      offered raw heap rc request' Hsome Hrun Hrc) as Hr.
        simpl in Hr. exact Hr.
Qed.

End HandlerLogic.

(** ** Open connections along a trace *)

Lemma active_connections_snoc (tr : list event) (e : event) :
  active_connections (tr ++ [e]) = active_after e (active_connections tr).
Proof. unfold active_connections. rewrite fold_left_app. reflexivity. Qed.

Lemma active_after_no_accept (e : event) (active : list Z) :
  is_accept e = false ->
  (List.length (active_after e active) <= List.length active)%nat.
Proof.
  destruct e as [X c x]. destruct c; simpl; try discriminate; try lia.
  intros _. apply remove_length_le.
Qed.

Lemma active_after_quiet (e : event) (active : list Z) :
  quiet e = true -> active_after e active = active.
Proof.
  destruct e as [X c x]. destruct c; simpl; try discriminate; reflexivity.
Qed.

Lemma active_connections_quiet (evs : list event) :
  forall tr, forallb quiet evs = true ->
             active_connections (tr ++ evs) = active_connections tr.
Proof.
  induction evs as [|e evs IH]; intros tr H; [now rewrite app_nil_r|].
  simpl in H. apply andb_prop in H as [He Hevs].
  change (e :: evs) with ([e] ++ evs). rewrite app_assoc, IH by exact Hevs.
  rewrite active_connections_snoc. apply active_after_quiet, He.
Qed.

Lemma active_connections_accept (tr : list event) (s fd errno : Z)
    (addr : sockaddr_in) :
  active_connections (tr ++ [Event (c_accept s) (fd, errno, addr)])
  = if 0 <=? fd then fd :: active_connections tr else active_connections tr.
Proof. rewrite active_connections_snoc. reflexivity. Qed.

Lemma active_connections_close (tr : list event) (fd : Z) (u : unit) :
  active_connections (tr ++ [Event (c_close fd) u])
  = List.remove Z.eq_dec fd (active_connections tr).
Proof. rewrite active_connections_snoc. reflexivity. Qed.

Lemma remove_only (fd : Z) : List.remove Z.eq_dec fd [fd] = [].
Proof. simpl. destruct (Z.eq_dec fd fd); [reflexivity | congruence]. Qed.

Lemma server_inv_snoc tr g e :
  is_accept e = false -> server_inv tr g -> server_inv (tr ++ [e]) g.
Proof.
  intros He (Hlen & Hc & Hn). split; [|tauto].
  rewrite active_connections_snoc.
  pose proof (active_after_no_accept e (active_connections tr) He). lia.
Qed.

Lemma idle_snoc tr g e :
  is_accept e = false -> idle tr g -> idle (tr ++ [e]) g.
Proof.
  intros He (Hact & Hc & Hn). split; [|tauto].
  rewrite active_connections_snoc.
  pose proof (active_after_no_accept e (active_connections tr) He) as Hle.
  rewrite Hact in Hle |- *. destruct (active_after e []); [reflexivity|].
  simpl in Hle. lia.
Qed.

Lemma idle_server_inv tr g : idle tr g -> server_inv tr g.
Proof. intros (Hact & Hc & Hn). split; [rewrite Hact; simpl; lia | tauto]. Qed.

Lemma server_inv_set_server_socket tr g v :
  server_inv tr g -> server_inv tr (set_server_socket v g).
Proof. unfold server_inv. simpl. tauto. Qed.

Lemma server_inv_set_server_running tr g v :
  server_inv tr g -> server_inv tr (set_server_running v g).
Proof. unfold server_inv. simpl. tauto. Qed.

Lemma idle_set_server_socket tr g v :
  idle tr g -> idle tr (set_server_socket v g).
Proof. unfold idle. simpl. tauto. Qed.

Lemma idle_set_server_running tr g v :
  idle tr g -> idle tr (set_server_running v g).
Proof. unfold idle. simpl. tauto. Qed.

(** Reduces an invariant after some calls and assignments to the
    invariant before them. *)
Ltac inv_back :=
  first
    [ solve [ repeat first
                [ assumption
                | apply server_inv_snoc; [reflexivity|]
                | apply server_inv_set_server_socket
                | apply server_inv_set_server_running ] ]
    | solve [ try apply idle_server_inv;
              repeat first
                [ assumption
                | apply idle_snoc; [reflexivity|]
                | apply idle_set_server_socket
                | apply idle_set_server_running ] ] ].

(** Steps through a function body whose only branches are [if]s. *)
Ltac wp_walk :=
  repeat first
    [ progress cbn [wp bind mbind prog_bind mret prog_ret perform read write]
    | match goal with
      | |- _ /\ _ => split
      | |- forall _, _ => intro
      | |- wp _ _ _ _ _ ?p =>
          match p with context [if ?b then _ else _] => destruct b eqn:? end
      | |- wp _ _ _ _ _ (let '(_, _) := ?x in _) => destruct x as [? ?]
      | |- True => exact Logic.I
      | |- any_exit _ _ _ => exact Logic.I
      end ];
  try solve [inv_back | cbn [negb] in *; discriminate].

(** ** [main] before and after its loop *)

Lemma main_setup_wp (port_arg : option Z) :
  wp server_inv (fun _ => idle) any_exit [] initial_globals
    (main_setup port_arg).
Proof.
  assert (H0 : idle [] initial_globals) by (repeat split).
  unfold main_setup, create_server_socket, perror, close, log_message.
  destruct port_arg as [port|]; wp_walk.
Qed.

Lemma cleanup_and_exit_wp (signal : Z) tr g :
  signal <> 0 ->
  server_inv tr g ->
  wp server_inv (fun _ _ _ => False) any_exit tr g (cleanup_and_exit signal).
Proof.
  intros Hs Hinv. unfold cleanup_and_exit, close.
  destruct (Z.eqb_spec signal 0) as [|_]; [contradiction|].
  wp_walk.
Qed.

Lemma main_exit_wp tr g :
  idle tr g -> wp server_inv (fun _ _ _ => True) any_exit tr g main_exit.
Proof.
  intros Hidle. unfold main_exit, cleanup_and_exit, close. wp_walk.
Qed.

(** ** One pass through the loop *)

(** Every run of the handler is a run of calls that leave the open
    connections alone, with [close(client_socket)] as its last call. *)
Lemma handler_run_closes client_socket client_addr request evs :
  handler_run client_socket client_addr request evs ->
  exists calls,
    evs = calls ++ [Event (c_close client_socket) tt] /\
    forallb quiet calls = true.
Proof.
  destruct 1 as [offered Hnone
                | offered raw heap rc request' Hsome Hrun Hrc
                | offered raw heap request' Hsome Hrun].
  - eexists [_; _; _]. split; reflexivity.
  - pose proof (parse_run_heap _ _ _ _ _ Hrun) as Hheap%forallb_quiet_heap.
    eexists ([_; _; _] ++ heap ++ [_]). split.
    + rewrite <- !app_assoc. reflexivity.
    + simpl. rewrite forallb_app, Hheap. reflexivity.
  - pose proof (parse_run_heap _ _ _ _ _ Hrun) as Hheap%forallb_quiet_heap.
    eexists ([_; _; _] ++ heap ++ [_]). split.
    + rewrite <- !app_assoc. reflexivity.
    + simpl. rewrite forallb_app, Hheap. simpl.
      destruct (String.prefix "/api/" (path request')); reflexivity.
Qed.

Lemma loop_iteration_wp (request : http_request_t) tr g :
  idle tr g ->
  wp server_inv (fun _ => idle) any_exit tr g (loop_iteration request).
Proof.
  intros Hidle. pose proof Hidle as (Hact & Hclients & Hcount).
  unfold loop_iteration, perror.
  cbn [wp bind mbind prog_bind mret prog_ret perform read write].
  split; [inv_back|].
  destruct (server_running g =? 0).
  { cbn [wp]. split; [inv_back | exact Hidle]. }
  cbn [wp]. split; [inv_back|].
  intros [[client_socket errno] client_addr].
  assert (Hacc : active_connections
                   (tr ++ [Event (c_accept (server_socket g))
                             (client_socket, errno, client_addr)])
                 = if 0 <=? client_socket then [client_socket] else []).
  { rewrite active_connections_accept, Hact. reflexivity. }
  destruct (Z.ltb_spec client_socket 0) as [Hneg|Hpos].
  - destruct (Z.leb_spec 0 client_socket); [lia|].
    assert (Hidle' : idle (tr ++ [Event (c_accept (server_socket g))
                                    (client_socket, errno, client_addr)]) g)
      by (split; [exact Hacc | tauto]).
    destruct (errno =? EINTR); wp_walk.
  - destruct (Z.leb_spec 0 client_socket); [|lia].
    apply wp_bind. apply handle_client_connection_wp.
    + intros evs Hquiet. split; [|tauto].
      rewrite active_connections_quiet, Hacc by exact Hquiet. simpl. lia.
    + intros evs (calls & -> & Hquiet)%handler_run_closes.
      assert (Hdone : idle ((tr ++ [Event (c_accept (server_socket g))
                                      (client_socket, errno, client_addr)])
                            ++ calls ++ [Event (c_close client_socket) tt]) g).
      { split; [|tauto].
        rewrite app_assoc, active_connections_close,
          active_connections_quiet, Hacc by exact Hquiet.
        apply remove_only. }
      split; [inv_back|]. cbn [wp mret prog_ret]. split; [inv_back | exact Hdone].
Qed.

(** ** The invariant of the process *)

Lemma control_inv_server_inv tr g c : control_inv tr g c -> server_inv tr g.
Proof.
  destruct c; simpl; intros H;
    try (eapply wp_invariant; exact H); tauto.
Qed.

Lemma config_inv_initial (port_arg : option Z) :
  config_inv (initial_config port_arg).
Proof. apply main_setup_wp. Qed.

Lemma config_inv_step (c c' : config) :
  step c c' -> config_inv c -> config_inv c'.
Proof.
  unfold config_inv.
  destruct 1 as [p evs g' p' g tr Hp | p evs g' p' g tr Hp
                | p evs g' p' g tr Hp | p evs g' p' interrupted g tr Hp
                | c c' g tr Hfin | signal c g tr Hrun Hsig]; simpl.
  - apply wp_pstep, Hp.
  - apply wp_pstep, Hp.
  - apply wp_pstep, Hp.
  - apply wp_pstep, Hp.
  - destruct Hfin; simpl; try tauto.
    + intros [_ Hidle]. apply loop_iteration_wp, Hidle.
    + intros [_ Hidle]. apply loop_iteration_wp, Hidle.
    + intros [_ Hidle]. apply main_exit_wp, Hidle.
  - intros Hinv. apply cleanup_and_exit_wp.
    + unfold SIGINT, SIGTERM in Hsig. lia.
    + eapply control_inv_server_inv, Hinv.
Qed.

Lemma reachable_config_inv (port_arg : option Z) (c : config) :
  reachable (initial_config port_arg) c -> config_inv c.
Proof.
  induction 1 as [|c c' _ IH Hstep].
  - apply config_inv_initial.
  - eapply config_inv_step; eassumption.
Qed.

(** ** Running the process *)

Lemma pstep_fn_pstep {A : Type} (o : oracle) tr g (p : prog A) evs g' p' :
  pstep_fn o tr g p = Some (evs, g', p') -> pstep g p evs g' p'.
Proof.
  destruct p; simpl; intros H; try discriminate;
    injection H as <- <- <-; constructor.
Qed.

Lemma step_fn_reachable (start : config) o garbage signal (c : config) :
  reachable start c -> reachable start (step_fn o garbage signal c).
Proof.
  intros Hc. destruct c as [g c tr]. unfold step_fn. simpl.
  destruct signal as [s|].
  - destruct (is_running c) eqn:Hrun; simpl; [|exact Hc].
    destruct (Z.eqb_spec s SIGINT) as [->|_]; simpl.
    { eapply reachable_step; [exact Hc|].
      apply step_signal; [exact Hrun | left; reflexivity]. }
    destruct (Z.eqb_spec s SIGTERM) as [->|_]; simpl; [|exact Hc].
    eapply reachable_step; [exact Hc|].
    apply step_signal; [exact Hrun | right; reflexivity].
  - destruct c as [p|p|p|p interrupted|status|f]; try exact Hc;
      unfold advance; simpl;
      (destruct (pstep_fn o tr g p) as [[[evs g'] p']|] eqn:Hp;
       [ apply pstep_fn_pstep in Hp;
         eapply reachable_step; [exact Hc|]; constructor; exact Hp
       | destruct p as [a|f|status|X c k|k|f k]; try discriminate; simpl;
         try (eapply reachable_step; [exact Hc|]; constructor; constructor) ]).
    + destruct a; eapply reachable_step; try exact Hc; constructor; constructor.
    + destruct a; eapply reachable_step; try exact Hc; constructor; constructor.
    + destruct a; eapply reachable_step; try exact Hc; constructor; constructor.
Qed.

Lemma run_reachable (start : config) o garbage schedule :
  forall c, reachable start c -> reachable start (run o garbage schedule c).
Proof.
  induction schedule as [|signal schedule IH]; intros c Hc; [exact Hc|].
  apply IH, step_fn_reachable, Hc.
Qed.

#[local] Transparent parse_http_request.

End ServerLogic.

Section Handler.
Variables (o : oracle) (n : nat) (g : globals).
Variables (client_socket : Z) (client_addr : sockaddr_in)
          (request : http_request_t).

(** Every run of the handler returns, leaves the variables at file scope
    as they were, and is one of the runs of [handler_run]. *)
Lemma handle_client_connection_exec :
  exists evs,
    exec o n g (handle_client_connection client_socket client_addr request)
      = (evs, g, Returned tt) /\
    handler_run client_socket client_addr request evs.
Proof.
  assert (Hwp : wp (fun _ g' => g' = g)
                  (fun _ evs g' =>
                     handler_run client_socket client_addr request evs)
                  no_exit [] g
                  (handle_client_connection client_socket client_addr request)).
  { apply handle_client_connection_wp;
      [reflexivity | intros evs Hrun; split; [reflexivity | exact Hrun]]. }
  apply (wp_exec _ _ _ _ _ _ o n) in Hwp.
  destruct (exec o n g
              (handle_client_connection client_socket client_addr request))
    as [[evs g'] [[]|f|status]]; simpl in Hwp.
  - destruct Hwp as [-> Hrun]. exists evs. split; [reflexivity | exact Hrun].
  - contradiction.
  - destruct Hwp as [_ []].
Qed.

End Handler.

Section Parser.
Variables (o : oracle) (n : nat) (g : globals).
Variables (raw : string) (request : http_request_t).

Lemma parse_http_request_exec :
  exists evs rc request',
    exec o n g (parse_http_request (Some raw) (Some request))
      = (evs, g, Returned (rc, Some request')) /\
    parse_run raw request evs rc request'.
Proof.
  assert (Hwp : wp (fun _ g' => g' = g)
                  (fun r evs g' =>
                     exists request', r.2 = Some request' /\
                                      parse_run raw request evs r.1 request')
                  no_exit [] g
                  (parse_http_request (Some raw) (Some request))).
  { apply parse_http_request_wp; [reflexivity|].
    intros evs rc request' Hrun. exists request'. split; [reflexivity | exact Hrun]. }
  apply (wp_exec _ _ _ _ _ _ o n) in Hwp.
  destruct (exec o n g (parse_http_request (Some raw) (Some request)))
    as [[evs g'] [[rc parsed]|f|status]]; simpl in Hwp.
  - destruct Hwp as [-> (request' & -> & Hrun)].
    exists evs, rc, request'. split; [reflexivity | exact Hrun].
  - contradiction.
  - destruct Hwp as [_ []].
Qed.

(** The first answer of the outside world decides whether the copy of
    the request could be allocated. *)
Lemma parse_run_malloc evs rc request' :
  exec o n g (parse_http_request (Some raw) (Some request))
    = (evs, g, Returned (rc, Some request')) ->
  head evs ≫= malloc_answer = Some (o n bool (c_malloc (strlen raw + 1))).
Proof.
  unfold parse_http_request, strdup. simpl.
  destruct (exec o (S n) g _) as [[tr g'] r].
  intros H. injection H as <- _ _. reflexivity.
Qed.

End Parser.

(** ** White-space separated fields *)

Lemma cons_nonempty_length (f : string) (fs : list string) :
  (List.length fs <= List.length (cons_nonempty f fs) <= S (List.length fs))%nat.
Proof. destruct f; simpl; lia. Qed.

Lemma fields_space (c : ascii) (s : string) :
  isspace c = true -> fields (String c s) = fields s.
Proof.
  intros Hc. unfold fields. simpl.
  destruct (split_fields s) as [f fs]. rewrite Hc. reflexivity.
Qed.

Lemma fields_nonspace (c : ascii) (s : string) :
  isspace c = false ->
  List.length (fields (String c s)) = S (List.length (split_fields s).2).
Proof.
  intros Hc. unfold fields. simpl.
  destruct (split_fields s) as [f fs]. rewrite Hc. reflexivity.
Qed.

Lemma fields_tail_length (s : string) :
  (List.length (split_fields s).2 <= List.length (fields s))%nat.
Proof.
  unfold fields. destruct (split_fields s) as [f fs]. simpl.
  apply cons_nonempty_length.
Qed.

Lemma fields_nonspace_twice (c d : ascii) (s : string) :
  isspace c = false -> isspace d = false ->
  List.length (fields (String c (String d s)))
  = List.length (fields (String d s)).
Proof.
  intros Hc Hd. rewrite !fields_nonspace by assumption.
  simpl. destruct (split_fields s) as [f fs]. rewrite Hd. reflexivity.
Qed.

Lemma fields_skip_space (s : string) : fields (skip_space s) = fields s.
Proof.
  induction s as [|c s IH]; [reflexivity|]. simpl.
  destruct (isspace c) eqn:Hc; [|reflexivity].
  rewrite fields_space by exact Hc. exact IH.
Qed.

Lemma fields_blank (s : string) : skip_space s = ""%string -> fields s = [].
Proof. intros H. rewrite <- fields_skip_space, H. reflexivity. Qed.

(** A conversion reads from one field only. *)
Lemma read_nonspace_fields (width : nat) :
  forall s field rest,
    read_nonspace width s = (field, rest) ->
    (List.length (fields s) <= S (List.length (fields rest)))%nat.
Proof.
  induction width as [|w IH]; intros s field rest H; simpl in H.
  - injection H as <- <-. lia.
  - destruct s as [|c s]; [injection H as <- <-; simpl; lia|].
    destruct (isspace c) eqn:Hc; [injection H as <- <-; lia|].
    destruct (read_nonspace w s) as [f r] eqn:E.
    injection H as <- <-.
    destruct w as [|w].
    + simpl in E. injection E as <- <-.
      rewrite fields_nonspace by exact Hc.
      pose proof (fields_tail_length s). lia.
    + destruct s as [|d s].
      * simpl in E. injection E as <- <-.
        rewrite fields_nonspace by exact Hc. simpl. lia.
      * destruct (isspace d) eqn:Hd.
        -- simpl in E. rewrite Hd in E. injection E as <- <-.
           rewrite fields_nonspace by exact Hc.
           pose proof (fields_tail_length (String d s)). lia.
        -- rewrite fields_nonspace_twice by assumption.
           eapply IH, E.
Qed.

(** Three fields on the line are enough for the format of the request
    line to assign its three conversions. *)
Lemma three_fields_scanned (line : string) :
  (3 <= List.length (fields line))%nat ->
  (sscanf line request_line_format).1 = 3.
Proof.
  intros H. apply (sscanf_assigned line request_line_format 3); [lia|].
  unfold request_line_format. cbn [scan_fields].
  destruct (skip_space line) as [|c1 s1] eqn:E1.
  { rewrite (fields_blank line E1) in H. simpl in H. lia. }
  rewrite <- fields_skip_space, E1 in H.
  destruct (read_nonspace 15 (String c1 s1)) as [f1 r1] eqn:R1.
  apply read_nonspace_fields in R1.
  destruct (skip_space (skip_space r1)) as [|c2 s2] eqn:E2.
  { rewrite <- (fields_skip_space r1), (fields_blank _ E2) in R1.
    simpl in R1. lia. }
  rewrite <- (fields_skip_space r1), <- (fields_skip_space (skip_space r1)), E2 in R1.
  destruct (read_nonspace 255 (String c2 s2)) as [f2 r2] eqn:R2.
  apply read_nonspace_fields in R2.
  destruct (skip_space (skip_space r2)) as [|c3 s3] eqn:E3.
  { rewrite <- (fields_skip_space r2), (fields_blank _ E3) in R2.
    simpl in R2. lia. }
  destruct (read_nonspace 15 (String c3 s3)) as [f3 r3].
  reflexivity.
Qed.

(** A request has no first line when it holds nothing but CR and LF. *)
Lemma first_line_none (raw : string) :
  first_line raw = None <->
  Forall (fun c => c = CR \/ c = LF) (list_ascii_of_string raw).
Proof.
  unfold first_line, strtok_r.
  assert (Hdelim : forall c, strchr CRLF c = true <-> c = CR \/ c = LF).
  { intros c. unfold CRLF. simpl.
    destruct (Ascii.eqb_spec c CR) as [->|H1]; [tauto|].
    destruct (Ascii.eqb_spec c LF) as [->|H2]; [tauto|].
    split; [discriminate | tauto]. }
  induction raw as [|c raw IH].
  - simpl. split; [constructor | reflexivity].
  - cbn [skip_delim list_ascii_of_string].
    destruct (strchr CRLF c) eqn:Hc.
    + rewrite IH. apply Hdelim in Hc.
      split; [intros H; constructor; assumption | intros H; inversion H; assumption].
    + destruct (split_token CRLF (String c raw)) as [tok rest].
      split; [discriminate|].
      intros H. inversion H as [|? ? Hc' _]; subst.
      apply Hdelim in Hc'. congruence.
Qed.

(** ** The request parser: claims C9 and C2 *)

(** C9, counterexample: a first line with two fields, the first of them
    longer than 15 characters, is parsed with success, since the conversion
    for the path reads on where the conversion for the method stopped; and
    a request line with three fields fails when [strdup] returns NULL. *)
Lemma C9_counterexample :
  (fields long_method_request = ["ABCDEFGHIJKLMNOPQRSTUVWXYZ"; "1"]%string /\
   exec sample_world 0 initial_globals
     (parse_http_request (Some long_method_request) (Some blank_request))
   = ([Event (c_malloc 29) true; Event c_free tt], initial_globals,
      Returned (0, Some {| method := "ABCDEFGHIJKLMNO";
                           path := "PQRSTUVWXYZ";
                           version := "1";
                           headers := "";
                           body := "" |}))) /\
  (fields "GET / HTTP/1.1" = ["GET"; "/"; "HTTP/1.1"]%string /\
   exec out_of_memory_world 0 initial_globals
     (parse_http_request (Some "GET / HTTP/1.1"%string) (Some blank_request))
   = ([Event (c_malloc 15) false], initial_globals,
      Returned (-1, Some blank_request))) /\
  ~ parse_result_as_stated.
Proof.
  assert (Hrun : exec sample_world 0 initial_globals
            (parse_http_request (Some long_method_request) (Some blank_request))
          = ([Event (c_malloc 29) true; Event c_free tt], initial_globals,
             Returned (0, Some {| method := "ABCDEFGHIJKLMNO";
                                  path := "PQRSTUVWXYZ";
                                  version := "1";
                                  headers := "";
                                  body := "" |})))
    by (vm_compute; reflexivity).
  split; [split; [vm_compute; reflexivity | exact Hrun]|].
  split; [split; vm_compute; reflexivity|].
  intros Hclaim.
  destruct (Hclaim sample_world 0%nat initial_globals
              (Some long_method_request) (Some blank_request))
    as (evs & rc & request' & Hexec & Hiff).
  rewrite Hrun in Hexec. injection Hexec as _ <- _.
  assert (H : 0 = -1); [|discriminate].
  apply Hiff. right. right. exists long_method_request.
  split; [reflexivity|]. right.
  exists long_method_request. split; vm_compute; [reflexivity | lia].
Qed.

(** C9, as amended: [parse_http_request] returns -1 or 0, and -1 exactly
    when [raw_request] is NULL, [request] is NULL, the copy of the request
    cannot be allocated, the request has no first line (it holds no
    character other than CR and LF), or [sscanf] with ["%15s %255s %15s"]
    assigns fewer than three fields from the first line. Three white-space
    separated fields on the line always make it assign three. When 0 is
    returned the method holds at most 15 characters, the path at most 255
    and the version at most 15. *)
Theorem C9_parse_http_request_result (o : oracle) (n : nat) (g : globals)
    (raw_request : option string) (request : option http_request_t) :
  (exists evs rc request',
     exec o n g (parse_http_request raw_request request)
       = (evs, g, Returned (rc, request')) /\
     (rc = -1 \/ rc = 0) /\
     (rc = -1 <->
      raw_request = None \/ request = None \/
      exists raw, raw_request = Some raw /\
        (o n bool (c_malloc (strlen raw + 1)) = false \/
         first_line raw = None \/
         exists line, first_line raw = Some line /\
                      (sscanf line request_line_format).1 <> 3)) /\
     (rc = 0 ->
      exists r, request' = Some r /\
                strlen (method r) <= 15 /\
                strlen (path r) <= 255 /\
                strlen (version r) <= 15)) /\
  (forall raw, first_line raw = None <->
               Forall (fun c => c = CR \/ c = LF) (list_ascii_of_string raw)) /\
  (forall line, (3 <= List.length (fields line))%nat ->
                (sscanf line request_line_format).1 = 3).
Proof.
  split; [|split; [exact first_line_none | exact three_fields_scanned]].
  destruct raw_request as [raw|], request as [req|]; simpl.
  2-4: eexists _, _, _; split; [reflexivity|]; split; [left; reflexivity|];
       split; [split; [auto | reflexivity] | discriminate].
  destruct (parse_http_request_exec o n g raw req)
    as (evs & rc & request' & Hexec & Hrun).
  exists evs, rc, (Some request'). split; [exact Hexec|].
  pose proof (parse_run_malloc o n g raw req evs rc request' Hexec) as Hmalloc.
  destruct Hrun as [ | Hline | line request' Hline Hscan
                   | line request' Hline Hscan Hfields Hm Hp Hv Hh Hb];
    simpl in Hmalloc; injection Hmalloc as Hmalloc.
  - split; [left; reflexivity|]. split; [|discriminate].
    split; [|reflexivity]. intros _. right. right.
    exists raw. split; [reflexivity|]. left. symmetry. exact Hmalloc.
  - split; [left; reflexivity|]. split; [|discriminate].
    split; [|reflexivity]. intros _. right. right.
    exists raw. split; [reflexivity|]. right. left. exact Hline.
  - split; [left; reflexivity|]. split; [|discriminate].
    split; [|reflexivity]. intros _. right. right.
    exists raw. split; [reflexivity|]. right. right.
    exists line. split; assumption.
  - split; [right; reflexivity|]. split.
    + split; [discriminate|].
      intros [H | [H | (raw' & Hraw & [H | [H | (line' & Hline' & H)]])]];
        try discriminate; injection Hraw as <-.
      * congruence.
      * congruence.
      * rewrite Hline in Hline'. injection Hline' as <-. contradiction.
    + intros _. exists request'. repeat split; assumption.
Qed.

(** C2: request handling works in buffers of [MAX_BUFFER_SIZE] bytes and
    stays inside them. [recv] is asked for [MAX_BUFFER_SIZE - 1] bytes and
    returns no more, so the index of the terminator is inside the buffer;
    the loops of [parse_http_request] keep the headers and the body
    shorter than [MAX_BUFFER_SIZE] and never store past the end of either
    field, from any state in which they are that short; and neither the
    parser nor the handler ever leaves an array. *)
Theorem C2_fixed_size_buffers :
  MAX_BUFFER_SIZE = 1024 /\
  (forall offered : option (list ascii),
     let r := recv_result offered (zeroed MAX_BUFFER_SIZE) (MAX_BUFFER_SIZE - 1) in
     r.1 <= MAX_BUFFER_SIZE - 1 /\
     Z.of_nat (List.length r.2) = MAX_BUFFER_SIZE /\
     (0 < r.1 -> exists buffer', array_set r.2 r.1 NUL = Ok buffer')) /\
  (forall (saveptr : string) (in_headers : bool) (request : http_request_t),
     strlen (headers request) < MAX_BUFFER_SIZE ->
     strlen (body request) < MAX_BUFFER_SIZE ->
     exists request',
       parse_lines (S (String.length saveptr)) saveptr in_headers request
         = Ok request' /\
       strlen (headers request') < MAX_BUFFER_SIZE /\
       strlen (body request') < MAX_BUFFER_SIZE) /\
  (forall (o : oracle) (n : nat) (g : globals) (raw : string)
          (request : http_request_t),
     exists evs rc request',
       exec o n g (parse_http_request (Some raw) (Some request))
         = (evs, g, Returned (rc, Some request')) /\
       (rc = 0 ->
        strlen (headers request') < MAX_BUFFER_SIZE /\
        strlen (body request') < MAX_BUFFER_SIZE)) /\
  (forall (o : oracle) (n : nat) (g : globals) (client_socket : Z)
          (client_addr : sockaddr_in) (request : http_request_t),
     outcome_of
       (exec o n g (handle_client_connection client_socket client_addr request))
     = Returned tt).
Proof.
  split; [reflexivity|]. split; [|split; [|split]].
  - intros offered. cbv zeta.
    destruct (recv_result_count offered (zeroed MAX_BUFFER_SIZE)
                (MAX_BUFFER_SIZE - 1)) as [Hcount Hlen].
    { unfold MAX_BUFFER_SIZE. lia. }
    { rewrite zeroed_length. unfold MAX_BUFFER_SIZE. lia. }
    rewrite zeroed_length in Hlen.
    split; [exact Hcount|]. split; [rewrite Hlen; reflexivity|].
    intros Hpos.
    destruct (received_request_cases offered)
      as [[Hle _] | [_ (buffer' & _ & Hset & _)]]; [lia|].
    exists buffer'. exact Hset.
  - intros saveptr in_headers request Hh Hb.
    destruct (parse_lines_within_capacity (S (String.length saveptr)) saveptr
                in_headers request) as (request' & Hloop & [Hh' Hb'] & _);
      [lia | split; assumption |].
    exists request'. auto.
  - intros o n g raw request.
    destruct (parse_http_request_exec o n g raw request)
      as (evs & rc & request' & Hexec & Hrun).
    exists evs, rc, request'. split; [exact Hexec|].
    intros ->. inversion Hrun; subst. split; assumption.
  - intros o n g client_socket client_addr request.
    destruct (handle_client_connection_exec o n g client_socket client_addr
                request) as (evs & -> & _).
    reflexivity.
Qed.

(** C2, witness: the loop invariant at the state the parser enters the
    loop in, on the lines after the request line of [sample_request]. *)
Lemma C2_fixed_size_buffers_witness :
  exists request',
    parse_lines 13 ("Host: a" ++ CRLF ++ CRLF)%string true blank_request
      = Ok request' /\
    strlen (headers request') < MAX_BUFFER_SIZE /\
    strlen (body request') < MAX_BUFFER_SIZE.
Proof.
  apply (proj1 (proj2 (proj2 C2_fixed_size_buffers))
           ("Host: a" ++ CRLF ++ CRLF)%string true blank_request);
    vm_compute; reflexivity.
Defined.

(** ** The connection handler: claim C8 *)

Lemma closes_quiet (fd : Z) (evs : list event) :
  forallb quiet evs = true -> List.filter (closes fd) evs = [].
Proof.
  induction evs as [|e evs IH]; [reflexivity|]. simpl.
  intros [He Hevs]%andb_prop.
  destruct e as [X c x]. destruct c; simpl in *; try discriminate; auto.
Qed.

Lemma heap_call_no_dispatch (evs : list event) :
  forallb heap_call evs = true ->
  omap api_request_of evs = [] /\ omap static_path_of evs = [].
Proof.
  induction evs as [|e evs IH]; [split; reflexivity|]. simpl.
  intros [He Hevs]%andb_prop. destruct (IH Hevs) as [IHa IHs].
  destruct e as [X c x]. destruct c; simpl in *; try discriminate; auto.
Qed.

(** What a run of the handler hands to the two request handlers: nothing
    when no request was parsed, else the parsed request to one of them,
    by the prefix of its path. *)
Lemma handler_run_dispatch client_socket client_addr request evs :
  handler_run client_socket client_addr request evs ->
  (omap api_request_of evs = [] /\ omap static_path_of evs = []) \/
  (exists request',
     String.prefix "/api/" (path request') = true /\
     omap api_request_of evs = [(client_socket, request')] /\
     omap static_path_of evs = []) \/
  (exists request',
     String.prefix "/api/" (path request') = false /\
     omap api_request_of evs = [] /\
     omap static_path_of evs = [(client_socket, path request')]).
Proof.
  destruct 1 as [offered Hnone
                | offered raw heap rc request' Hsome Hrun Hrc
                | offered raw heap request' Hsome Hrun].
  - left. split; reflexivity.
  - left. apply parse_run_heap, heap_call_no_dispatch in Hrun as [Ha Hs].
    rewrite !omap_app, Ha, Hs. split; reflexivity.
  - right. apply parse_run_heap, heap_call_no_dispatch in Hrun as [Ha Hs].
    rewrite !omap_app, Ha, Hs.
    destruct (String.prefix "/api/" (path request')) eqn:Hprefix;
      [left | right]; exists request'; repeat split; auto.
Qed.

(** C8: every run of [handle_client_connection] returns after one of
    three courses of calls: a failed receive, a failed parse, or a parsed
    request that is handed to [handle_api_request] when ["/api/"] is a
    prefix of its path, that is when [strncmp] finds its first five
    characters equal to ["/api/"], and whose path is handed to
    [serve_static_file] when it is not; nothing else is handed to either.
    Whichever course it takes, it calls [close] on the client socket
    once, as its last call. *)
Theorem C8_route_and_close (o : oracle) (n : nat) (g : globals)
    (client_socket : Z) (client_addr : sockaddr_in) (request : http_request_t) :
  exists evs,
    exec o n g (handle_client_connection client_socket client_addr request)
      = (evs, g, Returned tt) /\
    handler_run client_socket client_addr request evs /\
    List.length (List.filter (closes client_socket) evs) = 1%nat /\
    last evs = Some (Event (c_close client_socket) tt) /\
    ((omap api_request_of evs = [] /\ omap static_path_of evs = []) \/
     (exists request',
        strncmp (path request') "/api/" 5 = 0 /\
        String.prefix "/api/" (path request') = true /\
        omap api_request_of evs = [(client_socket, request')] /\
        omap static_path_of evs = []) \/
     (exists request',
        strncmp (path request') "/api/" 5 <> 0 /\
        String.prefix "/api/" (path request') = false /\
        omap api_request_of evs = [] /\
        omap static_path_of evs = [(client_socket, path request')])).
Proof.
  destruct (handle_client_connection_exec o n g client_socket client_addr request)
    as (evs & Hexec & Hrun).
  exists evs. split; [exact Hexec|]. split; [exact Hrun|].
  pose proof (handler_run_dispatch _ _ _ _ Hrun) as Hdispatch.
  destruct (handler_run_closes _ _ _ _ Hrun) as (calls & -> & Hquiet).
  split; [|split].
  - rewrite List.filter_app, (closes_quiet _ _ Hquiet). simpl.
    rewrite Z.eqb_refl. reflexivity.
  - apply last_snoc.
  - destruct Hdispatch as [H | [(r & Hp & H) | (r & Hp & H)]].
    + left. exact H.
    + right. left. exists r. split; [|split; [exact Hp | exact H]].
      apply Z.eqb_eq. rewrite strncmp_api. exact Hp.
    + right. right. exists r. split; [|split; [exact Hp | exact H]].
      apply Z.eqb_neq. rewrite strncmp_api. exact Hp.
Qed.

(** ** The accept loop: claims C1 and C7 *)

Lemma sample_run_reachable (steps : nat) :
  reachable (initial_config None) (sample_run steps).
Proof. apply run_reachable, reachable_start. Qed.

(** Every pass through the loop returns, leaves the variables at file
    scope as they were, and is one of the runs of [iteration_run]. *)
Lemma loop_iteration_exec (o : oracle) (n : nat) (g : globals)
    (request : http_request_t) :
  exists evs flow,
    exec o n g (loop_iteration request) = (evs, g, Returned flow) /\
    iteration_run g request evs flow.
Proof.
  assert (Hwp : wp (fun _ g' => g' = g)
                  (fun flow evs _ => iteration_run g request evs flow)
                  no_exit [] g (loop_iteration request)).
  { unfold loop_iteration, perror.
    cbn [wp bind mbind prog_bind mret prog_ret perform read write].
    split; [reflexivity|].
    destruct (Z.eqb_spec (server_running g) 0) as [Hstop|Hrun].
    { cbn [wp]. split; [reflexivity | constructor; exact Hstop]. }
    cbn [wp]. split; [reflexivity|].
    intros [[client_socket errno] client_addr].
    destruct (Z.ltb_spec client_socket 0) as [Hneg|Hpos].
    - destruct (Z.eqb_spec errno EINTR) as [Hintr|Hother]; cbn [wp bind].
      + split; [reflexivity|]. constructor; assumption.
      + split; [reflexivity|]. intros [].
        split; [reflexivity|]. constructor; assumption.
    - apply wp_bind. apply handle_client_connection_wp; [reflexivity|].
      intros evs Hevs. split; [reflexivity|]. cbn [wp mret prog_ret].
      split; [reflexivity|]. constructor; assumption. }
  apply (wp_exec _ _ _ _ _ _ o n) in Hwp.
  destruct (exec o n g (loop_iteration request)) as [[evs g'] [flow|f|status]];
    simpl in Hwp.
  - destruct Hwp as [-> Hrun]. exists evs, flow. split; [reflexivity | exact Hrun].
  - contradiction.
  - destruct Hwp as [_ []].
Qed.

(** C1: the loop of [main] handles one connection at a time. In every
    state the server can reach, at most one client connection is open, none
    is open when the loop is about to call [accept], and no function body
    has faulted. One pass through the loop is its test alone, an [accept]
    that fails, or one [accept] followed by a whole run of
    [handle_client_connection] on the socket it returned, from the receive
    to the [close] of that socket, before the loop goes round. Every call
    the process makes is one of [call]; none of them starts a thread or a
    task. *)
Theorem C1_one_connection_at_a_time :
  (forall (port_arg : option Z) (c : config),
     reachable (initial_config port_arg) c ->
     (List.length (active_connections (trace c)) <= 1)%nat /\
     (forall sockfd k,
        ctl c = in_loop (Call (c_accept sockfd) k) ->
        active_connections (trace c) = []) /\
     (forall f, ctl c <> crashed f)) /\
  (forall (o : oracle) (n : nat) (g : globals) (request : http_request_t),
   exists evs flow,
     exec o n g (loop_iteration request) = (evs, g, Returned flow) /\
     iteration_run g request evs flow).
Proof.
  split; [|exact loop_iteration_exec].
  intros port_arg c Hreach. apply reachable_config_inv in Hreach.
  unfold config_inv in Hreach. destruct c as [g c tr]. simpl in *.
  split; [apply (control_inv_server_inv tr g c Hreach)|]. split.
  - intros sockfd k ->. simpl in Hreach. destruct Hreach as [_ Hk].
    specialize (Hk (0, 0, localhost)).
    apply wp_invariant in Hk. destruct Hk as [Hlen _].
    rewrite active_connections_accept in Hlen. simpl in Hlen.
    destruct (active_connections tr); [reflexivity | simpl in Hlen; lia].
  - intros f ->. exact Hreach.
Qed.

(** C1, witness: the sample world, stopped while the first connection is
    being handled. *)
Lemma C1_one_connection_at_a_time_witness :
  active_connections (trace (sample_run 20)) = [4] /\
  (List.length (active_connections (trace (sample_run 20))) <= 1)%nat.
Proof.
  split; [vm_compute; reflexivity|].
  apply (proj1 C1_one_connection_at_a_time None (sample_run 20)).
  apply sample_run_reachable.
Defined.

(** C7: serving a request leaves the variables at file scope alone. A run
    of [handle_client_connection] ends with [server_socket],
    [server_running], [clients] and [client_count] as it found them; and
    in every state the server can reach, [clients] is as it was at program
    start and [client_count] is 0. *)
Theorem C7_no_persistent_state :
  (forall (o : oracle) (n : nat) (g : globals) (client_socket : Z)
          (client_addr : sockaddr_in) (request : http_request_t),
     globals_of
       (exec o n g (handle_client_connection client_socket client_addr request))
     = g) /\
  (forall (port_arg : option Z) (c : config),
     reachable (initial_config port_arg) c ->
     clients (vars c) = clients initial_globals /\
     client_count (vars c) = 0).
Proof.
  split.
  - intros o n g client_socket client_addr request.
    destruct (handle_client_connection_exec o n g client_socket client_addr
                request) as (evs & -> & _).
    reflexivity.
  - intros port_arg c Hreach. apply reachable_config_inv in Hreach.
    unfold config_inv in Hreach.
    apply control_inv_server_inv in Hreach. apply Hreach.
Qed.

(** C7, witness: the sample world after its first connection and a
    SIGINT. *)
Lemma C7_no_persistent_state_witness :
  let c := run sample_world blank_request
             (replicate 25 None ++ [Some SIGINT] ++ replicate 10 None)
             (initial_config None) in
  ctl c = halted EXIT_SUCCESS /\
  server_running (vars c) = 0 /\
  clients (vars c) = clients initial_globals /\
  client_count (vars c) = 0.
Proof.
  split; [vm_compute; reflexivity|]. split; [vm_compute; reflexivity|].
  apply (proj2 C7_no_persistent_state None).
  apply run_reachable, reachable_start.
Defined.

(** ** The response builder: claim C6 *)

(** ** Truncation and status messages *)

Lemma truncate_short (n : nat) :
  forall s, (String.length s <= n)%nat -> truncate n s = s.
Proof.
  induction n as [|n IH]; intros [|c s] H; simpl in *; try reflexivity; try lia.
  rewrite IH by lia. reflexivity.
Qed.

Lemma truncate_length (n : nat) :
  forall s, String.length (truncate n s) = Nat.min n (String.length s).
Proof.
  induction n as [|n IH]; intros [|c s]; simpl; try reflexivity.
  rewrite IH. reflexivity.
Qed.

Lemma status_message_of_other (status_code : Z) :
  status_code <> 200 -> status_code <> 404 -> status_code <> 500 ->
  status_message_of status_code = "Unknown"%string.
Proof.
  intros H200 H404 H500.
  destruct status_code as [|p|p]; [reflexivity | | reflexivity].
  do 9 (try (destruct p as [p|p|]; try reflexivity)); congruence.
Qed.

(** C6, counterexample: with a content type of a thousand characters the
    text of the format has 1084 characters, and [snprintf] stores the first
    1023 of them; and a body of [MAX_BUFFER_SIZE] characters does not fit
    the array [strcpy] copies it into. *)
Lemma C6_counterexample :
  (exists r,
     build_http_response (Some blank_response) 200 (Some long_content_type)
       (Some ""%string) = Ok r /\
     strlen (response_headers r) = 1023 /\
     strlen (response_header_text 200 "OK" long_content_type 0) = 1084) /\
  build_http_response (Some blank_response) 200 None (Some long_body)
    = Fault BufferOverflow /\
  ~ response_headers_as_stated.
Proof.
  assert (H : exists r,
     build_http_response (Some blank_response) 200 (Some long_content_type)
       (Some ""%string) = Ok r /\
     strlen (response_headers r) = 1023 /\
     strlen (response_header_text 200 "OK" long_content_type 0) = 1084).
  { eexists. split; [reflexivity|]. split; vm_compute; reflexivity. }
  split; [exact H|]. split; [vm_compute; reflexivity|].
  intros Hclaim. destruct H as (r & Hr & Hlen & Htext).
  destruct (Hclaim blank_response 200 (Some long_content_type) ""%string)
    as (r' & Hr' & Hheaders).
  rewrite Hr in Hr'. injection Hr' as <-.
  rewrite Hheaders in Hlen. simpl in Hlen.
  change (strlen ""%string) with 0 in Hlen.
  change (status_message_of 200) with "OK"%string in Hlen.
  rewrite Htext in Hlen. discriminate.
Qed.

(** C6, as amended: for a body shorter than [MAX_BUFFER_SIZE],
    [build_http_response] stores a response that its arguments
    [status_code], [content_type] and [body] determine, whatever the
    struct held before: the status code; the status message, which is
    ["OK"] for 200, ["Not Found"] for 404, ["Internal Server Error"] for
    500 and ["Unknown"] for every other code; as headers the first
    [MAX_BUFFER_SIZE - 1] characters of the text
    ["HTTP/1.1 <code> <message>\r\n<content_type>\r\nContent-Length:
    <strlen(body)>\r\nConnection: close\r\nServer:
    QuickServer/1.0\r\n\r\n"], with the empty string for a NULL content
    type, which is the whole text when it is that short; the body; and
    [strlen(body)] as content length. *)
Theorem C6_build_http_response (response : http_response_t) (status_code : Z)
    (content_type : option string) (body : string) :
  strlen body < MAX_BUFFER_SIZE ->
  let text :=
    response_header_text status_code (status_message_of status_code)
      (default ""%string content_type) (strlen body) in
  (exists r,
     build_http_response (Some response) status_code content_type (Some body)
       = Ok r /\
     ExampleC.status_code r = status_code /\
     status_message r = status_message_of status_code /\
     response_headers r = truncate (Z.to_nat (MAX_BUFFER_SIZE - 1)) text /\
     (strlen text <= MAX_BUFFER_SIZE - 1 -> response_headers r = text) /\
     response_body r = body /\
     content_length r = strlen body /\
     (forall response' : http_response_t,
        build_http_response (Some response') status_code content_type
          (Some body) = Ok r)) /\
  text =
    ("HTTP/1.1 " ++ decimal status_code ++ " "
       ++ status_message_of status_code ++ CRLF
       ++ default "" content_type ++ CRLF
       ++ "Content-Length: " ++ decimal (strlen body) ++ CRLF
       ++ "Connection: close" ++ CRLF
       ++ "Server: QuickServer/1.0" ++ CRLF ++ CRLF)%string /\
  status_message_of 200 = "OK"%string /\
  status_message_of 404 = "Not Found"%string /\
  status_message_of 500 = "Internal Server Error"%string /\
  (status_code <> 200 -> status_code <> 404 -> status_code <> 500 ->
   status_message_of status_code = "Unknown"%string).
Proof.
  intros Hbody text.
  split; [|split; [reflexivity|]; repeat split; try reflexivity;
           apply status_message_of_other].
  assert (Hmsg : strlen (status_message_of status_code) < 64).
  { destruct (Z.eq_dec status_code 200) as [->|H200]; [vm_compute; reflexivity|].
    destruct (Z.eq_dec status_code 404) as [->|H404]; [vm_compute; reflexivity|].
    destruct (Z.eq_dec status_code 500) as [->|H500]; [vm_compute; reflexivity|].
    rewrite status_message_of_other by assumption. vm_compute. reflexivity. }
  unfold build_http_response, strcpy. simpl.
  rewrite (store_string_ok 64) by exact Hmsg. simpl.
  rewrite (store_string_ok MAX_BUFFER_SIZE) by exact Hbody. simpl.
  eexists. split; [reflexivity|]. simpl.
  repeat split.
  intros Hshort. apply truncate_short. unfold strlen, MAX_BUFFER_SIZE in *. lia.
Qed.

(** C6, witness: a 404 response. *)
Lemma C6_build_http_response_witness :
  exists r,
    build_http_response (Some blank_response) 404 (Some CONTENT_TYPE_JSON)
      (Some "{}"%string) = Ok r /\
    ExampleC.status_code r = 404 /\
    status_message r = "Not Found"%string /\
    content_length r = 2.
Proof.
  destruct (proj1 (C6_build_http_response blank_response 404
                     (Some CONTENT_TYPE_JSON) "{}"%string
                     ltac:(vm_compute; reflexivity)))
    as (r & Hr & Hcode & Hmsg & _ & _ & _ & Hlen & _).
  exists r. repeat split; assumption.
Defined.

(** * Further properties of [example.c] *)

(** ** Running one function body after another *)

Lemma unit_eq (u : unit) : u = tt.
Proof. destruct u. reflexivity. Qed.

Lemma exec_bind {A B : Type} (o : oracle) (p : prog A) (f : A -> prog B) :
  forall (n : nat) (g : globals),
    exec o n g (p ≫= f) =
    let '(evs, g', r) := exec o n g p in
    match r with
    | Returned a =>
        let '(evs', g'', r') := exec o (n + List.length evs) g' (f a) in
        (evs ++ evs', g'', r')
    | Faulted e => (evs, g', Faulted e)
    | Exited status => (evs, g', Exited status)
    end.
Proof.
  unfold mbind, prog_bind.
  induction p as [a|e|status|X c k IH|k IH|w k IH]; intros n g; simpl.
  - rewrite Nat.add_0_r. destruct (exec o n g (f a)) as [[evs g'] r]. reflexivity.
  - reflexivity.
  - reflexivity.
  - rewrite IH.
    destruct (exec o (S n) g (k (o n X c))) as [[evs g'] [a|e|status]];
      try reflexivity.
    simpl. rewrite ?Nat.add_succ_r.
    destruct (exec o (S (n + List.length evs)) g' (f a)) as [[evs' g''] r'].
    reflexivity.
  - apply IH.
  - apply IH.
Qed.

(** ** [create_server_socket] and the start of [main] *)

(** X1: [create_server_socket] returns the descriptor [socket] gave it, or
    -1. It closes that descriptor, once, exactly when it returns -1 after
    [socket] has succeeded, and it closes nothing else; each failure is
    reported by one call of [perror]. When it returns a descriptor, its
    calls were [socket], [setsockopt], [bind] to the port, [listen] with
    [BACKLOG] and the log line, in this order, none of them failing. *)
Theorem create_server_socket_descriptor (o : oracle) (n : nat) (g : globals)
    (port : Z) :
  let sockfd := o n Z c_socket in
  exists evs r,
    exec o n g (create_server_socket port) = (evs, g, Returned r) /\
    (r = sockfd /\ 0 <= sockfd \/ r = -1) /\
    omap closed_descriptor evs
      = (if (r =? -1) && (0 <=? sockfd) then [sockfd] else []) /\
    (r = -1 -> exists msg, omap perror_message evs = [msg]) /\
    (0 <= r ->
     exists a b c,
       0 <= a /\ 0 <= b /\ 0 <= c /\
       evs = [Event c_socket r;
              Event (c_setsockopt r) a;
              Event (c_bind r port) b;
              Event (c_listen r BACKLOG) c;
              Event (c_log_message "INFO" "Server listening on port %d"
                       [VInt port]) tt]).
Proof.
  intros sockfd. subst sockfd.
  unfold create_server_socket, perror, close, log_message.
  cbn [mbind prog_bind bind perform mret prog_ret exec].
  set (sockfd := o n Z c_socket).
  destruct (Z.ltb_spec sockfd 0) as [Hs|Hs].
  { cbn. eexists _, _. split; [reflexivity|].
    split; [right; reflexivity|].
    destruct (Z.leb_spec 0 sockfd); [lia|]. simpl.
    split; [reflexivity|]. split; [eauto | lia]. }
  assert (Hle : (0 <=? sockfd) = true) by (apply Z.leb_le; exact Hs).
  cbn [mbind prog_bind bind perform mret prog_ret exec].
  set (a := o (S n) Z (c_setsockopt sockfd)).
  destruct (Z.ltb_spec a 0) as [Ha|Ha].
  { cbn. eexists _, _. split; [reflexivity|].
    split; [right; reflexivity|]. rewrite Hle. simpl.
    split; [reflexivity|]. split; [eauto | lia]. }
  cbn [mbind prog_bind bind perform mret prog_ret exec].
  set (b := o (S (S n)) Z (c_bind sockfd port)).
  destruct (Z.ltb_spec b 0) as [Hb|Hb].
  { cbn. eexists _, _. split; [reflexivity|].
    split; [right; reflexivity|]. rewrite Hle. simpl.
    split; [reflexivity|]. split; [eauto | lia]. }
  cbn [mbind prog_bind bind perform mret prog_ret exec].
  set (c := o (S (S (S n))) Z (c_listen sockfd BACKLOG)).
  destruct (Z.ltb_spec c 0) as [Hc|Hc].
  { cbn. eexists _, _. split; [reflexivity|].
    split; [right; reflexivity|]. rewrite Hle. simpl.
    split; [reflexivity|]. split; [eauto | lia]. }
  cbn. eexists _, _. split; [reflexivity|].
  split; [left; split; [reflexivity | exact Hs]|].
  destruct (Z.eqb_spec sockfd (-1)) as [He|_]; [lia|]. simpl.
  split; [reflexivity|]. split; [lia|]. intros _.
  exists a, b, c. repeat split; try assumption.
  rewrite (unit_eq (o _ _ _)). reflexivity.
Qed.

(** Every run of [create_server_socket] returns and leaves the variables
    at file scope alone. *)
Lemma create_server_socket_returns (o : oracle) (n : nat) (g : globals)
    (port : Z) :
  exists evs fd,
    exec o n g (create_server_socket port) = (evs, g, Returned fd).
Proof.
  unfold create_server_socket, perror, close, log_message.
  cbn [mbind prog_bind bind perform mret prog_ret exec].
  destruct (o n Z c_socket <? 0); [cbn; eauto|].
  cbn [mbind prog_bind bind perform mret prog_ret exec].
  destruct (o (S n) Z _ <? 0); [cbn; eauto|].
  cbn [mbind prog_bind bind perform mret prog_ret exec].
  destruct (o (S (S n)) Z _ <? 0); [cbn; eauto|].
  cbn [mbind prog_bind bind perform mret prog_ret exec].
  destruct (o (S (S (S n))) Z _ <? 0); cbn; eauto.
Qed.

(** X2: [main] checks the port before it does anything else. With a port
    argument of 0 or less, or above 65535, its one call is the message on
    [stderr] and it returns [EXIT_FAILURE]: no signal handler is set and
    no socket is made. Otherwise it sets the handlers for [SIGINT] and
    [SIGTERM], then runs [create_server_socket] on the argument, or on
    8080 without one, stores what that returns in [server_socket], and
    goes on into the loop exactly when it is not negative; when it is,
    [main] returns [EXIT_FAILURE] after a message on [stderr]. *)
Theorem main_setup_port (o : oracle) (n : nat) (g : globals)
    (port_arg : option Z) :
  let port := default DEFAULT_PORT port_arg in
  ((exists p, port_arg = Some p /\ (p <= 0 \/ 65535 < p)) ->
   exec o n g (main_setup port_arg)
     = ([Event (c_fprintf_stderr "Invalid port number: %s" []) tt], g,
        Returned (Some EXIT_FAILURE))) /\
  (port_arg = None \/ 1 <= port <= 65535 ->
   exists evs fd,
     exec o (S (S n)) g (create_server_socket port) = (evs, g, Returned fd) /\
     exec o n g (main_setup port_arg)
       = (Event (c_signal SIGINT) tt :: Event (c_signal SIGTERM) tt :: evs ++
          (if fd <? 0
           then [Event (c_fprintf_stderr "Failed to create server socket" []) tt]
           else [Event (c_printf "QuickServer started successfully!" []) tt;
                 Event (c_printf "Serving files from current directory" []) tt;
                 Event (c_printf "Server listening on http://localhost:%d"
                          [VInt port]) tt;
                 Event (c_printf "Press Ctrl+C to stop the server" []) tt]),
          set_server_socket fd g,
          Returned (if fd <? 0 then Some EXIT_FAILURE else None))) /\
  DEFAULT_PORT = 8080.
Proof.
  intros port. split; [|split; [|reflexivity]].
  - intros (p & -> & Hp). unfold main_setup. cbn [default from_option id].
    destruct (Z.leb_spec p 0), (Z.ltb_spec 65535 p); try lia;
      cbn; rewrite (unit_eq (o _ _ _)); reflexivity.
  - intros Hvalid.
    destruct (create_server_socket_returns o (S (S n)) g port) as (evs & fd & Hsock).
    exists evs, fd. split; [exact Hsock|].
    unfold main_setup. fold port.
    assert (Hok : match port_arg with
                  | Some _ => (port <=? 0) || (65535 <? port)
                  | None => false
                  end = false).
    { destruct port_arg as [p|]; [|reflexivity].
      destruct Hvalid as [|Hvalid]; [discriminate|].
      destruct (Z.leb_spec port 0), (Z.ltb_spec 65535 port);
        first [reflexivity | lia]. }
    rewrite Hok.
    cbn [mbind prog_bind bind perform mret prog_ret exec].
    change (bind (create_server_socket port) ?f)
      with (create_server_socket port ≫= f).
    rewrite exec_bind, Hsock.
    cbn [mbind prog_bind bind perform mret prog_ret exec read write
         set_server_socket server_socket].
    rewrite !(unit_eq (o _ _ _)).
    destruct (fd <? 0); cbn; rewrite !(unit_eq (o _ _ _)); reflexivity.
Qed.

(** ** The exit status of the process *)









(** ** The socket [accept] is called on *)

Lemma accept_descriptor_none (e : event) :
  is_accept e = false -> accept_descriptor e = None.
Proof. destruct e as [X c x]. destruct c; simpl; congruence. Qed.

Lemma socket_of_snoc (tr : list event) (e : event) (fd : Z) :
  socket_of tr = Some fd -> socket_of (tr ++ [e]) = Some fd.
Proof.
  unfold socket_of. rewrite omap_app.
  destruct (omap socket_answer tr); [discriminate|]. simpl. auto.
Qed.

Lemma accepts_on_socket_snoc (tr : list event) (e : event) (g : globals) :
  accepts_on_socket tr g -> is_accept e = false ->
  accepts_on_socket (tr ++ [e]) g.
Proof.
  unfold accepts_on_socket. intros H He.
  rewrite omap_app. simpl. rewrite (accept_descriptor_none e He), app_nil_r.
  eapply Forall_impl; [exact H|]. intros fd [Hs Hfd].
  split; [apply socket_of_snoc, Hs | exact Hfd].
Qed.

Lemma accepts_on_socket_vars (tr : list event) (g g' : globals) :
  accepts_on_socket tr g -> accepts_on_socket tr g'.
Proof. exact id. Qed.

Lemma listening_snoc (tr : list event) (e : event) (g : globals) :
  listening tr g -> is_accept e = false -> listening (tr ++ [e]) g.
Proof.
  intros (H & Hs & Hfd) He. split; [eapply accepts_on_socket_snoc; eauto|].
  split; [apply socket_of_snoc, Hs | exact Hfd].
Qed.

Lemma listening_app (evs : list event) :
  forall (tr : list event) (g : globals),
    listening tr g -> forallb (fun e => negb (is_accept e)) evs = true ->
    listening (tr ++ evs) g.
Proof.
  induction evs as [|e evs IH]; intros tr g H Hevs.
  - now rewrite app_nil_r.
  - simpl in Hevs. apply andb_prop in Hevs as [He Hevs].
    apply negb_true_iff in He.
    change (e :: evs) with ([e] ++ evs). rewrite app_assoc.
    apply IH; [apply listening_snoc; assumption | exact Hevs].
Qed.

Lemma listening_accept (tr : list event) (g : globals)
    (answer : Z * Z * sockaddr_in) :
  listening tr g ->
  listening (tr ++ [Event (c_accept (server_socket g)) answer]) g.
Proof.
  intros (H & Hs & Hfd). split; [|split; [apply socket_of_snoc, Hs | exact Hfd]].
  unfold accepts_on_socket in *. rewrite omap_app. simpl.
  apply Forall_app. split.
  - eapply Forall_impl; [exact H|]. intros fd [Hs' Hfd'].
    split; [apply socket_of_snoc, Hs' | exact Hfd'].
  - constructor; [|constructor].
    split; [apply socket_of_snoc, Hs | exact Hfd].
Qed.

Lemma quiet_no_accept (evs : list event) :
  forallb quiet evs = true -> forallb (fun e => negb (is_accept e)) evs = true.
Proof.
  induction evs as [|e evs IH]; [reflexivity|]. simpl.
  intros [He Hevs]%andb_prop. rewrite (IH Hevs), andb_true_r.
  destruct e as [X c x]. destruct c; simpl in *; congruence.
Qed.

(** Steps through a function body, keeping the invariant. *)
Ltac accept_steps :=
  repeat first
    [ progress cbn [wp bind mbind prog_bind mret prog_ret perform read write negb]
    | match goal with
      | |- _ /\ _ => split
      | |- forall _, _ => intro
      | |- wp _ _ _ _ _ ?p =>
          match p with context [if ?b then _ else _] => destruct b eqn:? end
      | |- True => exact Logic.I
      | |- any_exit _ _ _ => exact Logic.I
      | |- accepts_on_socket _ _ =>
          solve [ repeat first
                    [ eapply accepts_on_socket_vars; eassumption
                    | eapply accepts_on_socket_snoc; [|reflexivity] ] ]
      | |- listening _ _ =>
          solve [ repeat first
                    [ eassumption
                    | apply listening_snoc; [|reflexivity] ] ]
      end ].

Lemma main_setup_accept (port_arg : option Z) :
  accept_inv [] initial_globals (in_setup (main_setup port_arg)).
Proof.
  assert (H0 : forall tr g, omap accept_descriptor tr = [] -> accepts_on_socket tr g).
  { intros tr g H. unfold accepts_on_socket. rewrite H. constructor. }
  unfold accept_inv, main_setup, create_server_socket, perror, close, log_message.
  destruct port_arg as [port|]; accept_steps;
    try (apply H0; reflexivity); try discriminate.
  all: cbn [set_server_socket server_socket] in *.
  all: try match goal with
           | H : (-1 <? 0) = false |- _ => discriminate H
           end.
  all: split; [apply H0; reflexivity|]; split; [reflexivity|];
       cbn [server_socket set_server_socket]; lia.
Qed.

Lemma loop_iteration_accept (request : http_request_t) tr g :
  listening tr g -> accept_inv tr g (in_loop (loop_iteration request)).
Proof.
  intros Hl. unfold accept_inv, loop_iteration, perror.
  cbn [wp bind mbind prog_bind mret prog_ret perform read write].
  split; [exact Hl|].
  destruct (server_running g =? 0); [solve [accept_steps]|].
  cbn [wp]. split; [exact Hl|].
  intros [[client_socket errno] client_addr].
  pose proof (listening_accept tr g (client_socket, errno, client_addr) Hl) as Hl'.
  destruct (client_socket <? 0).
  - destruct (errno =? EINTR); accept_steps.
  - apply wp_bind. apply handle_client_connection_wp.
    + intros evs Hevs. apply listening_app; [exact Hl' | apply quiet_no_accept, Hevs].
    + intros evs (calls & -> & Hquiet)%handler_run_closes.
      assert (Hdone : listening
                        ((tr ++ [Event (c_accept (server_socket g))
                                   (client_socket, errno, client_addr)])
                         ++ calls ++ [Event (c_close client_socket) tt]) g).
      { apply listening_app; [exact Hl'|].
        rewrite forallb_app, (quiet_no_accept calls Hquiet). reflexivity. }
      split; [exact Hdone|]. cbn [wp mret prog_ret]. split; exact Hdone.
Qed.

Lemma cleanup_and_exit_accept (signal : Z) tr g interrupted :
  signal <> 0 ->
  accepts_on_socket tr g ->
  accept_inv tr g (in_signal_handler (cleanup_and_exit signal) interrupted).
Proof.
  intros Hs H. unfold accept_inv, cleanup_and_exit, close.
  destruct (Z.eqb_spec signal 0) as [|_]; [contradiction|].
  accept_steps.
Qed.

Lemma main_exit_accept tr g :
  accepts_on_socket tr g -> accept_inv tr g (in_exit main_exit).
Proof.
  intros H. unfold accept_inv, main_exit, cleanup_and_exit, close.
  change (negb (0 =? 0)) with false. accept_steps.
Qed.

Lemma accept_inv_accepts tr g c : accept_inv tr g c -> accepts_on_socket tr g.
Proof.
  destruct c; simpl; intros H; try (apply wp_invariant in H); try tauto.
  apply H.
Qed.

Lemma accept_inv_step (c c' : config) :
  step c c' ->
  accept_inv (trace c) (vars c) (ctl c) ->
  accept_inv (trace c') (vars c') (ctl c').
Proof.
  destruct 1 as [p evs g' p' g tr Hp | p evs g' p' g tr Hp
                | p evs g' p' g tr Hp | p evs g' p' interrupted g tr Hp
                | c c' g tr Hfin | signal c g tr Hrun Hsig];
    cbn [trace vars ctl accept_inv].
  - apply wp_pstep, Hp.
  - apply wp_pstep, Hp.
  - apply wp_pstep, Hp.
  - apply wp_pstep, Hp.
  - destruct Hfin; cbn [accept_inv wp]; try tauto.
    + intros [_ Hl]. apply loop_iteration_accept, Hl. reflexivity.
    + intros [_ Hl]. apply loop_iteration_accept, Hl.
    + intros [Hl _]. apply main_exit_accept, Hl.
    + intros [Hl _]. apply Hl.
  - intros H. apply (cleanup_and_exit_accept signal tr g c).
    + unfold SIGINT, SIGTERM in Hsig. lia.
    + eapply accept_inv_accepts, H.
Qed.

(** X24: [accept] is only ever called on the listening socket. In every
    state the process can reach, each call of [accept] made so far was on
    the descriptor that the call of [socket] returned, and that
    descriptor is not negative. *)
Theorem accept_on_listening_socket (port_arg : option Z) (c : config) (fd : Z) :
  reachable (initial_config port_arg) c ->
  fd ∈ omap accept_descriptor (trace c) ->
  socket_of (trace c) = Some fd /\ 0 <= fd.
Proof.
  intros Hreach Hfd.
  assert (Hinv : accept_inv (trace c) (vars c) (ctl c)).
  { clear Hfd. induction Hreach as [|c c' _ IH Hstep].
    - apply main_setup_accept.
    - eapply accept_inv_step; eassumption. }
  apply accept_inv_accepts in Hinv. unfold accepts_on_socket in Hinv.
  rewrite Forall_forall in Hinv. apply Hinv, Hfd.
Qed.

(** X24, witness: the first forty steps of the sample world, where the
    listening socket is descriptor 3. *)
Lemma accept_on_listening_socket_witness :
  socket_of (trace (sample_run 40)) = Some 3 /\ 0 <= 3.
Proof.
  apply (accept_on_listening_socket None (sample_run 40) 3).
  - apply run_reachable, reachable_start.
  - vm_compute. apply list_elem_of_here.
Defined.

(** ** [cleanup_and_exit] and signals *)

(** The run of [cleanup_and_exit], in full. *)
Lemma cleanup_and_exit_run (o : oracle) (n : nat) (g : globals) (signal : Z) :
  exec o n g (cleanup_and_exit signal) =
  ((if 0 <=? server_socket g then [Event (c_close (server_socket g)) tt] else [])
     ++ [Event (c_printf "QuickServer stopped gracefully." []) tt],
   (if 0 <=? server_socket g
    then set_server_socket (-1) (set_server_running 0 g)
    else set_server_running 0 g),
   if signal =? 0 then Returned tt else Exited EXIT_SUCCESS).
Proof.
  unfold cleanup_and_exit, close.
  cbn [mbind prog_bind bind perform mret prog_ret exec read write
       set_server_running server_socket].
  destruct (0 <=? server_socket g), (signal =? 0); cbn;
    rewrite !(unit_eq (o _ _ _)); reflexivity.
Qed.

(** X4: [cleanup_and_exit] closes the listening socket at most once,
    however often it runs. It clears [server_running], closes
    [server_socket] when that is not negative and leaves it negative, and
    leaves [clients] and [client_count] alone; it returns for the signal
    value 0 and ends the process with [EXIT_SUCCESS] for any other. A
    second run, from the variables the first one left, closes nothing. *)
Theorem cleanup_and_exit_closes_once (o : oracle) (n : nat) (g : globals)
    (signal : Z) :
  exists evs g',
    exec o n g (cleanup_and_exit signal)
      = (evs, g', if signal =? 0 then Returned tt else Exited EXIT_SUCCESS) /\
    omap closed_descriptor evs
      = (if 0 <=? server_socket g then [server_socket g] else []) /\
    server_running g' = 0 /\
    server_socket g' < 0 /\
    clients g' = clients g /\
    client_count g' = client_count g /\
    forall (o' : oracle) (n' : nat) (signal' : Z),
      omap closed_descriptor
        (calls_of (exec o' n' g' (cleanup_and_exit signal'))) = [].
Proof.
  rewrite cleanup_and_exit_run. eexists _, _. split; [reflexivity|].
  destruct (Z.leb_spec 0 (server_socket g)) as [Hpos|Hneg];
    (split; [reflexivity|]); (split; [reflexivity|]);
    (split; [simpl; lia|]); (split; [reflexivity|]); (split; [reflexivity|]);
    intros o' n' signal'; rewrite cleanup_and_exit_run;
    cbn [calls_of fst snd set_server_socket set_server_running server_socket].
  - reflexivity.
  - destruct (Z.leb_spec 0 (server_socket g)); [lia | reflexivity].
Qed.






(** ** The lines of a request *)

Lemma split_tokens_token (delim s : string) :
  (split_tokens delim s).1 = (split_token delim s).1 /\
  (split_tokens delim s).2 = tokens delim (split_token delim s).2.
Proof.
  induction s as [|c s [IH1 IH2]]; [split; reflexivity|].
  simpl.
  destruct (split_tokens delim s) as [t ts] eqn:Et,
           (split_token delim s) as [tok rest] eqn:Ek.
  simpl in IH1, IH2. subst t ts.
  destruct (strchr delim c); simpl; [|split; reflexivity].
  split; [reflexivity|]. unfold tokens. rewrite Et. reflexivity.
Qed.

Lemma tokens_skip_delim (delim s : string) :
  tokens delim (skip_delim delim s) = tokens delim s.
Proof.
  induction s as [|c s IH]; [reflexivity|]. simpl.
  destruct (strchr delim c) eqn:E; [|reflexivity].
  rewrite IH. unfold tokens. simpl.
  destruct (split_tokens delim s) as [t ts]. rewrite E. reflexivity.
Qed.

(** [strtok_r] walks through [tokens]. *)
Lemma strtok_r_tokens (str : option string) (delim saveptr : string) :
  let s := match str with Some s => s | None => saveptr end in
  match strtok_r str delim saveptr with
  | (None, _) => tokens delim s = []
  | (Some tok, rest) => tokens delim s = tok :: tokens delim rest
  end.
Proof.
  intros s. unfold strtok_r. fold s.
  rewrite <- (tokens_skip_delim delim s).
  destruct (skip_delim delim s) as [|c s'] eqn:E; [reflexivity|].
  apply skip_delim_head in E.
  pose proof (split_tokens_token delim (String c s')) as [H1 H2].
  unfold tokens at 1.
  destruct (split_tokens delim (String c s')) as [t ts].
  destruct (split_token delim (String c s')) as [tok rest] eqn:Es.
  simpl in H1, H2. subst t ts.
  simpl in Es. rewrite E in Es.
  destruct (split_token delim s') as [tok' rest']. injection Es as <- <-.
  reflexivity.
Qed.

(** After a token, the rest is empty or a delimiter was passed over. *)
Lemma split_token_rest (delim s tok rest : string) :
  split_token delim s = (tok, rest) ->
  rest = ""%string \/
  (String.length tok + String.length rest + 1 <= String.length s)%nat.
Proof.
  revert tok rest. induction s as [|c s IH]; simpl; intros tok rest H.
  - injection H as <- <-. left. reflexivity.
  - destruct (strchr delim c).
    + injection H as <- <-. right. simpl. lia.
    + destruct (split_token delim s) as [t r] eqn:E.
      injection H as <- <-. destruct (IH _ _ eq_refl) as [->|Hlen].
      * left. reflexivity.
      * right. simpl. lia.
Qed.

Lemma strtok_r_rest (str : option string) (delim saveptr tok rest : string) :
  strtok_r str delim saveptr = (Some tok, rest) ->
  rest = ""%string \/
  (String.length tok + String.length rest + 1 <=
     String.length (match str with Some s => s | None => saveptr end))%nat.
Proof.
  unfold strtok_r.
  set (s := match str with Some s => s | None => saveptr end).
  pose proof (skip_delim_length delim s) as Hlen.
  destruct (skip_delim delim s) as [|c s'] eqn:E; [discriminate|].
  destruct (split_token delim (String c s')) as [t r] eqn:Es.
  intros H. injection H as <- <-.
  apply split_token_rest in Es as [->|Hr]; [left; reflexivity|].
  right. lia.
Qed.

(** The loop of the parser, entered with [in_headers] set. *)
Lemma parse_lines_in_headers (fuel : nat) :
  forall (saveptr : string) (request : http_request_t),
    (String.length saveptr < fuel)%nat ->
    strlen (headers request) < MAX_BUFFER_SIZE ->
    parse_lines fuel saveptr true request
      = Ok (set_headers
              (fold_left append_header (tokens CRLF saveptr) (headers request))
              request).
Proof.
  induction fuel as [|fuel IH]; intros saveptr request Hfuel Hh; [lia|].
  simpl.
  pose proof (strtok_r_tokens None CRLF saveptr) as Htok. cbv zeta in Htok.
  destruct (strtok_r None CRLF saveptr) as [[line|] saveptr'] eqn:Etok.
  2: { rewrite Htok. simpl. destruct request; reflexivity. }
  rewrite Htok. simpl.
  apply strtok_r_token in Etok as [Hline Hlen].
  assert (Hfuel' : (String.length saveptr' < fuel)%nat)
    by (unfold strlen in Hline; lia).
  destruct (Z.eqb_spec (strlen line) 0) as [Hz|_]; [lia|].
  unfold append_header at 2.
  destruct (Z.ltb_spec (strlen (headers request) + strlen line + 2) MAX_BUFFER_SIZE)
    as [Hfit|_].
  - unfold strcat.
    rewrite store_string_ok by (rewrite strlen_app; lia).
    simpl.
    rewrite store_string_ok
      by (rewrite !strlen_app; unfold strlen at 3; simpl; lia).
    simpl. rewrite IH; [reflexivity | exact Hfuel' |].
    simpl. rewrite !strlen_app. unfold strlen at 3. simpl. lia.
  - rewrite IH; [reflexivity | exact Hfuel' | exact Hh].
Qed.

Lemma string_app_nil_r (s : string) : (s ++ "")%string = s.
Proof. induction s as [|c s IH]; simpl; [reflexivity | now rewrite IH]. Qed.

Lemma string_app_assoc (a b c : string) :
  ((a ++ b) ++ c)%string = (a ++ (b ++ c))%string.
Proof. induction a as [|x a IH]; simpl; [reflexivity | now rewrite IH]. Qed.

(** Lines that fit are all appended. *)
Lemma fold_append_header (k : nat) :
  forall (rest h : string),
    (String.length rest < k)%nat ->
    rest = ""%string \/ strlen h + strlen rest + 2 < MAX_BUFFER_SIZE ->
    fold_left append_header (tokens CRLF rest) h
      = (h ++ join_lines (tokens CRLF rest))%string.
Proof.
  induction k as [|k IH]; intros rest h Hk Hfit; [lia|].
  pose proof (strtok_r_tokens None CRLF rest) as Htok. cbv zeta in Htok.
  destruct (strtok_r None CRLF rest) as [[tok|] rest'] eqn:Etok.
  2: { rewrite Htok. simpl. now rewrite string_app_nil_r. }
  rewrite Htok. simpl.
  pose proof (strtok_r_token _ _ _ _ _ Etok) as [Hpos Hlen].
  pose proof (strtok_r_rest _ _ _ _ _ Etok) as Hrest.
  destruct Hfit as [->|Hfit]; [discriminate|].
  unfold strlen in *.
  assert (Happ : append_header h tok = ((h ++ tok) ++ String LF "")%string).
  { unfold append_header, strlen.
    destruct (Z.ltb_spec (Z.of_nat (String.length h) + Z.of_nat (String.length tok) + 2)
                MAX_BUFFER_SIZE); [reflexivity | lia]. }
  rewrite Happ, IH.
  - rewrite !string_app_assoc. reflexivity.
  - lia.
  - destruct Hrest as [->|Hrest]; [left; reflexivity|]. right.
    unfold strlen. rewrite !string_length_app. simpl. lia.
Qed.

(** ** The fields of the request line *)

Lemma string_forall_app (P : ascii -> bool) (a b : string) :
  string_forall P (a ++ b) = string_forall P a && string_forall P b.
Proof.
  induction a as [|c a IH]; simpl; [reflexivity|].
  rewrite IH. now rewrite andb_assoc.
Qed.

Lemma string_forall_impl (P Q : ascii -> bool) (s : string) :
  (forall c, P c = true -> Q c = true) ->
  string_forall P s = true -> string_forall Q s = true.
Proof.
  intros HPQ. induction s as [|c s IH]; simpl; [reflexivity|].
  intros [Hc Hs]%andb_prop. rewrite (HPQ c Hc), (IH Hs). reflexivity.
Qed.

Lemma skip_space_head (s : string) (c : ascii) (s' : string) :
  skip_space s = String c s' -> isspace c = false.
Proof.
  induction s as [|d s IH]; simpl; [discriminate|].
  destruct (isspace d) eqn:E; [exact IH|].
  intros H. injection H as <- <-. exact E.
Qed.

Lemma read_nonspace_no_space (width : nat) :
  forall s field rest,
    read_nonspace width s = (field, rest) -> no_space field = true.
Proof.
  induction width as [|w IH]; intros s field rest H; simpl in H.
  - injection H as <- <-. reflexivity.
  - destruct s as [|c s]; [injection H as <- <-; reflexivity|].
    destruct (isspace c) eqn:Ec; [injection H as <- <-; reflexivity|].
    destruct (read_nonspace w s) as [f r] eqn:E.
    injection H as <- <-. unfold no_space. simpl. rewrite Ec. simpl.
    eapply IH, E.
Qed.

(** A conversion of positive width assigns a field that is not empty and
    holds no white space. *)
Lemma scan_fields_no_space (fmt : list directive) :
  Forall (fun w => (0 < w)%nat) (widths fmt) ->
  forall (input : string) (i : nat) (field : string),
    scan_fields fmt input !! i = Some field ->
    field <> ""%string /\ no_space field = true.
Proof.
  induction fmt as [|d fmt IH]; intros Hw input i field H; simpl in H.
  - discriminate.
  - destruct d as [width|]; simpl in Hw.
    + apply Forall_cons in Hw as [Hwidth Hw].
      destruct (skip_space input) as [|c s] eqn:Es; [discriminate|].
      apply skip_space_head in Es.
      destruct (read_nonspace width (String c s)) as [f r] eqn:E.
      destruct i as [|i]; simpl in H.
      * injection H as <-. split; [|eapply read_nonspace_no_space, E].
        destruct width as [|w]; [lia|]. simpl in E. rewrite Es in E.
        destruct (read_nonspace w s). injection E as <- _. discriminate.
      * eapply IH; eauto.
    + eapply IH; eauto.
Qed.

(** Reading back a field that was written without white space. *)
Lemma read_nonspace_app (field : string) :
  forall (width : nat) (rest : string),
    no_space field = true ->
    (String.length field <= width)%nat ->
    skip_space rest <> rest \/ rest = ""%string ->
    read_nonspace width (field ++ rest) = (field, rest).
Proof.
  induction field as [|c field IH]; intros width rest Hf Hw Hrest; simpl.
  - destruct width as [|w]; [reflexivity|]. simpl.
    destruct rest as [|d rest]; [reflexivity|].
    destruct Hrest as [Hrest|Hrest]; [|discriminate].
    simpl in Hrest. destruct (isspace d); [reflexivity | congruence].
  - destruct width as [|w]; [simpl in Hw; lia|]. simpl.
    unfold no_space in Hf. simpl in Hf. apply andb_prop in Hf as [Hc Hf].
    apply negb_true_iff in Hc. rewrite Hc.
    rewrite IH; [reflexivity | exact Hf | simpl in Hw; lia | exact Hrest].
Qed.

Lemma skip_space_field (field rest : string) :
  field <> ""%string -> no_space field = true ->
  skip_space (field ++ rest) = (field ++ rest)%string.
Proof.
  destruct field as [|c field]; [congruence|]. intros _.
  unfold no_space. simpl. intros [Hc _]%andb_prop.
  apply negb_true_iff in Hc. rewrite Hc. reflexivity.
Qed.

Lemma scan_request_line (m p v : string) :
  m <> ""%string -> p <> ""%string -> v <> ""%string ->
  no_space m = true -> no_space p = true -> no_space v = true ->
  (String.length m <= 15)%nat ->
  (String.length p <= 255)%nat ->
  (String.length v <= 15)%nat ->
  scan_fields request_line_format (request_line m p v) = [m; p; v].
Proof.
  intros Hm Hp Hv Sm Sp Sv Lm Lp Lv.
  unfold request_line_format, request_line.
  assert (Hsp : forall s, s <> ""%string -> no_space s = true ->
                  forall r, skip_space (" " ++ s ++ r) <> (" " ++ s ++ r)%string).
  { intros s Hs Ss r. simpl. rewrite (skip_space_field s r Hs Ss).
    intros H. apply (f_equal String.length) in H. simpl in H. lia. }
  cbn [scan_fields].
  rewrite (skip_space_field m _ Hm Sm).
  destruct (m ++ " " ++ p ++ " " ++ v)%string as [|c0 s0] eqn:E0.
  { destruct m; [congruence | discriminate]. }
  rewrite <- E0.
  rewrite (read_nonspace_app m 15 _ Sm Lm) by (left; apply Hsp; assumption).
  change (skip_space (" " ++ p ++ " " ++ v))
    with (skip_space (p ++ " " ++ v)).
  rewrite !(skip_space_field p _ Hp Sp).
  destruct (p ++ " " ++ v)%string as [|c1 s1] eqn:E1.
  { destruct p; [congruence | discriminate]. }
  rewrite <- E1.
  rewrite (read_nonspace_app p 255 _ Sp Lp).
  2: { left. rewrite <- (string_app_nil_r v) at 1 2. apply Hsp; assumption. }
  change (skip_space (" " ++ v)) with (skip_space v).
  rewrite <- (string_app_nil_r v) at 1 2.
  rewrite !(skip_space_field v _ Hv Sv).
  destruct (v ++ "")%string as [|c2 s2] eqn:E2.
  { destruct v; [congruence | discriminate]. }
  rewrite <- E2.
  rewrite (read_nonspace_app v 15 _ Sv Lv) by (right; reflexivity).
  rewrite string_app_nil_r. reflexivity.
Qed.

Lemma is_field_spec (width : nat) (s : string) :
  is_field width s = true ->
  s <> ""%string /\ no_space s = true /\ (String.length s <= width)%nat.
Proof.
  unfold is_field. intros [[H0 Hw]%andb_prop Hs]%andb_prop.
  apply Nat.ltb_lt in H0. apply Nat.leb_le in Hw.
  split; [intros ->; simpl in H0; lia | split; assumption].
Qed.

Lemma scan_request_line_fields (m p v : string) :
  is_field 15 m = true -> is_field 255 p = true -> is_field 15 v = true ->
  scan_fields request_line_format (request_line m p v) = [m; p; v].
Proof.
  intros (? & ? & ?)%is_field_spec (? & ? & ?)%is_field_spec
         (? & ? & ?)%is_field_spec.
  apply scan_request_line; assumption.
Qed.

(** White space includes the two line delimiters. *)
Lemma no_space_no_crlf (s : string) :
  no_space s = true ->
  string_forall (fun c => negb (strchr CRLF c)) s = true.
Proof.
  apply string_forall_impl. intros c Hc. simpl.
  destruct (Ascii.eqb_spec c CR) as [->|_]; [discriminate|].
  destruct (Ascii.eqb_spec c LF) as [->|_]; [discriminate|].
  reflexivity.
Qed.

Lemma split_token_app (delim line : string) (d : ascii) (rest : string) :
  string_forall (fun c => negb (strchr delim c)) line = true ->
  strchr delim d = true ->
  split_token delim (line ++ String d rest)%string = (line, rest).
Proof.
  intros Hline Hd. induction line as [|c line IH]; simpl.
  - rewrite Hd. reflexivity.
  - simpl in Hline. apply andb_prop in Hline as [Hc Hline].
    apply negb_true_iff in Hc. rewrite Hc, (IH Hline). reflexivity.
Qed.

Lemma strtok_r_line (delim line : string) (d : ascii) (rest saveptr : string) :
  line <> ""%string ->
  string_forall (fun c => negb (strchr delim c)) line = true ->
  strchr delim d = true ->
  strtok_r (Some (line ++ String d rest)%string) delim saveptr
    = (Some line, rest).
Proof.
  intros Hne Hline Hd. unfold strtok_r.
  destruct line as [|c line]; [congruence|].
  pose proof (split_token_app delim (String c line) d rest Hline Hd) as Hsplit.
  simpl in Hline. apply andb_prop in Hline as [Hc _].
  apply negb_true_iff in Hc.
  simpl skip_delim. rewrite Hc.
  change (String c (line ++ String d rest))
    with (String c line ++ String d rest)%string.
  rewrite Hsplit. reflexivity.
Qed.

Lemma request_line_no_crlf (m p v : string) :
  is_field 15 m = true -> is_field 255 p = true -> is_field 15 v = true ->
  request_line m p v <> ""%string /\
  string_forall (fun c => negb (strchr CRLF c)) (request_line m p v) = true.
Proof.
  intros (Hm & Sm & _)%is_field_spec (_ & Sp & _)%is_field_spec
         (_ & Sv & _)%is_field_spec.
  split.
  - unfold request_line. destruct m; [congruence | discriminate].
  - unfold request_line. rewrite !string_forall_app.
    rewrite (no_space_no_crlf m Sm), (no_space_no_crlf p Sp),
      (no_space_no_crlf v Sv). reflexivity.
Qed.

Lemma tokens_delim (delim : string) (d : ascii) (s : string) :
  strchr delim d = true -> tokens delim (String d s) = tokens delim s.
Proof.
  intros Hd. unfold tokens. simpl.
  destruct (split_tokens delim s) as [t ts]. rewrite Hd. reflexivity.
Qed.

Lemma split_token_whole (delim line : string) :
  string_forall (fun c => negb (strchr delim c)) line = true ->
  split_token delim line = (line, ""%string).
Proof.
  induction line as [|c line IH]; simpl; [reflexivity|].
  intros [Hc Hline]%andb_prop. apply negb_true_iff in Hc.
  rewrite Hc, (IH Hline). reflexivity.
Qed.

(** The first call of [strtok_r] on a line and what follows it. *)
Lemma strtok_r_first_line (line tail : string) :
  line <> ""%string ->
  string_forall (fun c => negb (strchr CRLF c)) line = true ->
  ends_line tail = true ->
  exists saveptr,
    strtok_r (Some (line ++ tail)%string) CRLF "" = (Some line, saveptr) /\
    tokens CRLF saveptr = tokens CRLF tail /\
    (saveptr = ""%string \/ (String.length saveptr < String.length tail)%nat).
Proof.
  intros Hne Hline Htail. destruct tail as [|d rest].
  - exists ""%string. rewrite string_app_nil_r.
    split; [|split; [reflexivity | left; reflexivity]].
    unfold strtok_r. destruct line as [|c line]; [congruence|].
    pose proof (split_token_whole CRLF (String c line) Hline) as Hsplit.
    cbn [string_forall] in Hline. apply andb_prop in Hline as [Hc _].
    apply negb_true_iff in Hc. cbn [skip_delim]. rewrite Hc, Hsplit.
    reflexivity.
  - exists rest. split; [apply strtok_r_line; assumption|].
    split; [symmetry; apply tokens_delim, Htail | right; simpl; lia].
Qed.

(** ** The runs of the parser *)

Section ParserFacts.

#[local] Arguments sscanf : simpl never.
#[local] Arguments scan_fields : simpl never.
#[local] Arguments strtok_r : simpl never.
#[local] Arguments store_request_line : simpl never.
#[local] Arguments parse_lines : simpl never.

(** The runs of [parse_http_request] on two valid pointers, in full. *)
Lemma parse_http_request_run (o : oracle) (n : nat) (g : globals)
    (raw : string) (request : http_request_t) :
  exec o n g (parse_http_request (Some raw) (Some request)) =
  if o n bool (c_malloc (strlen raw + 1)) then
    match strtok_r (Some raw) CRLF "" with
    | (None, _) =>
        ([Event (c_malloc (strlen raw + 1)) true; Event c_free tt], g,
         Returned (-1, Some request))
    | (Some line, saveptr) =>
        let fs := scan_fields request_line_format line in
        let request' := with_request_line fs request in
        if (List.length fs =? 3)%nat then
          ([Event (c_malloc (strlen raw + 1)) true; Event c_free tt], g,
           Returned (0, Some (set_headers
                                (fold_left append_header (tokens CRLF saveptr) "")
                                (set_body "" request'))))
        else
          ([Event (c_malloc (strlen raw + 1)) true; Event c_free tt], g,
           Returned (-1, Some request'))
    end
  else
    ([Event (c_malloc (strlen raw + 1)) false], g, Returned (-1, Some request)).
Proof.
  unfold parse_http_request, strdup.
  cbn [mbind prog_bind bind perform mret prog_ret exec].
  destruct (o n bool (c_malloc (strlen raw + 1))) eqn:Hm; [|reflexivity].
  destruct (strtok_r (Some raw) CRLF "") as [[line|] saveptr] eqn:Etok.
  2: { cbn. rewrite (unit_eq (o _ _ _)). reflexivity. }
  pose proof (sscanf_fields line request_line_format) as Hfields.
  pose proof (sscanf_assigned line request_line_format 3 ltac:(lia)) as Hassigned.
  destruct (sscanf line request_line_format) as [assigned fields] eqn:Escan.
  cbn [fst snd] in Hfields, Hassigned. subst fields.
  destruct (store_request_line_scanned line request)
    as (r1 & Hstore & Hm1 & Hp1 & Hv1 & Hh1 & Hb1 & _).
  assert (Hr1 : r1 = with_request_line (scan_fields request_line_format line) request).
  { destruct r1; unfold with_request_line; simpl in *; congruence. }
  rewrite Hstore. cbv zeta. rewrite <- Hr1.
  cbn [lift mbind prog_bind bind].
  destruct (Z.eqb_spec assigned 3) as [H3|H3].
  - apply Hassigned in H3 as Hlen. rewrite Hlen. cbn [Nat.eqb negb].
    change (strcpy MAX_BUFFER_SIZE "") with (@Ok string ""%string).
    cbn [lift mbind prog_bind bind].
    rewrite parse_lines_in_headers; [|lia|reflexivity].
    cbn. rewrite (unit_eq (o _ _ _)). destruct r1; reflexivity.
  - assert (Hlen : List.length (scan_fields request_line_format line) <> 3%nat)
      by (intros H; apply Hassigned in H; contradiction).
    destruct (Nat.eqb_spec (List.length (scan_fields request_line_format line)) 3);
      [contradiction|].
    cbn. rewrite (unit_eq (o _ _ _)). reflexivity.
Qed.

(** [strtok_r] with a string to start on ignores the save pointer. *)
Lemma first_line_tokens (raw line saveptr : string) :
  strtok_r (Some raw) CRLF "" = (Some line, saveptr) ->
  tokens CRLF raw = line :: tokens CRLF saveptr.
Proof.
  intros H. pose proof (strtok_r_tokens (Some raw) CRLF "") as Htok.
  cbv zeta in Htok. rewrite H in Htok. exact Htok.
Qed.

Lemma scan_fields_at_most_three (line : string) :
  (List.length (scan_fields request_line_format line) <= 3)%nat.
Proof. apply (scan_fields_length request_line_format line). Qed.

(** The run of the parser on a request that starts with a request line
    of three fields that fit their arrays. *)
Lemma parse_request_line_run (o : oracle) (n : nat) (g : globals)
    (m p v tail : string) (request : http_request_t) :
  let raw := (request_line m p v ++ tail)%string in
  is_field 15 m = true -> is_field 255 p = true -> is_field 15 v = true ->
  ends_line tail = true ->
  strlen raw < MAX_BUFFER_SIZE ->
  o n bool (c_malloc (strlen raw + 1)) = true ->
  exec o n g (parse_http_request (Some raw) (Some request))
    = ([Event (c_malloc (strlen raw + 1)) true; Event c_free tt], g,
       Returned (0, Some {| method := m; path := p; version := v;
                            headers := join_lines (tokens CRLF tail);
                            body := "" |})).
Proof.
  intros raw Hm Hp Hv Htail Hraw Hmalloc.
  rewrite parse_http_request_run, Hmalloc.
  destruct (request_line_no_crlf m p v Hm Hp Hv) as [Hne Hline].
  destruct (strtok_r_first_line (request_line m p v) tail Hne Hline Htail)
    as (saveptr & Htok & Htokens & Hlen).
  fold raw in Htok. rewrite Htok. cbv zeta.
  rewrite (scan_request_line_fields m p v Hm Hp Hv).
  cbn [List.length Nat.eqb].
  rewrite (fold_append_header (S (String.length saveptr))), Htokens;
    [reflexivity | lia |].
  destruct Hlen as [->|Hlen]; [left; reflexivity|].
  right. unfold raw in Hraw. rewrite strlen_app in Hraw.
  assert (0 < strlen (request_line m p v)).
  { unfold strlen. destruct (request_line m p v); [congruence | simpl; lia]. }
  unfold strlen, MAX_BUFFER_SIZE in *. cbn [String.length Z.of_nat]. lia.
Qed.

(** X6: a request line that is written is read back. For a request that
    starts with a method of at most 15 characters, one space, a path of at
    most 255 characters, one space and a version of at most 15
    characters, none of them empty or with white space in it, and goes on
    with nothing or with a CR or LF, and that is shorter than
    [MAX_BUFFER_SIZE]: when the copy can be allocated,
    [parse_http_request] allocates it, frees it and returns 0, with
    exactly these three fields in the struct, the lines that follow in
    [headers], each ended by a line feed, and an empty [body], whatever
    the struct held before. *)
Theorem parse_http_request_round_trip (o : oracle) (n : nat) (g : globals)
    (m p v tail : string) (request : http_request_t) :
  let raw := (request_line m p v ++ tail)%string in
  is_field 15 m = true -> is_field 255 p = true -> is_field 15 v = true ->
  ends_line tail = true ->
  strlen raw < MAX_BUFFER_SIZE ->
  o n bool (c_malloc (strlen raw + 1)) = true ->
  exec o n g (parse_http_request (Some raw) (Some request))
    = ([Event (c_malloc (strlen raw + 1)) true; Event c_free tt], g,
       Returned (0, Some {| method := m; path := p; version := v;
                            headers := join_lines (tokens CRLF tail);
                            body := "" |})).
Proof. exact (parse_request_line_run o n g m p v tail request). Qed.

(** X6, witness: the request line of [sample_request]. *)
Lemma parse_http_request_round_trip_witness :
  exec sample_world 0 initial_globals
    (parse_http_request (Some sample_request) (Some blank_request))
  = ([Event (c_malloc 37) true; Event c_free tt], initial_globals,
     Returned (0, Some sample_parsed)).
Proof.
  apply (parse_http_request_round_trip sample_world 0 initial_globals
           "GET" "/api/users" "HTTP/1.1" (CRLF ++ "Host: a" ++ CRLF ++ CRLF)%string
           blank_request);
    vm_compute; reflexivity.
Defined.

(** X7: what a successful parse stores. When [parse_http_request]
    returns 0, the method, the path and the version in the struct are not
    empty and hold no white space. *)
Theorem parse_http_request_fields (o : oracle) (n : nat) (g g' : globals)
    (raw : string) (request request' : http_request_t) (evs : list event) :
  exec o n g (parse_http_request (Some raw) (Some request))
    = (evs, g', Returned (0, Some request')) ->
  Forall (fun field => field <> ""%string /\ no_space field = true)
    [method request'; path request'; version request'].
Proof.
  rewrite parse_http_request_run.
  destruct (o n bool (c_malloc (strlen raw + 1))); [|discriminate].
  destruct (strtok_r (Some raw) CRLF "") as [[line|] saveptr]; [|discriminate].
  cbv zeta.
  destruct (Nat.eqb_spec (List.length (scan_fields request_line_format line)) 3)
    as [Hlen|_]; [|discriminate].
  intros H. injection H as _ _ <-.
  assert (Hw : Forall (fun w => (0 < w)%nat) (widths request_line_format))
    by (repeat constructor).
  pose proof (scan_fields_no_space request_line_format Hw line) as Hscan.
  unfold with_request_line, set_headers, set_body. simpl.
  destruct (scan_fields request_line_format line) as [|f0 [|f1 [|f2 fs]]];
    try discriminate. simpl.
  repeat constructor;
    try (apply (Hscan 0%nat); reflexivity);
    try (apply (Hscan 1%nat); reflexivity);
    try (apply (Hscan 2%nat); reflexivity).
Qed.

(** X7, witness: [long_method_request], whose first field is cut. *)
Lemma parse_http_request_fields_witness :
  Forall (fun field => field <> ""%string /\ no_space field = true)
    ["ABCDEFGHIJKLMNO"; "PQRSTUVWXYZ"; "1"]%string.
Proof.
  apply (parse_http_request_fields sample_world 0 initial_globals initial_globals
           long_method_request blank_request
           {| method := "ABCDEFGHIJKLMNO"; path := "PQRSTUVWXYZ"; version := "1";
              headers := ""; body := "" |}
           [Event (c_malloc 29) true; Event c_free tt]).
  vm_compute. reflexivity.
Defined.

(** X8: [parse_http_request] never fills the body. [strtok_r] returns no
    empty token, so the loop never sees the empty line that would clear
    [in_headers]: whenever the function returns 0, [body] is empty. *)
Theorem parse_http_request_body_empty (o : oracle) (n : nat) (g g' : globals)
    (raw : string) (request request' : http_request_t) (evs : list event) :
  exec o n g (parse_http_request (Some raw) (Some request))
    = (evs, g', Returned (0, Some request')) ->
  body request' = ""%string.
Proof.
  rewrite parse_http_request_run.
  destruct (o n bool (c_malloc (strlen raw + 1))); [|discriminate].
  destruct (strtok_r (Some raw) CRLF "") as [[line|] saveptr]; [|discriminate].
  cbv zeta.
  destruct (List.length (scan_fields request_line_format line) =? 3)%nat;
    [|discriminate].
  intros H. injection H as _ _ <-. reflexivity.
Qed.

(** X8, witness: [sample_post], a request with a body. *)
Lemma parse_http_request_body_empty_witness :
  body sample_post_parsed = ""%string.
Proof.
  apply (parse_http_request_body_empty sample_world 0 initial_globals
           initial_globals sample_post blank_request sample_post_parsed
           [Event (c_malloc 44) true; Event c_free tt]).
  vm_compute. reflexivity.
Defined.

(** X9: where the lines of a request go. For a request shorter than
    [MAX_BUFFER_SIZE], as the handler passes it, a successful parse leaves
    in [headers] every line after the first that is not empty, the lines
    of the body among them, in order and each followed by a line feed. *)
Theorem parse_http_request_headers (o : oracle) (n : nat) (g g' : globals)
    (raw : string) (request request' : http_request_t) (evs : list event) :
  strlen raw < MAX_BUFFER_SIZE ->
  exec o n g (parse_http_request (Some raw) (Some request))
    = (evs, g', Returned (0, Some request')) ->
  headers request' = join_lines (tail (tokens CRLF raw)).
Proof.
  intros Hraw. rewrite parse_http_request_run.
  destruct (o n bool (c_malloc (strlen raw + 1))); [|discriminate].
  destruct (strtok_r (Some raw) CRLF "") as [[line|] saveptr] eqn:Etok;
    [|discriminate].
  cbv zeta.
  destruct (List.length (scan_fields request_line_format line) =? 3)%nat;
    [|discriminate].
  intros H. injection H as _ _ <-.
  rewrite (first_line_tokens _ _ _ Etok). simpl.
  pose proof (strtok_r_token _ _ _ _ _ Etok) as [Hpos Hlen].
  pose proof (strtok_r_rest _ _ _ _ _ Etok) as Hrest.
  rewrite (fold_append_header (S (String.length saveptr))); [reflexivity | lia |].
  destruct Hrest as [->|Hrest]; [left; reflexivity|]. right.
  unfold strlen, MAX_BUFFER_SIZE in *. simpl. lia.
Qed.

(** X9, witness: the line of the body of [sample_post] ends up in the
    headers. *)
Lemma parse_http_request_headers_witness :
  headers sample_post_parsed
    = join_lines (tail (tokens CRLF sample_post)).
Proof.
  apply (parse_http_request_headers sample_world 0 initial_globals
           initial_globals sample_post blank_request sample_post_parsed
           [Event (c_malloc 44) true; Event c_free tt]);
    vm_compute; reflexivity.
Defined.

(** X10: a successful parse overwrites the whole struct. Two runs of
    [parse_http_request] on the same request, in the same world, make the
    same calls and return the same value whatever the struct holds, and
    when they return 0 they leave the same struct: nothing of its
    earlier content is left. *)
Theorem parse_http_request_overwrites (o : oracle) (n : nat) (g : globals)
    (raw : string) (request1 request2 : http_request_t) :
  exists evs rc r1 r2,
    exec o n g (parse_http_request (Some raw) (Some request1))
      = (evs, g, Returned (rc, Some r1)) /\
    exec o n g (parse_http_request (Some raw) (Some request2))
      = (evs, g, Returned (rc, Some r2)) /\
    (rc = 0 -> r1 = r2).
Proof.
  rewrite !parse_http_request_run.
  destruct (o n bool (c_malloc (strlen raw + 1))).
  2: { eexists _, _, _, _. repeat split; discriminate. }
  destruct (strtok_r (Some raw) CRLF "") as [[line|] saveptr].
  2: { eexists _, _, _, _. repeat split; discriminate. }
  cbv zeta.
  destruct (Nat.eqb_spec (List.length (scan_fields request_line_format line)) 3)
    as [Hlen|_].
  2: { eexists _, _, _, _. repeat split; discriminate. }
  eexists _, _, _, _. split; [reflexivity|]. split; [reflexivity|].
  intros _. unfold with_request_line, set_headers, set_body. simpl.
  destruct (scan_fields request_line_format line) as [|f0 [|f1 [|f2 fs]]];
    try discriminate. reflexivity.
Qed.

(** X11: what a failed parse leaves in the struct. When
    [parse_http_request] returns a value other than 0 on two valid
    pointers, the version, the headers and the body are as they were; the
    method and the path may have been overwritten by [sscanf]. When the
    copy could not be allocated or the request has no first line, the
    whole struct is as it was. *)
Theorem parse_http_request_failure (o : oracle) (n : nat) (g g' : globals)
    (raw : string) (request request' : http_request_t) (evs : list event)
    (rc : Z) :
  exec o n g (parse_http_request (Some raw) (Some request))
    = (evs, g', Returned (rc, Some request')) ->
  rc <> 0 ->
  version request' = version request /\
  headers request' = headers request /\
  body request' = body request /\
  (o n bool (c_malloc (strlen raw + 1)) = false \/ first_line raw = None ->
   request' = request).
Proof.
  rewrite parse_http_request_run. unfold first_line.
  destruct (o n bool (c_malloc (strlen raw + 1))).
  2: { intros H _. injection H as _ _ _ <-. auto. }
  destruct (strtok_r (Some raw) CRLF "") as [[line|] saveptr].
  2: { intros H _. injection H as _ _ _ <-. auto. }
  cbv zeta.
  pose proof (scan_fields_at_most_three line) as Hmost.
  destruct (Nat.eqb_spec (List.length (scan_fields request_line_format line)) 3)
    as [Hlen|Hlen].
  { intros H Hrc. injection H as _ _ <- _. contradiction. }
  intros H _. injection H as _ _ _ <-.
  unfold with_request_line. simpl.
  split; [|split; [reflexivity|split; [reflexivity|]]].
  - destruct (scan_fields request_line_format line) as [|f0 [|f1 [|f2 fs]]];
      simpl in *; try reflexivity; lia.
  - intros [H|H]; discriminate.
Qed.

(** X11, witness: [short_request], a line of two fields, parsed into a
    struct that holds [sample_parsed]: the method and the path are
    replaced, the rest is kept. *)
Lemma parse_http_request_failure_witness :
  let request' := {| method := "GET"; path := "/";
                     version := version sample_parsed;
                     headers := headers sample_parsed;
                     body := body sample_parsed |} in
  version request' = version sample_parsed /\
  headers request' = headers sample_parsed /\
  body request' = body sample_parsed /\
  (sample_world 0%nat bool (c_malloc (strlen short_request + 1)) = false \/
   first_line short_request = None ->
   request' = sample_parsed).
Proof.
  apply (parse_http_request_failure sample_world 0 initial_globals
           initial_globals short_request sample_parsed
           {| method := "GET"; path := "/";
              version := version sample_parsed;
              headers := headers sample_parsed;
              body := body sample_parsed |}
           [Event (c_malloc 6) true; Event c_free tt] (-1)).
  - vm_compute. reflexivity.
  - lia.
Defined.

End ParserFacts.

(** ** A request that arrives whole *)

Lemma c_str_text (raw : string) (rest : list ascii) :
  string_forall (fun c => negb (Ascii.eqb c NUL)) raw = true ->
  c_str (list_ascii_of_string raw ++ NUL :: rest) = Ok raw.
Proof.
  induction raw as [|c raw IH]; simpl; [reflexivity|].
  intros [Hc Hraw]%andb_prop. apply negb_true_iff in Hc.
  rewrite Hc, (IH Hraw). reflexivity.
Qed.

Lemma length_list_ascii_of_string (s : string) :
  List.length (list_ascii_of_string s) = String.length s.
Proof. induction s as [|c s IH]; simpl; [reflexivity | now rewrite IH]. Qed.

(** The text the handler reads out of its buffer when [recv] stores the
    bytes of [raw]. *)
Lemma received_text (raw : string) :
  string_forall (fun c => negb (Ascii.eqb c NUL)) raw = true ->
  0 < strlen raw < MAX_BUFFER_SIZE ->
  let r := recv_result (Some (list_ascii_of_string raw)) (zeroed MAX_BUFFER_SIZE)
             (MAX_BUFFER_SIZE - 1) in
  r.1 = strlen raw /\
  exists buffer, array_set r.2 r.1 NUL = Ok buffer /\ c_str buffer = Ok raw.
Proof.
  intros Hnul [Hpos Hlen]. unfold recv_result, strlen, MAX_BUFFER_SIZE in *.
  cbv zeta. cbn [fst snd].
  rewrite take_ge by (rewrite length_list_ascii_of_string; lia).
  rewrite length_list_ascii_of_string. split; [reflexivity|].
  unfold zeroed. rewrite drop_replicate.
  unfold array_set. rewrite length_app, length_replicate, length_list_ascii_of_string.
  destruct (Z.leb_spec 0 (Z.of_nat (String.length raw))); [|lia].
  destruct (Z.ltb_spec (Z.of_nat (String.length raw))
              (Z.of_nat (String.length raw + (Z.to_nat 1024 - String.length raw))));
    [|lia].
  eexists. split; [reflexivity|].
  rewrite insert_app_r_alt by (rewrite length_list_ascii_of_string; lia).
  rewrite length_list_ascii_of_string, Nat2Z.id, Nat.sub_diag.
  destruct (Z.to_nat 1024 - String.length raw)%nat as [|k] eqn:Ek; [lia|].
  simpl. apply c_str_text, Hnul.
Qed.

Section HandlerFacts.

#[local] Arguments zeroed : simpl never.
#[local] Arguments recv_result : simpl never.
#[local] Arguments inet_ntop : simpl never.
#[local] Arguments ntohs : simpl never.
#[local] Arguments strncmp : simpl never.
#[local] Arguments Z.sub : simpl never.
#[local] Opaque parse_http_request.

(** X12: a request that arrives whole is dispatched on its path. When
    [recv] delivers a request shorter than [MAX_BUFFER_SIZE] without a
    NUL byte in it, which starts with a request line of three fields that
    fit their arrays, and the copy of it can be allocated, the handler
    makes seven calls: the log line for the connection, [recv], the log
    line for the request, [malloc] and [free] of the parser, then
    [handle_api_request] with the parsed request when the path starts
    with [/api/] and [serve_static_file] with the path when it does not,
    and [close] of the client socket. The request handed over holds the
    three fields, the lines that follow in [headers] and an empty body,
    and nothing of what the local variable held before. *)
Theorem handle_client_connection_serves (o : oracle) (n : nat) (g : globals)
    (client_socket : Z) (client_addr : sockaddr_in) (garbage : http_request_t)
    (m p v tail : string) :
  let raw := (request_line m p v ++ tail)%string in
  let request := {| method := m; path := p; version := v;
                    headers := join_lines (tokens CRLF tail); body := "" |} in
  is_field 15 m = true -> is_field 255 p = true -> is_field 15 v = true ->
  ends_line tail = true ->
  string_forall (fun c => negb (Ascii.eqb c NUL)) raw = true ->
  strlen raw < MAX_BUFFER_SIZE ->
  o (S n) _ (c_recv client_socket (MAX_BUFFER_SIZE - 1))
    = Some (list_ascii_of_string raw) ->
  o (S (S (S n))) bool (c_malloc (strlen raw + 1)) = true ->
  exec o n g (handle_client_connection client_socket client_addr garbage)
  = ([Event (c_log_message "INFO" "New connection from %s:%d"
               [VStr (inet_ntop (sin_addr client_addr));
                VInt (ntohs (sin_port client_addr))]) tt;
      Event (c_recv client_socket (MAX_BUFFER_SIZE - 1))
        (Some (list_ascii_of_string raw));
      Event (c_log_message "DEBUG" "Received request:\n%s" [VStr raw]) tt;
      Event (c_malloc (strlen raw + 1)) true;
      Event c_free tt;
      (if String.prefix "/api/" p
       then Event (c_handle_api_request client_socket request) tt
       else Event (c_serve_static_file client_socket p) tt);
      Event (c_close client_socket) tt],
     g, Returned tt).
Proof.
  intros raw request Hm Hp Hv Htail Hnul Hlen Hrecv Hmalloc.
  assert (Hpos : 0 < strlen raw).
  { unfold raw. rewrite strlen_app.
    destruct (request_line_no_crlf m p v Hm Hp Hv) as [Hne _].
    pose proof (strlen_nonneg tail). unfold strlen in *.
    destruct (request_line m p v); [congruence | simpl; lia]. }
  destruct (received_text raw Hnul (conj Hpos Hlen)) as [Hcount (buffer & Hset & Hstr)].
  unfold handle_client_connection, log_message, recv, close,
    handle_api_request, serve_static_file.
  cbn [mbind prog_bind bind perform mret prog_ret exec].
  rewrite Hrecv.
  destruct (recv_result (Some (list_ascii_of_string raw)) (zeroed MAX_BUFFER_SIZE)
              (MAX_BUFFER_SIZE - 1)) as [count buffer0].
  cbn [fst snd] in Hcount, Hset. subst count.
  destruct (Z.leb_spec (strlen raw) 0) as [|_]; [lia|].
  rewrite Hset. cbn [lift mbind prog_bind bind]. rewrite Hstr.
  cbn [lift mbind prog_bind bind exec].
  change (bind (parse_http_request (Some raw) (Some garbage)) ?f)
    with (parse_http_request (Some raw) (Some garbage) ≫= f).
  rewrite exec_bind.
  pose proof (parse_request_line_run o (S (S (S n))) g m p v tail garbage
                Hm Hp Hv Htail Hlen Hmalloc) as Hparse.
  cbv zeta in Hparse. fold raw request in Hparse. rewrite Hparse.
  cbn [from_option id negb Z.eqb].
  change (path request) with p.
  rewrite <- strncmp_api.
  rewrite !(unit_eq (o _ _ _)).
  destruct (strncmp p "/api/" 5 =? 0); cbn;
    rewrite !(unit_eq (o _ _ _)); reflexivity.
Qed.

#[local] Transparent parse_http_request.

End HandlerFacts.

(** X12, witness: the handler on [sample_request], in the sample world. *)
Lemma handle_client_connection_serves_witness :
  outcome_of
    (exec sample_world 0 initial_globals
       (handle_client_connection 4 localhost blank_request)) = Returned tt /\
  calls_of
    (exec sample_world 0 initial_globals
       (handle_client_connection 4 localhost blank_request)) !! 5%nat
  = Some (Event (c_handle_api_request 4 sample_parsed) tt).
Proof.
  rewrite (handle_client_connection_serves sample_world 0 initial_globals
             4 localhost blank_request
             "GET" "/api/users" "HTTP/1.1" (CRLF ++ "Host: a" ++ CRLF ++ CRLF)%string);
    try (vm_compute; reflexivity).
  split; reflexivity.
Defined.

(** ** What the handler receives *)

Lemma c_str_up_to_nul (bytes rest : list ascii) :
  c_str (bytes ++ NUL :: rest) = Ok (up_to_nul bytes).
Proof.
  induction bytes as [|c bytes IH]; simpl; [reflexivity|].
  destruct (Ascii.eqb c NUL); [reflexivity|]. rewrite IH. reflexivity.
Qed.

(** What the handler makes of the bytes [recv] delivers. *)
Lemma received_bytes (bytes : list ascii) :
  bytes <> [] ->
  let got := take 1023 bytes in
  let r := recv_result (Some bytes) (zeroed MAX_BUFFER_SIZE)
             (MAX_BUFFER_SIZE - 1) in
  r.1 = Z.of_nat (List.length got) /\
  0 < r.1 /\
  exists buffer,
    array_set r.2 r.1 NUL = Ok buffer /\ c_str buffer = Ok (up_to_nul got).
Proof.
  intros Hne got. unfold recv_result, MAX_BUFFER_SIZE. cbv zeta. cbn [fst snd].
  change (Z.to_nat (1024 - 1)) with 1023%nat. fold got.
  assert (Hgot : (0 < List.length got <= 1023)%nat).
  { unfold got. rewrite length_take.
    destruct bytes; [congruence | cbn [List.length]; lia]. }
  split; [reflexivity|]. split; [lia|].
  unfold zeroed. rewrite drop_replicate.
  unfold array_set. rewrite length_app, length_replicate.
  destruct (Z.leb_spec 0 (Z.of_nat (List.length got))); [|lia].
  destruct (Z.ltb_spec (Z.of_nat (List.length got))
              (Z.of_nat (List.length got + (Z.to_nat 1024 - List.length got))));
    [|lia].
  eexists. split; [reflexivity|].
  rewrite insert_app_r_alt by lia.
  rewrite Nat2Z.id, Nat.sub_diag.
  destruct (Z.to_nat 1024 - List.length got)%nat as [|k] eqn:Ek; [lia|].
  simpl. apply c_str_up_to_nul.
Qed.


(** The request the handler parses, by what [recv] was offered. *)
Lemma received_request_bytes (offered : option (list ascii)) :
  received_request offered =
  match offered with
  | Some (c :: bytes) => Some (up_to_nul (take 1023 (c :: bytes)))
  | _ => None
  end.
Proof.
  destruct offered as [[|c bytes]|]; try reflexivity.
  destruct (received_bytes (c :: bytes)) as (Hcount & Hpos & buffer & Hset & Hstr);
    [discriminate|].
  cbv zeta in Hcount, Hpos, Hset. unfold received_request.
  destruct (recv_result (Some (c :: bytes)) (zeroed MAX_BUFFER_SIZE)
              (MAX_BUFFER_SIZE - 1)) as [count buffer0].
  cbn [fst snd] in Hcount, Hpos, Hset.
  destruct (Z.leb_spec count 0); [lia|].
  rewrite Hset. cbn [mbind result_bind]. rewrite Hstr. reflexivity.
Qed.

Lemma heap_call_no_recv (evs : list event) :
  forallb heap_call evs = true -> List.filter is_recv evs = [].
Proof.
  induction evs as [|e evs IH]; [reflexivity|]. simpl.
  intros [He Hevs]%andb_prop. rewrite (IH Hevs).
  destruct e as [X c x]. destruct c; simpl in *; congruence.
Qed.

(** X25: the handler reads from the socket once, and parses what that
    one [recv] delivered. Every run of the handler calls [recv] exactly
    once, as its second call, for [MAX_BUFFER_SIZE - 1] bytes. When
    [recv] fails or delivers nothing, the handler logs the failure and
    closes the socket. When it delivers bytes, the request that is logged
    and handed to the parser is the text of the first 1023 of them, up to
    the first NUL byte among them. *)
Theorem handle_client_connection_receives (o : oracle) (n : nat) (g : globals)
    (client_socket : Z) (client_addr : sockaddr_in) (garbage : http_request_t) :
  exists evs offered,
    exec o n g (handle_client_connection client_socket client_addr garbage)
      = (evs, g, Returned tt) /\
    evs !! 1%nat
      = Some (Event (c_recv client_socket (MAX_BUFFER_SIZE - 1)) offered) /\
    List.length (List.filter is_recv evs) = 1%nat /\
    match offered with
    | Some (c :: bytes) =>
        let raw := up_to_nul (take 1023 (c :: bytes)) in
        evs !! 2%nat
          = Some (Event (c_log_message "DEBUG" "Received request:\n%s"
                           [VStr raw]) tt) /\
        exists ok, evs !! 3%nat = Some (Event (c_malloc (strlen raw + 1)) ok)
    | _ =>
        drop 2 evs
          = [Event (c_log_message "ERROR" "Failed to receive data from client" [])
               tt;
             Event (c_close client_socket) tt]
    end.
Proof.
  destruct (handle_client_connection_exec o n g client_socket client_addr garbage)
    as (evs & Hexec & Hrun).
  exists evs.
  destruct Hrun as [offered Hnone
                   | offered raw heap rc request' Hsome Hrun Hrc
                   | offered raw heap request' Hsome Hrun];
    exists offered; (split; [exact Hexec|]); (split; [reflexivity|]).
  - split; [reflexivity|].
    rewrite received_request_bytes in Hnone.
    destruct offered as [[|c bytes]|]; try reflexivity. discriminate.
  - pose proof (parse_run_heap _ _ _ _ _ Hrun) as Hheap%heap_call_no_recv.
    split.
    { cbn [app List.filter is_recv]. rewrite List.filter_app, Hheap. reflexivity. }
    rewrite received_request_bytes in Hsome.
    destruct offered as [[|c bytes]|]; try discriminate.
    injection Hsome as <-. cbv zeta. split; [reflexivity|].
    destruct Hrun; eexists; reflexivity.
  - pose proof (parse_run_heap _ _ _ _ _ Hrun) as Hheap%heap_call_no_recv.
    split.
    { cbn [app List.filter is_recv]. rewrite List.filter_app, Hheap.
      destruct (String.prefix "/api/" (path request')); reflexivity. }
    rewrite received_request_bytes in Hsome.
    destruct offered as [[|c bytes]|]; try discriminate.
    injection Hsome as <-. cbv zeta. split; [reflexivity|].
    remember 0 as rc eqn:Erc in Hrun.
    destruct Hrun; eexists; reflexivity.
Qed.

(** ** The response, built and sent *)

Lemma status_message_fits (status_code : Z) :
  strlen (status_message_of status_code) < 64.
Proof.
  destruct (Z.eq_dec status_code 200) as [->|H200]; [vm_compute; reflexivity|].
  destruct (Z.eq_dec status_code 404) as [->|H404]; [vm_compute; reflexivity|].
  destruct (Z.eq_dec status_code 500) as [->|H500]; [vm_compute; reflexivity|].
  rewrite status_message_of_other by assumption. vm_compute. reflexivity.
Qed.

(** What a response that [build_http_response] has filled holds. *)
Lemma build_http_response_built (response : option http_response_t)
    (status_code : Z) (content_type body : option string) (r : http_response_t) :
  build_http_response response status_code content_type body = Ok r ->
  exists text,
    body = Some text /\
    strlen text < MAX_BUFFER_SIZE /\
    r = {| status_code := status_code;
           status_message := status_message_of status_code;
           response_headers :=
             snprintf MAX_BUFFER_SIZE
               (response_header_text status_code (status_message_of status_code)
                  (default ""%string content_type) (strlen text));
           response_body := text;
           content_length := strlen text |}.
Proof.
  unfold build_http_response, strcpy.
  destruct response as [response|]; [|discriminate].
  cbn [from_option mbind result_bind].
  rewrite (store_string_ok 64) by apply status_message_fits.
  cbn [mbind result_bind].
  destruct body as [text|]; [|discriminate].
  cbn [from_option mbind result_bind].
  unfold store_string.
  destruct (Z.ltb_spec (strlen text) MAX_BUFFER_SIZE) as [Hfit|]; [|discriminate].
  cbn [mbind result_bind].
  intros H. injection H as <-. exists text. auto.
Qed.

(** X13: a response that [build_http_response] has filled is sent as it
    was built. [send_http_response] does not leave the array of the body;
    its first [send] passes the headers with the length of their text, and
    a second one passes the body with the length of its text, exactly
    when the first did not fail and the body is not empty. There is no
    further [send], whatever the two return, and one log line: the
    failure of the first [send], else the failure of the second, else the
    line that the response was sent. *)
Theorem send_built_response (send : nat -> Z) (client_socket : Z)
    (response : option http_response_t) (status_code : Z)
    (content_type body : option string) (r : http_response_t) :
  build_http_response response status_code content_type body = Ok r ->
  exists out,
    send_http_response send client_socket (Some r) = Ok out /\
    sent_texts out
      = (response_headers r, strlen (response_headers r)) ::
        (if (0 <=? send 0%nat) && negb (content_length r =? 0)
         then [(response_body r, strlen (response_body r))] else []) /\
    logged_lines out
      = [if send 0%nat <? 0
         then ("ERROR", "Failed to send response headers")
         else if negb (content_length r =? 0) && (send 1%nat <? 0)
              then ("ERROR", "Failed to send response body")
              else ("INFO", "Response sent: %d %s (%zu bytes)")].
Proof.
  intros (text & -> & Hfit & ->)%build_http_response_built.
  unfold send_http_response.
  cbn [from_option mbind result_bind response_headers response_body
       content_length ExampleC.status_code status_message].
  pose proof (strlen_nonneg text) as Hpos.
  destruct (Z.ltb_spec (send 0%nat) 0) as [H0|H0].
  { eexists. split; [reflexivity|].
    destruct (Z.leb_spec 0 (send 0%nat)); [lia|]. split; reflexivity. }
  destruct (Z.leb_spec 0 (send 0%nat)); [|lia].
  destruct (Z.eqb_spec (strlen text) 0) as [Hz|Hz].
  { rewrite Hz. eexists. split; [reflexivity|]. split; reflexivity. }
  destruct (Z.ltb_spec 0 (strlen text)); [|lia].
  destruct (Z.leb_spec (strlen text) MAX_BUFFER_SIZE); [|lia].
  destruct (send 1%nat <? 0); eexists; (split; [reflexivity|]);
    split; reflexivity.
Qed.

(** X13, witness: [sample_response], with a [send] that takes every
    byte. *)
Lemma send_built_response_witness :
  exists out,
    send_http_response (fun _ => 100) 4 (Some sample_response) = Ok out /\
    sent_texts out
      = [(response_headers sample_response,
          strlen (response_headers sample_response));
         ("{}"%string, 2)] /\
    logged_lines out = [("INFO", "Response sent: %d %s (%zu bytes)")]%string.
Proof.
  apply (send_built_response (fun _ => 100) 4 (Some blank_response) 200
           (Some CONTENT_TYPE_JSON) (Some "{}"%string) sample_response).
  vm_compute. reflexivity.
Defined.

(** * Properties of [example.cpp] *)

Import ExampleCpp.

Section SmartArrayFacts.
Context {T : Type} (T_default : T) (max_alloc : Z).
Hypothesis max_alloc_supported : max_alloc <= PTRDIFF_MAX.

#[local] Abbreviation make_unique := (make_unique T_default max_alloc).
#[local] Abbreviation resize := (resize T_default max_alloc).
#[local] Abbreviation push_back := (push_back T_default max_alloc).
#[local] Abbreviation push_back_all := (push_back_all T_default max_alloc).
#[local] Abbreviation new := (new T_default max_alloc).
#[local] Abbreviation well_formed := (well_formed max_alloc).
#[local] Abbreviation grown_from := (grown_from max_alloc).

Lemma wrap_small (z : Z) : 0 <= z < 2 ^ 64 -> wrap z = z.
Proof. intros H. unfold wrap. apply Z.mod_small, H. Qed.

Lemma make_unique_ok (n : Z) :
  n <= max_alloc ->
  make_unique n = Ok (replicate (Z.to_nat n) T_default).
Proof.
  intros H. unfold ExampleCpp.make_unique.
  destruct (Z.leb_spec n max_alloc); [reflexivity | lia].
Qed.

Lemma make_unique_throw (n : Z) :
  max_alloc < n -> make_unique n = Throw bad_alloc.
Proof.
  intros H. unfold ExampleCpp.make_unique.
  destruct (Z.leb_spec n max_alloc); [lia | reflexivity].
Qed.

Lemma array_get_ok (l : list T) (i : Z) :
  0 <= i < Z.of_nat (List.length l) ->
  exists v, l !! Z.to_nat i = Some v /\ array_get l i = Ok v.
Proof.
  intros H. unfold array_get.
  destruct (Z.leb_spec 0 i); [|lia].
  destruct (Z.ltb_spec i (Z.of_nat (List.length l))); [|lia]. simpl.
  destruct (lookup_lt_is_Some_2 l (Z.to_nat i)) as [v Hv]; [lia|].
  exists v. rewrite Hv. split; reflexivity.
Qed.

Lemma array_put_ok (l : list T) (i : Z) (v : T) :
  0 <= i < Z.of_nat (List.length l) ->
  array_put l i v = Ok (<[Z.to_nat i := v]> l).
Proof.
  intros H. unfold array_put.
  destruct (Z.leb_spec 0 i); [|lia].
  destruct (Z.ltb_spec i (Z.of_nat (List.length l))); [|lia]. reflexivity.
Qed.

Lemma array_put_outside (l : list T) (i : Z) (v : T) :
  Z.of_nat (List.length l) <= i -> array_put l i v = Fault BufferOverflow.
Proof.
  intros H. unfold array_put.
  destruct (Z.ltb_spec i (Z.of_nat (List.length l))); [lia|].
  now rewrite andb_false_r.
Qed.

(** The loop of [resize] copies the cells from [i] on and leaves the
    others. *)
Lemma move_elements_spec (data : list T) (remaining : nat) :
  forall (i : Z) (new_data : list T),
    0 <= i ->
    i + Z.of_nat remaining <= Z.of_nat (List.length data) ->
    i + Z.of_nat remaining <= Z.of_nat (List.length new_data) ->
    i + Z.of_nat remaining < 2 ^ 64 ->
    exists moved,
      move_elements remaining i data new_data = Ok moved /\
      List.length moved = List.length new_data /\
      (forall j : nat,
         moved !! j =
         if decide (i <= Z.of_nat j < i + Z.of_nat remaining)
         then data !! j else new_data !! j).
Proof.
  induction remaining as [|k IH]; intros i new_data Hi Hdata Hnew Hwrap.
  - exists new_data. split; [reflexivity|]. split; [reflexivity|].
    intros j. destruct (decide _); [lia | reflexivity].
  - simpl.
    destruct (array_get_ok data i) as (v & Hv & ->); [lia|]. simpl.
    rewrite array_put_ok by lia. simpl.
    rewrite wrap_small by lia.
    destruct (IH (i + 1) (<[Z.to_nat i := v]> new_data))
      as (moved & Hmoved & Hlen & Hcells);
      rewrite ?length_insert; try lia.
    exists moved. split; [exact Hmoved|].
    split; [rewrite Hlen, length_insert; reflexivity|].
    intros j. rewrite Hcells.
    destruct (decide (i + 1 <= Z.of_nat j < i + 1 + Z.of_nat k)).
    + destruct (decide _); [reflexivity | lia].
    + destruct (decide (Z.to_nat i = j)) as [<-|Hne].
      * rewrite list_lookup_insert_eq by lia.
        destruct (decide _); [now rewrite Hv | lia].
      * rewrite list_lookup_insert_ne by exact Hne.
        destruct (decide _); [lia | reflexivity].
Qed.

Lemma elements_length (a : SmartArray T) :
  well_formed a -> Z.of_nat (List.length (elements a)) = size_ a.
Proof.
  intros (Hsize & Hlen & _). unfold elements. rewrite length_take. lia.
Qed.

Lemma new_spec (c : Z) :
  0 <= c <= max_alloc ->
  exists a, new c = Ok a /\ well_formed a /\ capacity_ a = c /\
            size_ a = 0 /\ elements a = [].
Proof.
  intros Hc. unfold ExampleCpp.new. rewrite make_unique_ok by lia. simpl.
  eexists. split; [reflexivity|]. unfold ExampleCpp.well_formed. simpl.
  rewrite length_replicate. repeat split; first [lia | reflexivity].
Qed.

(** [resize] to a capacity the allocator provides keeps the size and
    the stored elements. *)
Lemma resize_spec (new_capacity : Z) (a : SmartArray T) :
  well_formed a ->
  size_ a <= new_capacity <= max_alloc ->
  exists a',
    resize new_capacity a = Ok a' /\
    well_formed a' /\
    capacity_ a' = new_capacity /\
    size_ a' = size_ a /\
    elements a' = elements a.
Proof using max_alloc_supported.
  intros (Hsize & Hlen & Hcap) Hnew. unfold ExampleCpp.resize.
  rewrite make_unique_ok by lia. simpl.
  unfold PTRDIFF_MAX in max_alloc_supported.
  destruct (move_elements_spec (data_ a) (Z.to_nat (size_ a)) 0
              (replicate (Z.to_nat new_capacity) T_default))
    as (moved & -> & Hmoved & Hcells);
    rewrite ?length_replicate; try lia.
  simpl. eexists. split; [reflexivity|].
  rewrite length_replicate in Hmoved.
  unfold ExampleCpp.well_formed, elements. simpl.
  repeat split; try lia.
  apply list_eq. intros j. rewrite !lookup_take, Hcells.
  destruct (decide (j < Z.to_nat (size_ a))%nat); [|reflexivity].
  destruct (decide _); [reflexivity | lia].
Qed.

(** What [push_back] does to an array with room for at least one
    element in its class invariant. *)
Lemma push_back_spec (item : T) (a : SmartArray T) :
  well_formed a ->
  1 <= capacity_ a ->
  match push_back item a with
  | Ok a' =>
      well_formed a' /\
      elements a' = elements a ++ [item] /\
      size_ a' = size_ a + 1 /\
      capacity_ a' =
        (if size_ a >=? capacity_ a then capacity_ a * 2 else capacity_ a)
  | Throw e =>
      e = bad_alloc /\ size_ a = capacity_ a /\ max_alloc < capacity_ a * 2
  | Fault _ => False
  end.
Proof using max_alloc_supported.
  intros Hwf Hcap. pose proof Hwf as (Hsize & Hlen & Hmax).
  unfold PTRDIFF_MAX in max_alloc_supported.
  assert (Hstore : forall a1 : SmartArray T,
             well_formed a1 -> size_ a1 < capacity_ a1 ->
             exists a',
               (d ← array_put (data_ a1) (size_ a1) item;
                Ok {| data_ := d; size_ := wrap (size_ a1 + 1);
                      capacity_ := capacity_ a1 |}) = Ok a' /\
               well_formed a' /\
               elements a' = elements a1 ++ [item] /\
               size_ a' = size_ a1 + 1 /\
               capacity_ a' = capacity_ a1).
  { intros a1 (Hsize1 & Hlen1 & Hmax1) Hroom.
    rewrite array_put_ok by lia. simpl. rewrite wrap_small by lia.
    eexists. split; [reflexivity|].
    unfold ExampleCpp.well_formed, elements. simpl. rewrite length_insert.
    repeat split; try lia.
    replace (Z.to_nat (size_ a1 + 1)) with (S (Z.to_nat (size_ a1))) by lia.
    rewrite (take_S_r _ _ item) by (apply list_lookup_insert_eq; lia).
    rewrite take_insert_ge by lia. reflexivity. }
  unfold ExampleCpp.push_back.
  destruct (Z.geb_spec (size_ a) (capacity_ a)) as [Hfull|Hroom].
  - rewrite wrap_small by lia.
    destruct (Z.le_gt_cases (capacity_ a * 2) max_alloc) as [Hfits|Hbig].
    + destruct (resize_spec (capacity_ a * 2) a Hwf)
        as (a1 & -> & Hwf1 & Hcap1 & Hsize1 & Helems1); [lia|].
      simpl. destruct (Hstore a1 Hwf1) as (a' & -> & Hwf' & He & Hs & Hc); [lia|].
      rewrite He, Helems1, Hs, Hsize1, Hc, Hcap1. auto.
    + unfold ExampleCpp.resize. rewrite make_unique_throw by lia. simpl.
      repeat split; lia.
  - simpl. destruct (Hstore a Hwf) as (a' & -> & Hwf' & He & Hs & Hc); [lia|].
    auto.
Qed.

Lemma push_back_all_spec (c : Z) (items : list T) :
  forall a : SmartArray T,
    grown_from c a ->
    match push_back_all items a with
    | Ok a' =>
        grown_from c a' /\
        elements a' = elements a ++ items
    | Throw e =>
        e = bad_alloc /\
        max_alloc < Z.max c (2 * (size_ a + Z.of_nat (List.length items)))
    | Fault _ => False
    end.
Proof using max_alloc_supported.
  induction items as [|item items IH]; intros a (Hwf & Hcap & Hgrow); simpl.
  - rewrite app_nil_r.
    split; [exact (conj Hwf (conj Hcap Hgrow)) | reflexivity].
  - pose proof (push_back_spec item a Hwf Hcap) as Hpush.
    pose proof Hwf as (Hsize & _).
    destruct (push_back item a) as [a1|f|e]; simpl; [| exact Hpush |].
    + destruct Hpush as (Hwf1 & Helems1 & Hsize1 & Hcap1).
      assert (Hgrown1 : grown_from c a1).
      { split; [exact Hwf1|].
        destruct (Z.geb_spec (size_ a) (capacity_ a)); split; lia. }
      specialize (IH a1 Hgrown1).
      destruct (push_back_all items a1) as [a'|f|e]; [| exact IH |].
      * destruct IH as [Hgrown' Helems']. split; [exact Hgrown'|].
        rewrite Helems', Helems1, <- app_assoc. reflexivity.
      * destruct IH as [-> Hbig]. split; [reflexivity | lia].
    + destruct Hpush as (-> & Hfull & Hbig). split; [reflexivity | lia].
Qed.

(** [operator[]] on an array in its class invariant. *)
Lemma subscript_spec (index : Z) (a : SmartArray T) :
  well_formed a ->
  0 <= index ->
  (size a <= index /\
   subscript index a = Throw (out_of_range "Index out of range") /\
   subscript_const index a = Throw (out_of_range "Index out of range")) \/
  (index < size a /\
   exists v,
     elements a !! Z.to_nat index = Some v /\
     subscript index a = Ok (v, a) /\
     subscript_const index a = Ok v).
Proof.
  intros (Hsize & Hlen & _) Hindex.
  unfold subscript, subscript_const, size.
  destruct (Z.geb_spec index (size_ a)) as [Hout|Hin].
  - left. repeat split. lia.
  - right. split; [exact Hin|].
    destruct (array_get_ok (data_ a) index) as (v & Hv & ->); [lia|].
    exists v. unfold elements. rewrite lookup_take_lt by lia.
    repeat split. exact Hv.
Qed.

(** C5: a [SmartArray] built with an initial capacity of at least one
    behaves as a dynamic array. After [push_back] of [items] in turn,
    [size()] is their number and [operator[]] at [i] returns the
    [i]-th of them; the only other way the calls can end is
    [std::bad_alloc], when the allocator does not provide the larger of
    the initial capacity and twice the number of items. On a full array
    [push_back] calls [resize] with twice the capacity, which keeps the
    stored elements in order, and then stores the new element behind
    them. *)
Theorem C5_smart_array_push_back (c : Z) (items : list T) :
  1 <= c ->
  match new c ≫= push_back_all items with
  | Ok a =>
      size a = Z.of_nat (List.length items) /\
      elements a = items /\
      (forall (i : nat) (v : T),
         items !! i = Some v -> subscript (Z.of_nat i) a = Ok (v, a))
  | Throw e =>
      e = bad_alloc /\
      max_alloc < Z.max c (2 * Z.of_nat (List.length items))
  | Fault _ => False
  end /\
  (forall (a : SmartArray T) (item : T),
     grown_from c a ->
     size_ a = capacity_ a ->
     match push_back item a with
     | Ok a' =>
         (exists resized,
            resize (capacity_ a * 2) a = Ok resized /\
            capacity_ resized = capacity_ a * 2 /\
            elements resized = elements a /\
            array_put (data_ resized) (size_ a) item = Ok (data_ a')) /\
         capacity_ a' = capacity_ a * 2 /\
         size a' = size a + 1 /\
         elements a' = elements a ++ [item]
     | Throw e => e = bad_alloc /\ max_alloc < capacity_ a * 2
     | Fault _ => False
     end).
Proof using max_alloc_supported.
  intros Hc. split.
  - destruct (Z.le_gt_cases c max_alloc) as [Hfits|Hbig].
    + destruct (new_spec c) as (a0 & -> & Hwf0 & Hcap0 & Hsize0 & Helems0);
        [lia|]. simpl.
      assert (Hgrown0 : grown_from c a0) by (repeat split; try apply Hwf0; lia).
      pose proof (push_back_all_spec c items a0 Hgrown0) as Hall.
      destruct (push_back_all items a0) as [a|f|e]; [| exact Hall |].
      * destruct Hall as [(Hwf & _) Helems]. rewrite Helems0 in Helems.
        simpl in Helems.
        pose proof (elements_length a Hwf) as Hlen. rewrite Helems in Hlen.
        split; [unfold size; lia|]. split; [exact Helems|].
        intros i v Hi.
        destruct (subscript_spec (Z.of_nat i) a Hwf) as [[Hout _] | (_ & w & Hw & Hsub & _)];
          [lia | | ].
        -- apply lookup_lt_Some in Hi. unfold size in Hout. lia.
        -- rewrite Helems, Nat2Z.id, Hi in Hw. injection Hw as ->. exact Hsub.
      * destruct Hall as [-> Hlim]. split; [reflexivity | lia].
    + unfold ExampleCpp.new. rewrite make_unique_throw by lia. simpl.
      split; [reflexivity | lia].
  - intros a item (Hwf & Hcap & _) Hfull.
    pose proof (push_back_spec item a Hwf Hcap) as Hpush.
    pose proof Hwf as (Hsize & Hlen & Hmax).
    unfold PTRDIFF_MAX in max_alloc_supported.
    unfold ExampleCpp.push_back in *.
    destruct (Z.geb_spec (size_ a) (capacity_ a)) as [_|]; [|lia].
    rewrite wrap_small in * by lia.
    destruct (resize (capacity_ a * 2) a) as [resized|f|e] eqn:Hresize;
      simpl in *; [| exact Hpush | tauto].
    destruct (Z.le_gt_cases (capacity_ a * 2) max_alloc) as [Hfits|Hbig].
    2: { unfold ExampleCpp.resize in Hresize.
         rewrite make_unique_throw in Hresize by lia. discriminate. }
    destruct (resize_spec (capacity_ a * 2) a Hwf)
      as (a1 & Ha1 & Hwf1 & Hcap1 & Hsize1 & Helems1); [lia|].
    rewrite Hresize in Ha1. injection Ha1 as <-.
    destruct (array_put (data_ resized) (size_ resized) item) as [d|f|e] eqn:Hput;
      simpl in *; [| exact Hpush | tauto].
    destruct Hpush as (_ & Helems & Hsz & _).
    split; [|repeat split; assumption].
    exists resized. rewrite <- Hsize1. repeat split; assumption.
Qed.

(** C10: on an array in its class invariant, both overloads of
    [operator[]] throw [std::out_of_range] exactly for an index that is
    not less than the size; for a smaller index they return the element
    stored at that index, and the array is as it was. *)
Theorem C10_subscript_bounds (index : Z) (a : SmartArray T) :
  0 <= index <= SIZE_MAX ->
  ((exists what, subscript index a = Throw (out_of_range what))
     <-> index >= size a) /\
  ((exists what, subscript_const index a = Throw (out_of_range what))
     <-> index >= size a) /\
  (well_formed a ->
   index < size a ->
   exists v,
     elements a !! Z.to_nat index = Some v /\
     subscript index a = Ok (v, a) /\
     subscript_const index a = Ok v).
Proof.
  intros [Hindex _]. split; [|split].
  - unfold subscript, size.
    destruct (Z.geb_spec index (size_ a)) as [Hout|Hin].
    + split; [lia | eauto].
    + split; [|lia]. intros [what H]. unfold array_get in H.
      destruct (_ && _); [|discriminate].
      destruct (data_ a !! Z.to_nat index); discriminate.
  - unfold subscript_const, size.
    destruct (Z.geb_spec index (size_ a)) as [Hout|Hin].
    + split; [lia | eauto].
    + split; [|lia]. intros [what H]. unfold array_get in H.
      destruct (_ && _); [|discriminate].
      destruct (data_ a !! Z.to_nat index); discriminate.
  - intros Hwf Hin.
    destruct (subscript_spec index a Hwf Hindex)
      as [(Hout & _) | (_ & v & Hv & -> & ->)]; [lia|].
    exists v. auto.
Qed.

End SmartArrayFacts.

(** C5, witness: five squares pushed into an array of capacity 2, with
    an allocator that provides a thousand cells. *)
Lemma C5_smart_array_push_back_witness :
  let a := {| data_ := [1; 4; 9; 16; 25; 0; 0; 0]; size_ := 5; capacity_ := 8 |} in
  new 0 1000 2 ≫= push_back_all 0 1000 squares = Ok a /\
  size a = 5 /\
  subscript 2 a = Ok (9, a).
Proof.
  intros a.
  assert (Hrun : new 0 1000 2 ≫= push_back_all 0 1000 squares = Ok a)
    by (vm_compute; reflexivity).
  pose proof (proj1 (C5_smart_array_push_back 0 1000
                       ltac:(vm_compute; discriminate) 2 squares ltac:(lia)))
    as H.
  destruct H as (Hsize & _ & Hsub).
  split; [exact Hrun|]. split; [exact Hsize|].
  exact (Hsub 2%nat 9 eq_refl).
Defined.

(** C10, witness: the same array, at an index inside and at its size. *)
Lemma C10_subscript_bounds_witness :
  let a := {| data_ := [1; 4; 9; 16; 25; 0; 0; 0]; size_ := 5; capacity_ := 8 |} in
  (exists v, subscript 4 a = Ok (v, a) /\ subscript_const 4 a = Ok v) /\
  ((exists what, subscript 5 a = Throw (out_of_range what)) <-> 5 >= size a).
Proof.
  intros a.
  assert (Hwf : well_formed 1000 a) by (vm_compute; intuition discriminate).
  split.
  - destruct (proj2 (proj2 (C10_subscript_bounds 1000 4 a
                              ltac:(vm_compute; intuition discriminate)))
                Hwf ltac:(vm_compute; reflexivity))
      as (v & _ & Hsub & Hconst).
    exists v. split; assumption.
  - apply (C10_subscript_bounds 1000 5 a). vm_compute. intuition discriminate.
Defined.

(** ** [AsyncUserService]: claims C3 and C4 *)

Lemma any_of_spec {A : Type} (pred : A -> bool) (l : list A) :
  any_of pred l = true <-> Exists (fun x => pred x = true) l.
Proof.
  induction l as [|x l IH]; simpl.
  - split; [discriminate | intros H; inversion H].
  - destruct (pred x) eqn:Hx.
    + split; [intros _; left; exact Hx | reflexivity].
    + rewrite IH. split; [intros H; right; exact H|].
      intros H. inversion H; subst; [congruence | assumption].
Qed.

(** [find_if] stops at the first element that satisfies the predicate. *)
Lemma find_if_spec {A : Type} (pred : A -> bool) (l : list A) :
  (exists before x after,
     l = before ++ x :: after /\
     Forall (fun y => pred y = false) before /\
     pred x = true /\
     find_if pred l = List.length before) \/
  (Forall (fun y => pred y = false) l /\ find_if pred l = List.length l).
Proof.
  induction l as [|x l IH]; simpl.
  - right. split; [constructor | reflexivity].
  - destruct (pred x) eqn:Hx.
    + left. exists [], x, l. repeat split; [constructor | exact Hx].
    + destruct IH as [(before & y & after & -> & Hbefore & Hy & Hfind)
                     | [Hnone Hfind]].
      * left. exists (x :: before), y, after.
        repeat split; [constructor; assumption | exact Hy |].
        simpl. now rewrite Hfind.
      * right. split; [constructor; assumption | now rewrite Hfind].
Qed.

(** C3: [add_user_async] gives [true] and appends the user when no
    stored user has the id of the new one, and gives [false] and leaves
    [users_] as it is when one has; so it gives [true] exactly when no
    stored user has that id. *)
Theorem C3_add_user_async (user : User) (s : AsyncUserService) :
  (Forall (fun existing => ~ has_id (id user) existing) (users_ s) /\
   add_user_async user s = (true, {| users_ := users_ s ++ [user] |})) \/
  (Exists (has_id (id user)) (users_ s) /\
   add_user_async user s = (false, s)).
Proof.
  unfold add_user_async.
  destruct (any_of _ (users_ s)) eqn:Hany; simpl.
  - right. split; [|reflexivity].
    apply any_of_spec in Hany. eapply Exists_impl; [exact Hany|].
    intros x Hx. apply N.eqb_eq, Hx.
  - left. split; [|reflexivity].
    apply Forall_forall. intros x Hx Hid.
    assert (H : any_of (fun existing => (get (id existing) =? get (id user))%N)
                  (users_ s) = true); [|congruence].
    apply any_of_spec, Exists_exists. exists x. split; [exact Hx|].
    apply N.eqb_eq, Hid.
Qed.

(** C4: [find_user_async] gives the first stored user, in the order of
    [users_], whose id is the requested one, gives [nullopt] when no
    stored user has that id, and leaves [users_] as it is. *)
Theorem C4_find_user_async (id0 : UserId) (s : AsyncUserService) :
  ((exists before user after,
      users_ s = before ++ user :: after /\
      Forall (fun existing => ~ has_id id0 existing) before /\
      has_id id0 user /\
      find_user_async id0 s = (Some user, s)) \/
   (Forall (fun existing => ~ has_id id0 existing) (users_ s) /\
    find_user_async id0 s = (None, s))) /\
  (find_user_async id0 s).2 = s.
Proof.
  unfold find_user_async.
  assert (Hno : forall l : list User,
             Forall (fun y => (get (id y) =? get id0)%N = false) l ->
             Forall (fun existing => ~ has_id id0 existing) l).
  { intros l H. eapply Forall_impl; [exact H|].
    intros x Hx. apply N.eqb_neq, Hx. }
  destruct s as [users]. simpl.
  destruct (find_if_spec (fun user => (get (id user) =? get id0)%N) users)
    as [(before & user & after & -> & Hbefore & Huser & ->) | [Hnone ->]].
  - rewrite length_app. simpl.
    replace (List.length before =? List.length before + S (List.length after))%nat
      with false by (symmetry; apply Nat.eqb_neq; lia).
    simpl. rewrite list_lookup_middle by reflexivity.
    split; [|reflexivity]. left. exists before, user, after.
    repeat split; [apply Hno, Hbefore | apply N.eqb_eq, Huser].
  - rewrite Nat.eqb_refl. simpl. split; [|reflexivity].
    right. split; [apply Hno, Hnone | reflexivity].
Qed.

(** * Further properties of [example.cpp] *)

(** ** [SmartArray] without capacity, moved and iterated *)

Section MoreSmartArrayFacts.
Context {T : Type} (T_default : T) (max_alloc : Z).
Hypothesis max_alloc_supported : max_alloc <= PTRDIFF_MAX.

#[local] Abbreviation push_back := (push_back T_default max_alloc).
#[local] Abbreviation push_back_all := (push_back_all T_default max_alloc).
#[local] Abbreviation new := (new T_default max_alloc).
#[local] Abbreviation well_formed := (well_formed max_alloc).

(** X14: an array without capacity cannot grow. [push_back] doubles the
    capacity, and twice zero is zero: on [SmartArray(0)], and on any array
    whose size and capacity are zero, [resize] allocates an array of no
    cell and [push_back] then stores past its end. *)
Theorem push_back_without_capacity (item : T) :
  0 <= max_alloc ->
  (new 0 ≫= push_back item) = Fault BufferOverflow /\
  (forall a : SmartArray T,
     capacity_ a = 0 -> size_ a = 0 ->
     push_back item a = Fault BufferOverflow).
Proof.
  intros Hmax.
  assert (H : forall a : SmartArray T,
             capacity_ a = 0 -> size_ a = 0 ->
             push_back item a = Fault BufferOverflow).
  { intros a Hcap Hsize. unfold ExampleCpp.push_back, resize, make_unique.
    rewrite Hcap, Hsize. change (wrap (0 * 2)) with 0.
    destruct (Z.leb_spec 0 max_alloc); [|lia]. reflexivity. }
  split; [|exact H].
  unfold ExampleCpp.new, make_unique.
  destruct (Z.leb_spec 0 max_alloc); [|lia]. simpl. apply H; reflexivity.
Qed.

(** X15: the move constructor hands the elements over and leaves its
    argument empty. The new array has the elements and the size of the
    old one; the old one has size 0, [empty()] holds of it, [operator[]]
    throws [std::out_of_range] on it for every index, and a [push_back]
    on it stores past the end of an array of no cell. *)
Theorem move_leaves_source_empty (a : SmartArray T) (item : T) :
  0 <= max_alloc ->
  let '(b, a') := move_construct a in
  elements b = elements a /\
  size b = size a /\
  size a' = 0 /\
  empty a' = true /\
  (forall index, 0 <= index ->
     subscript index a' = Throw (out_of_range "Index out of range") /\
     subscript_const index a' = Throw (out_of_range "Index out of range")) /\
  push_back item a' = Fault BufferOverflow.
Proof.
  intros Hmax. simpl. repeat split.
  - unfold subscript. simpl. destruct (Z.geb_spec index 0); [reflexivity | lia].
  - unfold subscript_const. simpl. destruct (Z.geb_spec index 0); [reflexivity | lia].
  - unfold ExampleCpp.push_back, resize, make_unique. simpl.
    change (wrap (0 * 2)) with 0.
    destruct (Z.leb_spec 0 max_alloc); [|lia]. reflexivity.
Qed.

(** X16: move assignment and aliasing. Assigning an array to itself
    changes nothing. Assigning another array puts its elements, size and
    capacity behind [this], leaves the other array as a moved-from one,
    and touches no third array. *)
Theorem move_assign_aliasing (store : list (SmartArray T)) (this other : nat)
    (t o : SmartArray T) :
  store !! this = Some t ->
  store !! other = Some o ->
  let store' := move_assign this other store in
  (this = other -> store' = store) /\
  (this <> other ->
   (exists b, store' !! this = Some b /\
              elements b = elements o /\ size b = size o /\
              capacity_ b = capacity_ o) /\
   store' !! other = Some moved_from /\
   forall k, k <> this -> k <> other -> store' !! k = store !! k) /\
  List.length store' = List.length store.
Proof.
  intros Ht Ho. cbv zeta. unfold move_assign.
  destruct (Nat.eqb_spec this other) as [->|Hne]; simpl.
  { split; [reflexivity|]. split; [contradiction | reflexivity]. }
  rewrite Ho.
  assert (Hthis : (this < List.length store)%nat) by (eapply lookup_lt_Some; eauto).
  assert (Hother : (other < List.length store)%nat) by (eapply lookup_lt_Some; eauto).
  split; [contradiction|]. split; [|now rewrite !length_insert].
  intros _. split; [|split].
  - eexists. split.
    + rewrite list_lookup_insert_ne by (intros E; apply Hne; symmetry; exact E).
      apply list_lookup_insert_eq. exact Hthis.
    + repeat split.
  - apply list_lookup_insert_eq. now rewrite length_insert.
  - intros k Hk1 Hk2.
    rewrite !list_lookup_insert_ne by (intros E; subst; contradiction).
    reflexivity.
Qed.

(** The loop of the range-based [for], from the cell [i] on. *)
Lemma range_for_from (a : SmartArray T) (k : nat) :
  forall (i : Z) (fuel : nat) (visited : list T),
    well_formed a ->
    0 <= i ->
    i + Z.of_nat k = size_ a ->
    (k < fuel)%nat ->
    range_for fuel {| ptr_ := i |} (end_ a) a visited
      = Ok (visited ++ drop (Z.to_nat i) (elements a)).
Proof.
  induction k as [|k IH]; intros i fuel visited Hwf Hi Hsize Hfuel;
    pose proof Hwf as (Hrange & Hlen & _);
    (destruct fuel as [|fuel]; [lia|]); simpl; unfold iterator_ne; simpl.
  - replace i with (size_ a) by lia. rewrite Z.eqb_refl. simpl.
    unfold elements. rewrite drop_ge by (rewrite length_take; lia).
    now rewrite app_nil_r.
  - destruct (Z.eqb_spec i (size_ a)); [lia|]. simpl.
    unfold deref. simpl.
    destruct (array_get_ok (data_ a) i) as (x & Hx & ->); [lia|]. simpl.
    rewrite IH by (try assumption; lia).
    rewrite <- app_assoc. do 2 f_equal. simpl.
    replace (Z.to_nat (i + 1)) with (S (Z.to_nat i)) by lia.
    symmetry. apply drop_S. unfold elements.
    rewrite lookup_take_lt by lia. exact Hx.
Qed.

Lemma range_for_elements (a : SmartArray T) (fuel : nat) :
  well_formed a ->
  (Z.to_nat (size_ a) < fuel)%nat ->
  range_for fuel (begin a) (end_ a) a [] = Ok (elements a).
Proof.
  intros Hwf Hfuel. pose proof Hwf as (Hrange & _).
  unfold begin.
  rewrite (range_for_from a (Z.to_nat (size_ a))); try assumption; try lia.
  reflexivity.
Qed.

(** X17: the range-based [for] visits the stored elements. Over an array
    in its class invariant the loop ends after one test more than
    [size()], has read each of the first [size()] cells once, in order,
    and has read no cell behind them. So it visits, in the order of the
    calls, exactly what [push_back] has stored in a fresh array. *)
Theorem range_for_visits_elements :
  (forall (a : SmartArray T) (fuel : nat),
     well_formed a ->
     (Z.to_nat (size_ a) < fuel)%nat ->
     range_for fuel (begin a) (end_ a) a [] = Ok (elements a)) /\
  (forall (c : Z) (items : list T) (a : SmartArray T) (fuel : nat),
     1 <= c ->
     new c ≫= push_back_all items = Ok a ->
     (List.length items < fuel)%nat ->
     range_for fuel (begin a) (end_ a) a [] = Ok items).
Proof using max_alloc_supported.
  split; [exact range_for_elements|].
  intros c items a fuel Hc Hpush Hfuel.
  unfold ExampleCpp.new, make_unique in Hpush.
  destruct (Z.leb_spec c max_alloc) as [Hmax|]; [|discriminate].
  destruct (new_spec T_default max_alloc c) as (a0 & Hnew & Hwf0 & Hcap0 & Hsize0 & He0);
    [lia|].
  unfold ExampleCpp.new, make_unique in Hnew.
  destruct (Z.leb_spec c max_alloc); [|lia].
  simpl in Hnew, Hpush. injection Hnew as Hnew. rewrite Hnew in Hpush.
  pose proof (push_back_all_spec T_default max_alloc max_alloc_supported c items a0) as Hall.
  rewrite Hpush in Hall.
  destruct Hall as [(Hwf & _) Helems].
  { split; [exact Hwf0|]. lia. }
  rewrite He0 in Helems. simpl in Helems. rewrite <- Helems.
  apply range_for_elements; [exact Hwf|].
  pose proof (elements_length max_alloc a Hwf) as Hlen.
  rewrite Helems in Hlen. lia.
Qed.

End MoreSmartArrayFacts.

(** X14, witness: [SmartArray<int>(0)] and [push_back(7)]. *)
Lemma push_back_without_capacity_witness :
  (new 0 1000 0 ≫= push_back 0 1000 7) = Fault BufferOverflow /\
  (forall a : SmartArray Z,
     capacity_ a = 0 -> size_ a = 0 ->
     push_back 0 1000 7 a = Fault BufferOverflow).
Proof. apply (push_back_without_capacity 0 1000 7). lia. Defined.

(** X15, witness: [squares_array], moved. *)
Lemma move_leaves_source_empty_witness :
  let '(b, a') := move_construct squares_array in
  elements b = elements squares_array /\
  size b = size squares_array /\
  size a' = 0 /\
  empty a' = true /\
  (forall index, 0 <= index ->
     subscript index a' = Throw (out_of_range "Index out of range") /\
     subscript_const index a' = Throw (out_of_range "Index out of range")) /\
  push_back 0 1000 7 a' = Fault BufferOverflow.
Proof. apply (move_leaves_source_empty 0 1000 squares_array 7). lia. Defined.

(** X16, witness: a store of two arrays, the second assigned to the
    first. *)
Lemma move_assign_aliasing_witness :
  let store := [moved_from; squares_array] in
  let store' := move_assign 0 1 store in
  (0%nat = 1%nat -> store' = store) /\
  (0%nat <> 1%nat ->
   (exists b, store' !! 0%nat = Some b /\
              elements b = elements squares_array /\
              size b = size squares_array /\
              capacity_ b = capacity_ squares_array) /\
   store' !! 1%nat = Some moved_from /\
   forall k, k <> 0%nat -> k <> 1%nat -> store' !! k = store !! k) /\
  List.length store' = List.length store.
Proof.
  apply (move_assign_aliasing [moved_from; squares_array] 0 1
           moved_from squares_array); reflexivity.
Defined.

(** X17, witness: the loop over [squares_array], which [push_back] of
    [squares] builds from [SmartArray<int>(4)]. *)
Lemma range_for_visits_elements_witness :
  range_for 6 (begin squares_array) (end_ squares_array) squares_array []
    = Ok squares.
Proof.
  apply (proj2 (range_for_visits_elements 0 1000 ltac:(vm_compute; discriminate))
           4 squares squares_array 6%nat);
    [lia | vm_compute; reflexivity | simpl; lia].
Defined.

(** ** [sum] *)

Section SumFacts.
Context {T : Type} (plus : T -> T -> T).
Hypothesis plus_assoc : forall a b c, plus a (plus b c) = plus (plus a b) c.

Lemma sum_fold_left (args : list T) :
  forall t, sum plus t args = fold_left plus args t.
Proof using plus_assoc.
  induction args as [|a args IH]; intros t; [reflexivity|].
  simpl. rewrite IH. clear IH. revert t a.
  induction args as [|b args IH]; intros t a; [reflexivity|].
  simpl. rewrite IH, plus_assoc. reflexivity.
Qed.

(** X18: [sum] adds from the right, and for an associative [operator+]
    that is the sum from the left. [sum(t, args...)] is
    [t + sum(args...)]; when [+] is associative its value is the one of
    adding the arguments to [t] one after the other, and the sum of two
    argument lists put together is the sum of the two sums. *)
Theorem sum_left_to_right (t : T) (args : list T) :
  sum plus t args = fold_left plus args t /\
  forall (t' : T) (args' : list T),
    sum plus t (args ++ t' :: args') = plus (sum plus t args) (sum plus t' args').
Proof using plus_assoc.
  split; [apply sum_fold_left|].
  intros t' args'. revert t.
  induction args as [|a args IH]; intros t; [reflexivity|].
  simpl. rewrite IH. apply plus_assoc.
Qed.

End SumFacts.

(** X18, witness: [sum(1, 2, 3, 4, 5)] on integers. *)
Lemma sum_left_to_right_witness :
  sum Z.add 1 [2; 3; 4; 5] = fold_left Z.add [2; 3; 4; 5] 1 /\
  forall (t' : Z) (args' : list Z),
    sum Z.add 1 ([2; 3; 4; 5] ++ t' :: args')
    = sum Z.add 1 [2; 3; 4; 5] + sum Z.add t' args'.
Proof. apply (sum_left_to_right Z.add Z.add_assoc 1 [2; 3; 4; 5]). Defined.

(** ** [AsyncUserService]: calls one after the other *)

Lemma any_of_existsb {A : Type} (pred : A -> bool) (l : list A) :
  any_of pred l = existsb pred l.
Proof.
  induction l as [|x l IH]; simpl; [reflexivity|].
  rewrite IH. destruct (pred x); reflexivity.
Qed.

Lemma find_if_find {A : Type} (pred : A -> bool) (l : list A) :
  (if negb (Nat.eqb (find_if pred l) (List.length l))
   then l !! find_if pred l else None) = List.find pred l.
Proof.
  induction l as [|x l IH]; simpl; [reflexivity|].
  destruct (pred x); [reflexivity|]. exact IH.
Qed.

Lemma find_user_async_value (id0 : UserId) (s : AsyncUserService) :
  find_user_async id0 s = (List.find (same_id id0) (users_ s), s).
Proof.
  unfold find_user_async. rewrite <- find_if_find. unfold same_id.
  destruct (negb _); reflexivity.
Qed.

Lemma add_user_async_value (user : User) (s : AsyncUserService) :
  add_user_async user s =
  if existsb (same_id (id user)) (users_ s) then (false, s)
  else (true, {| users_ := users_ s ++ [user] |}).
Proof.
  unfold add_user_async. rewrite any_of_existsb. unfold same_id.
  destruct (existsb _ _); reflexivity.
Qed.

Lemma find_app {A : Type} (pred : A -> bool) (l1 l2 : list A) :
  List.find pred (l1 ++ l2) =
  match List.find pred l1 with
  | Some x => Some x
  | None => List.find pred l2
  end.
Proof.
  induction l1 as [|x l1 IH]; simpl; [reflexivity|].
  destruct (pred x); [reflexivity | exact IH].
Qed.

Lemma find_none_existsb {A : Type} (pred : A -> bool) (l : list A) :
  List.find pred l = None <-> existsb pred l = false.
Proof.
  induction l as [|x l IH]; simpl; [tauto|].
  destruct (pred x); simpl; [split; discriminate | exact IH].
Qed.

Lemma existsb_same_id (id0 : UserId) (l : list User) :
  existsb (same_id id0) l = existsb (N.eqb (get id0)) (map (fun u => get (id u)) l).
Proof.
  induction l as [|x l IH]; simpl; [reflexivity|].
  rewrite IH. unfold same_id. now rewrite N.eqb_sym.
Qed.

Lemma existsb_eqb_In (n : N) (l : list N) :
  existsb (N.eqb n) l = true <-> In n l.
Proof.
  rewrite existsb_exists. split.
  - intros (x & Hx & ->%N.eqb_eq). exact Hx.
  - intros H. exists n. split; [exact H | apply N.eqb_refl].
Qed.

Lemma add_user_async_ids (user : User) (s : AsyncUserService) :
  ids (add_user_async user s).2 =
  if existsb (N.eqb (get (id user))) (ids s) then ids s
  else ids s ++ [get (id user)].
Proof.
  rewrite add_user_async_value, existsb_same_id. fold (ids s).
  destruct (existsb _ (ids s)); [reflexivity|].
  unfold ids. simpl. now rewrite map_app.
Qed.

Lemma add_users_cons (user : User) (users : list User) (s : AsyncUserService) :
  add_users (user :: users) s =
  ((add_user_async user s).1 :: (add_users users (add_user_async user s).2).1,
   (add_users users (add_user_async user s).2).2).
Proof.
  simpl. destruct (add_user_async user s) as [added s'].
  simpl. destruct (add_users users s') as [results s'']. reflexivity.
Qed.

Lemma existsb_same_id_app (id0 : UserId) (l : list User) (user : User) :
  get (id user) <> get id0 ->
  existsb (same_id id0) (l ++ [user]) = existsb (same_id id0) l.
Proof.
  intros Hne. rewrite existsb_app. simpl. unfold same_id at 2.
  destruct (N.eqb_spec (get (id user)) (get id0)); [contradiction|].
  now rewrite !orb_false_r.
Qed.

(** X19: a user that was added is found. After [add_user_async] has
    given [true], [find_user_async] with the id of the user gives that
    user; after it has given [false] the service is as it was, and the
    user found for that id is the one stored before. In both cases the
    call leaves what is found for every other id as it was. *)
Theorem add_then_find (user : User) (s : AsyncUserService) :
  let '(added, s') := add_user_async user s in
  (if added
   then (find_user_async (id user) s').1 = Some user
   else s' = s /\
        exists stored,
          (find_user_async (id user) s).1 = Some stored /\
          get (id stored) = get (id user)) /\
  forall id0 : UserId,
    get id0 <> get (id user) ->
    (find_user_async id0 s').1 = (find_user_async id0 s).1.
Proof.
  rewrite add_user_async_value.
  destruct (existsb (same_id (id user)) (users_ s)) eqn:Hex.
  - split; [|reflexivity]. split; [reflexivity|].
    rewrite find_user_async_value. simpl.
    destruct (List.find (same_id (id user)) (users_ s)) as [stored|] eqn:Hfind.
    + exists stored. split; [reflexivity|].
      apply find_some in Hfind as [_ H]. apply N.eqb_eq, H.
    + apply find_none_existsb in Hfind. congruence.
  - split.
    + rewrite find_user_async_value. simpl. rewrite find_app.
      apply find_none_existsb in Hex. rewrite Hex. simpl.
      unfold same_id. now rewrite N.eqb_refl.
    + intros id0 Hne. rewrite !find_user_async_value. simpl.
      rewrite find_app. destruct (List.find (same_id id0) (users_ s)); [reflexivity|].
      simpl. unfold same_id.
      destruct (N.eqb_spec (get (id user)) (get id0)); [congruence | reflexivity].
Qed.

(** X20: the ids of the stored users stay distinct. A service in which
    no two users have the same id is still one after any sequence of
    calls of [add_user_async]; so is every service that starts empty. *)
Theorem ids_stay_unique (users : list User) (s : AsyncUserService) :
  NoDup (ids s) -> NoDup (ids (add_users users s).2).
Proof.
  revert s. induction users as [|user users IH]; intros s Hs; [exact Hs|].
  rewrite add_users_cons. cbn [snd]. apply IH.
  rewrite add_user_async_ids.
  destruct (existsb (N.eqb (get (id user))) (ids s)) eqn:Hex; [exact Hs|].
  apply NoDup_app. split; [exact Hs|]. split; [|apply NoDup_singleton].
  intros x Hx ->%list_elem_of_singleton.
  assert (existsb (N.eqb (get (id user))) (ids s) = true); [|congruence].
  apply existsb_eqb_In, list_elem_of_In, Hx.
Qed.

(** X20, witness: three calls on the empty service, two of them with the
    same id. *)
Lemma ids_stay_unique_witness :
  NoDup (ids (add_users [zhangsan; lisi; zhangsan] {| users_ := [] |}).2).
Proof.
  apply (ids_stay_unique [zhangsan; lisi; zhangsan] {| users_ := [] |}).
  simpl. constructor.
Defined.

(** X21: two calls of [add_user_async] for different ids can run in
    either order. Each of the two gives the same value in both orders,
    the users stored afterwards are the same up to their order in
    [users_], and [find_user_async] gives the same answer for every id. *)
Theorem add_user_async_commute (user1 user2 : User) (s : AsyncUserService) :
  get (id user1) <> get (id user2) ->
  let r1 := add_user_async user1 s in
  let r12 := add_user_async user2 r1.2 in
  let r2 := add_user_async user2 s in
  let r21 := add_user_async user1 r2.2 in
  r1.1 = r21.1 /\
  r12.1 = r2.1 /\
  users_ r12.2 ≡ₚ users_ r21.2 /\
  forall id0 : UserId,
    (find_user_async id0 r12.2).1 = (find_user_async id0 r21.2).1.
Proof.
  intros Hne. cbv zeta. rewrite !add_user_async_value.
  destruct (existsb (same_id (id user1)) (users_ s)) eqn:H1,
           (existsb (same_id (id user2)) (users_ s)) eqn:H2;
    cbn [fst snd users_];
    rewrite ?H1, ?H2, ?existsb_same_id_app, ?H1, ?H2 by congruence;
    cbn [fst snd users_];
    repeat split; try reflexivity.
  - rewrite <- !app_assoc. apply Permutation_app_head. simpl. apply perm_swap.
  - intros id0. rewrite !find_user_async_value. cbn [fst users_].
    rewrite <- !app_assoc, !find_app.
    destruct (List.find (same_id id0) (users_ s)); [reflexivity|].
    simpl. unfold same_id.
    destruct (N.eqb_spec (get (id user1)) (get id0)) as [E1|_],
             (N.eqb_spec (get (id user2)) (get id0)) as [E2|_];
      try reflexivity.
    congruence.
Qed.

(** X21, witness: the two users of [main], added to the empty service. *)
Lemma add_user_async_commute_witness :
  let s := {| users_ := [] |} in
  let r1 := add_user_async zhangsan s in
  let r12 := add_user_async lisi r1.2 in
  let r2 := add_user_async lisi s in
  let r21 := add_user_async zhangsan r2.2 in
  r1.1 = r21.1 /\
  r12.1 = r2.1 /\
  users_ r12.2 ≡ₚ users_ r21.2 /\
  forall id0 : UserId,
    (find_user_async id0 r12.2).1 = (find_user_async id0 r21.2).1.
Proof.
  apply (add_user_async_commute zhangsan lisi {| users_ := [] |}).
  simpl. lia.
Defined.

(** X22: what a sequence of calls of [add_user_async] stores, and what
    [for_each_user] visits then. The users stored afterwards are the ones
    stored before, followed by the users of the calls whose id was not
    stored before and belongs to no earlier call, in the order of the
    calls; [for_each_user] calls its argument on the stored users in
    that order, the new ones after the old ones. *)
Theorem add_users_stores (users : list User) (s : AsyncUserService) :
  users_ (add_users users s).2 = users_ s ++ first_by_id (ids s) users /\
  forall (St : Type) (func : User -> St -> St) (st : St),
    for_each_user func (add_users users s).2 st
    = fold_left (fun st user => func user st) (first_by_id (ids s) users)
        (for_each_user func s st).
Proof.
  assert (H : users_ (add_users users s).2 = users_ s ++ first_by_id (ids s) users).
  { revert s. induction users as [|user users IH]; intros s.
    - simpl. now rewrite app_nil_r.
    - rewrite add_users_cons. cbn [snd]. rewrite IH, add_user_async_ids.
      rewrite add_user_async_value, existsb_same_id. fold (ids s).
      cbn [first_by_id].
      destruct (existsb (N.eqb (get (id user))) (ids s)); [reflexivity|].
      cbn [snd users_]. now rewrite <- app_assoc. }
  split; [exact H|].
  intros St func st. unfold for_each_user. rewrite H. apply fold_left_app.
Qed.

(** ** [FileResource] *)

Section FileResourceFacts.
Variable moved_string : string -> string.



End FileResourceFacts.
